(** * rmscene (TypeScript port): tagged block codec, CRDT sequence, scene tree

    A shallow embedding of the parts of [rmscene/src/ts] that read and write
    the reMarkable v6 [.lines] format:

    - [tagged-block-common.ts]: [CrdtId], [DataStream] (varuint, tags);
    - [tagged-block-reader.ts]: [TaggedBlockReader] (tagged values, optional
      values, sub-blocks, strings);
    - [tagged-block-writer.ts]: [TaggedBlockWriter] (tagged integers,
      sub-blocks, strings);
    - [scene-stream.ts]: [readGlyphRange], [writeGlyphRange];
    - [crdt-sequence.ts]: [CrdtSequence], [toposortItems];
    - [scene-items.ts], [scene-tree.ts]: [Group], [SceneTree], [buildTree].

    Conventions.  A JavaScript [number] that holds an integer is a [Z]; the
    32-bit conversions that the bit operators apply are written out in
    [Module Js].  A byte buffer is a [list Z] of values in [0, 255].  A
    thrown exception is a value of [exn]; a method of a mutable object is a
    function from the object's state to an [outcome] and the state the call
    leaves behind, so that what a failed call has already consumed stays
    visible.  A JavaScript [Map] that the code only reads by key is a
    [gmap]; one whose iteration order the code walks is an association list
    in insertion order ([Module JsMap]).  A decoded text is a [js_string],
    the list of its UTF-16 code units; the keys the code builds from ASCII
    templates are [string]s. *)

From Stdlib Require Import ZArith List String Ascii Bool Lia DecimalString Sorted Permutation.
From stdpp Require Import base option strings gmap.
From Stdlib Require DecimalZ.
Import ListNotations.

Open Scope string_scope.
Open Scope list_scope.
Open Scope Z_scope.

(* ===================================================================== *)
(** * JavaScript integer operators *)
(* ===================================================================== *)

Module Js.

(** [ToInt32] and [ToUint32] of ECMAScript, on integer-valued numbers. *)
Definition ToInt32 (z : Z) : Z := (z + 2 ^ 31) mod 2 ^ 32 - 2 ^ 31.
Definition ToUint32 (z : Z) : Z := z mod 2 ^ 32.

(** [a & b] *)
Definition and (a b : Z) : Z := Z.land (ToInt32 a) (ToInt32 b).
(** [a | b] *)
Definition or (a b : Z) : Z := Z.lor (ToInt32 a) (ToInt32 b).
(** [a << b]: the shift count is taken modulo 32, the result is an int32. *)
Definition shl (a b : Z) : Z :=
  ToInt32 (Z.shiftl (ToInt32 a) (ToUint32 b mod 32)).
(** [a >> b]: sign-propagating. *)
Definition sar (a b : Z) : Z := Z.shiftr (ToInt32 a) (ToUint32 b mod 32).
(** [a >>> b]: zero-filling, the left operand is read as a uint32. *)
Definition shr (a b : Z) : Z := Z.shiftr (ToUint32 a) (ToUint32 b mod 32).

(** [String(n)] / template-literal formatting of an integer-valued number
    (decimal, a leading minus sign for negatives; magnitudes below 1e21,
    where JavaScript does not switch to exponent notation). *)
Definition numberToString (n : Z) : string :=
  NilZero.string_of_int (Z.to_int n).

End Js.

(* ===================================================================== *)
(** * Exceptions and the state-and-exception monad *)
(* ===================================================================== *)

(** Tag type representing the type of following data ([enum TagType]). *)
Inductive TagType : Set := ID | Length4 | Byte8 | Byte4 | Byte1.

Definition tagTypeCode (t : TagType) : Z :=
  match t with
  | ID => 0xF
  | Length4 => 0xC
  | Byte8 => 0x8
  | Byte4 => 0x4
  | Byte1 => 0x1
  end.

(** [Object.values(TagType).includes(v)] followed by the cast [v as TagType]:
    the numeric members of the enum are exactly the five codes. *)
Definition tagTypeOfCode (v : Z) : option TagType :=
  if v =? 0xF then Some ID
  else if v =? 0xC then Some Length4
  else if v =? 0x8 then Some Byte8
  else if v =? 0x4 then Some Byte4
  else if v =? 0x1 then Some Byte1
  else None.

Definition TagType_eqb (a b : TagType) : bool := tagTypeCode a =? tagTypeCode b.

(** The exceptions the embedded code throws.  Each constructor stands for
    one [throw] site: its JavaScript class and, where the code inspects it,
    its message.  The numbers are the values interpolated in the message. *)
Inductive exn : Type :=
  (** [new Error('EOF')] *)
| Error_EOF
  (** [new Error(`Bad tag type 0x.. at position ..`)] *)
| Error_BadTagType (tagTypeValue position : Z)
  (** [new UnexpectedBlockError(`Expected index .., got .., at position ..`)] *)
| UnexpectedBlockError_Index (expectedIndex index position : Z)
  (** [new UnexpectedBlockError(`Expected tag type .., got .. at position ..`)] *)
| UnexpectedBlockError_TagType (expectedType tagType : TagType) (position : Z)
  (** [new Error('value is negative')] *)
| Error_ValueIsNegative
  (** [new Error('Expected ASCII flag to be true')] *)
| Error_ExpectedAscii
  (** [new BlockOverflowError(`Block starting at .., length .., read up to ..`)] *)
| BlockOverflowError (offset size currentPos : Z)
  (** [RangeError] of [new Uint8Array(buffer, offset, n)] for a negative [n] *)
| RangeError_InvalidLength (n : Z)
  (** [new Error(`Already have item ..`)] *)
| Error_AlreadyHaveItem (key : string)
  (** [new Error('cyclic dependency')] *)
| Error_CyclicDependency
  (** [new Error(`Parent node .. does not exist`)] *)
| Error_ParentDoesNotExist (key : string)
  (** [new Error(`Node does not exist for TreeNodeBlock: ..`)] *)
| Error_NodeDoesNotExistForTreeNodeBlock (key : string)
  (** [new Error(`Node does not exist for SceneGroupItemBlock: ..`)] *)
| Error_NodeDoesNotExistForSceneGroupItemBlock (key : string)
  (** [TypeError]: a property read on [undefined] *)
| TypeError_Undefined.

(** [e instanceof UnexpectedBlockError] *)
Definition isUnexpectedBlockError (e : exn) : bool :=
  match e with
  | UnexpectedBlockError_Index _ _ _ | UnexpectedBlockError_TagType _ _ _ => true
  | _ => false
  end.

(** [e instanceof Error && e.message === 'EOF'] *)
Definition isEOF (e : exn) : bool :=
  match e with
  | Error_EOF => true
  | _ => false
  end.

Inductive outcome (A : Type) : Type :=
| Return (a : A)
| Throw (e : exn).
Arguments Return {A} a.
Arguments Throw {A} e.

(** A method on a mutable object of state [S]: the result (or the exception)
    together with the state after the call. *)
Definition M (S A : Type) : Type := S -> outcome A * S.

Definition ret {S A : Type} (a : A) : M S A := fun s => (Return a, s).
Definition throw {S A : Type} (e : exn) : M S A := fun s => (Throw e, s).
Definition bind {S A B : Type} (c : M S A) (k : A -> M S B) : M S B :=
  fun s =>
    match c s with
    | (Return a, s') => k a s'
    | (Throw e, s') => (Throw e, s')
    end.

Declare Scope js_scope.
Delimit Scope js_scope with js.
Notation "'let*' x ':=' c 'in' k" := (bind c (fun x => k))
  (at level 10, x name, c at level 100, k at level 200) : js_scope.
Notation "'let*' ' p ':=' c 'in' k" := (bind c (fun p => k))
  (at level 10, p pattern, c at level 100, k at level 200) : js_scope.
Open Scope js_scope.

(* ===================================================================== *)
(** * tagged-block-common.ts: CrdtId *)
(* ===================================================================== *)

(** An identifier or timestamp in the CRDT system. *)
Record CrdtId : Set := createCrdtId { part1 : Z; part2 : Z }.

(** Compare two CrdtIds for equality. *)
Definition crdtIdEquals (a b : CrdtId) : bool :=
  (part1 a =? part1 b) && (part2 a =? part2 b).

(** Compare two CrdtIds for ordering (returns -1, 0, or 1). *)
Definition crdtIdCompare (a b : CrdtId) : Z :=
  if negb (part1 a =? part1 b) then (if part1 a <? part1 b then -1 else 1)
  else if negb (part2 a =? part2 b) then (if part2 a <? part2 b then -1 else 1)
  else 0.

(** Format CrdtId as string: [`CrdtId(${id.part1}, ${id.part2})`]. *)
Definition crdtIdToString (id : CrdtId) : string :=
  ("CrdtId(" ++ Js.numberToString (part1 id) ++ ", "
             ++ Js.numberToString (part2 id) ++ ")")%string.

(** Container for a last-write-wins value. *)
Record LwwValue (T : Type) : Type := createLwwValue { timestamp : CrdtId; value : T }.
Arguments createLwwValue {T} timestamp value.
Arguments timestamp {T} l.
Arguments value {T} l.

(* ===================================================================== *)
(** * tagged-block-common.ts: DataStream *)
(* ===================================================================== *)

(** [buffer] is the whole [ArrayBuffer] (its length is [byteLength], the
    capacity when writing); [_position] is the cursor. *)
Record DataStream : Type := mkDataStream { buffer : list Z; _position : Z }.

Definition byteLength (s : DataStream) : Z := Z.of_nat (length (buffer s)).

(** [new DataStream(data)]: the bytes are copied, the cursor starts at 0. *)
Definition newDataStream (data : list Z) : DataStream :=
  {| buffer := data; _position := 0 |}.

(** [DataStream.forWriting(initialCapacity = 1024)]: a zero-filled buffer. *)
Definition forWriting (initialCapacity : Z) : DataStream :=
  newDataStream (repeat 0 (Z.to_nat initialCapacity)).

Definition tell : M DataStream Z := fun s => (Return (_position s), s).

Definition setPosition (p : Z) : M DataStream unit :=
  fun s => (Return tt, {| buffer := buffer s; _position := p |}).

(** [getBytes()]: the first [_position] bytes of the buffer. *)
Definition getBytes (s : DataStream) : list Z :=
  firstn (Z.to_nat (_position s)) (buffer s).

(** [DataView.getUint8(i)] on a position inside the buffer. *)
Definition getUint8 (s : DataStream) (i : Z) : Z := nth (Z.to_nat i) (buffer s) 0.

(** Read a uint8. *)
Definition readUint8 : M DataStream Z :=
  fun s =>
    if _position s + 1 >? byteLength s then (Throw Error_EOF, s)
    else (Return (getUint8 s (_position s)),
          {| buffer := buffer s; _position := _position s + 1 |}).

(** Read a bool. *)
Definition readBool : M DataStream bool :=
  let* b := readUint8 in ret (negb (b =? 0)).

(** Read a uint32 (little endian). *)
Definition readUint32 : M DataStream Z :=
  fun s =>
    if _position s + 4 >? byteLength s then (Throw Error_EOF, s)
    else
      let p := _position s in
      (Return (getUint8 s p + 2 ^ 8 * getUint8 s (p + 1)
               + 2 ^ 16 * getUint8 s (p + 2) + 2 ^ 24 * getUint8 s (p + 3)),
       {| buffer := buffer s; _position := p + 4 |}).

(** A float64 is carried as the 64-bit pattern of its eight bytes (little
    endian); no arithmetic is done on the floats read here. *)
Definition float64 : Type := Z.

Fixpoint littleEndian (bytes : list Z) : Z :=
  match bytes with
  | [] => 0
  | b :: rest => b + 2 ^ 8 * littleEndian rest
  end.

(** Read a float64 (little endian). *)
Definition readFloat64 : M DataStream float64 :=
  fun s =>
    if _position s + 8 >? byteLength s then (Throw Error_EOF, s)
    else
      let p := _position s in
      (Return (littleEndian (firstn 8 (skipn (Z.to_nat p) (buffer s)))),
       {| buffer := buffer s; _position := p + 8 |}).

(** Read n bytes from stream.  [new Uint8Array(buffer, position, n)] raises
    a [RangeError] for a negative [n], before the cursor moves. *)
Definition readBytes (n : Z) : M DataStream (list Z) :=
  fun s =>
    if _position s + n >? byteLength s then (Throw Error_EOF, s)
    else if n <? 0 then (Throw (RangeError_InvalidLength n), s)
    else (Return (firstn (Z.to_nat n) (skipn (Z.to_nat (_position s)) (buffer s))),
          {| buffer := buffer s; _position := _position s + n |}).

(** The loop of [readVaruint].  Every iteration calls [readUint8], which
    throws EOF when no byte is left and otherwise hands out the next byte
    and moves the cursor by one; the recursion is on the bytes left after
    the cursor, [rest], and [pos] is the cursor (lemma
    [readVaruint_loop_readUint8] states the round with [readUint8]). *)
Fixpoint readVaruint_loop (rest : list Z) (shift result pos : Z)
  : outcome Z * Z :=
  match rest with
  | [] => (Throw Error_EOF, pos)
  | byte :: rest' =>
      let result := Js.or result (Js.shl (Js.and byte 0x7F) shift) in
      let shift := shift + 7 in
      if Js.and byte 0x80 =? 0 then (Return result, pos + 1)
      else readVaruint_loop rest' shift result (pos + 1)
  end.

(** Read a variable-length unsigned integer. *)
Definition readVaruint : M DataStream Z :=
  fun s =>
    let '(r, pos) :=
      readVaruint_loop (skipn (Z.to_nat (_position s)) (buffer s)) 0 0 (_position s) in
    (r, {| buffer := buffer s; _position := pos |}).

(** Read a CrdtId. *)
Definition readCrdtId : M DataStream CrdtId :=
  let* p1 := readUint8 in
  let* p2 := readVaruint in
  ret (createCrdtId p1 p2).

(** Read tag values from stream. *)
Definition _readTagValues : M DataStream (Z * TagType) :=
  let* x := readVaruint in
  let index := Js.sar x 4 in
  let tagTypeValue := Js.and x 0xF in
  match tagTypeOfCode tagTypeValue with
  | None => let* pos := tell in throw (Error_BadTagType tagTypeValue pos)
  | Some tagType => ret (index, tagType)
  end.

(** Read a tag from the stream, raising error if not expected. *)
Definition readTag (expectedIndex : Z) (expectedType : TagType)
  : M DataStream (Z * TagType) :=
  let* pos := tell in
  let* '(index, tagType) := _readTagValues in
  if negb (index =? expectedIndex) then
    let* _ := setPosition pos in
    throw (UnexpectedBlockError_Index expectedIndex index pos)
  else if negb (TagType_eqb tagType expectedType) then
    let* _ := setPosition pos in
    throw (UnexpectedBlockError_TagType expectedType tagType pos)
  else ret (index, tagType).

(** Check that INDEX and TAG_TYPE are next (without advancing): the
    [try]/[catch]/[finally] restores the cursor on every path. *)
Definition checkTag (expectedIndex : Z) (expectedType : TagType)
  : M DataStream bool :=
  fun s =>
    let pos := _position s in
    let '(r, s') := _readTagValues s in
    let b :=
      match r with
      | Return (index, tagType) =>
          (index =? expectedIndex) && TagType_eqb tagType expectedType
      | Throw _ => false
      end in
    (Return b, {| buffer := buffer s'; _position := pos |}).

(** The doubling loop of [_ensureCapacity]:
    [while (newSize < needed) newSize *= 2]. *)
Fixpoint ensureCapacity_loop (fuel : nat) (newSize needed : Z) : Z :=
  if newSize <? needed then
    match fuel with
    | O => newSize
    | S fuel' => ensureCapacity_loop fuel' (newSize * 2) needed
    end
  else newSize.

(** Ensure buffer has enough capacity: the buffer is replaced by a
    zero-filled one of the doubled size that starts with the old bytes.
    The start size is at least 1, so [log2_up needed] doublings reach
    [needed] (lemma [ensureCapacity_loop_enough]). *)
Definition _ensureCapacity (additionalBytes : Z) : M DataStream unit :=
  fun s =>
    let needed := _position s + additionalBytes in
    if needed <=? byteLength s then (Return tt, s)
    else
      let newSize := if byteLength s =? 0 then 1024 else byteLength s in
      let newSize := ensureCapacity_loop (Z.to_nat (Z.log2_up needed)) newSize needed in
      (Return tt,
       {| buffer := buffer s ++ repeat 0 (Z.to_nat (newSize - byteLength s));
          _position := _position s |}).

(** A store at the cursor followed by the move of the cursor: the
    [target.set(bytes)] of [writeBytes] and the [view.setUintN(position,
    ..., true)] of the fixed-size writers, each with its
    [_position += n].  The callers have ensured the capacity. *)
Definition storeBytes (bytes : list Z) : M DataStream unit :=
  fun s =>
    let p := Z.to_nat (_position s) in
    (Return tt,
     {| buffer := firstn p (buffer s) ++ bytes ++ skipn (p + length bytes) (buffer s);
        _position := _position s + Z.of_nat (length bytes) |}).

(** [new Uint8Array(array)]: each element is stored modulo 256. *)
Definition newUint8Array (array : list Z) : list Z := map (fun b => b mod 256) array.

(** Write bytes to stream, expanding buffer if needed. *)
Definition writeBytes (bytes : list Z) : M DataStream unit :=
  let* _ := _ensureCapacity (Z.of_nat (length bytes)) in
  storeBytes bytes.

(** The [n] low bytes of [v], least significant first. *)
Fixpoint littleEndianBytes (n : nat) (v : Z) : list Z :=
  match n with
  | O => []
  | S n' => v mod 256 :: littleEndianBytes n' (v / 256)
  end.

(** Write a uint8. *)
Definition writeUint8 (value : Z) : M DataStream unit :=
  let* _ := _ensureCapacity 1 in
  storeBytes [value mod 256].

(** Write a bool. *)
Definition writeBool (value : bool) : M DataStream unit :=
  writeUint8 (if value then 1 else 0).

(** Write a uint32 (little endian). *)
Definition writeUint32 (value : Z) : M DataStream unit :=
  let* _ := _ensureCapacity 4 in
  storeBytes (littleEndianBytes 4 (Js.ToUint32 value)).

(** Write a float64 (little endian): the eight bytes of its bit pattern. *)
Definition writeFloat64 (value : float64) : M DataStream unit :=
  let* _ := _ensureCapacity 8 in
  storeBytes (littleEndianBytes 8 value).

(** The loop of [writeVaruint], which builds the array [bytes].  After the
    first [value >>>= 7] the value is below 2^25 and loses seven bits per
    round, so the loop ends within five rounds (lemma
    [writeVaruint_loop_fuel]). *)
Fixpoint writeVaruint_loop (fuel : nat) (value : Z) : list Z :=
  match fuel with
  | O => []
  | S fuel' =>
      let toWrite := Js.and value 0x7F in
      let value := Js.shr value 7 in
      if negb (value =? 0) then Js.or toWrite 0x80 :: writeVaruint_loop fuel' value
      else [toWrite]
  end.

(** Write a variable-length unsigned integer. *)
Definition writeVaruint (value : Z) : M DataStream unit :=
  if value <? 0 then throw Error_ValueIsNegative
  else writeBytes (newUint8Array (writeVaruint_loop 5 value)).

(** Write a tag to the stream. *)
Definition writeTag (index : Z) (tagType : TagType) : M DataStream unit :=
  let x := Js.or (Js.shl index 4) (tagTypeCode tagType) in
  writeVaruint x.

(* ===================================================================== *)
(** * JavaScript [Map] and [Set] with their insertion order *)
(* ===================================================================== *)

Module JsMap.

(** [Map<string, V>]: the entries in insertion order. *)
Definition t (V : Type) : Type := list (string * V).

Fixpoint get {V : Type} (k : string) (m : t V) : option V :=
  match m with
  | [] => None
  | (k', v) :: m' => if String.eqb k k' then Some v else get k m'
  end.

Definition has {V : Type} (k : string) (m : t V) : bool :=
  match get k m with Some _ => true | None => false end.

(** [m.set(k, v)]: an existing key keeps its place, a new key goes last. *)
Fixpoint set {V : Type} (k : string) (v : V) (m : t V) : t V :=
  match m with
  | [] => [(k, v)]
  | (k', v') :: m' =>
      if String.eqb k k' then (k, v) :: m' else (k', v') :: set k v m'
  end.

(** [f(m.get(k)!)] for an [f] that mutates the stored object in place. *)
Fixpoint update {V : Type} (k : string) (f : V -> V) (m : t V) : t V :=
  match m with
  | [] => []
  | (k', v') :: m' =>
      if String.eqb k k' then (k', f v') :: m' else (k', v') :: update k f m'
  end.

Definition values {V : Type} (m : t V) : list V := map snd m.

Definition size {V : Type} (m : t V) : Z := Z.of_nat (length m).

End JsMap.

Module JsSet.

(** [Set<string>]: the members in insertion order, without repetition. *)
Definition t : Type := list string.

Definition has (k : string) (s : t) : bool := existsb (String.eqb k) s.

Definition add (k : string) (s : t) : t := if has k s then s else s ++ [k].

Definition size (s : t) : Z := Z.of_nat (length s).

End JsSet.

(** [Array.prototype.sort()] without a comparator orders the elements by
    their string values, comparing UTF-16 code units; the keys sorted here
    are ASCII, so this is [String.leb].  The order is total, so every
    sorting algorithm returns the same array; insertion sort is used. *)
Fixpoint sort_insert (k : string) (sorted : list string) : list string :=
  match sorted with
  | [] => [k]
  | k' :: rest =>
      if String.leb k k' then k :: k' :: rest else k' :: sort_insert k rest
  end.

Definition arraySort (a : list string) : list string :=
  fold_right sort_insert [] a.

(* ===================================================================== *)
(** * crdt-sequence.ts *)
(* ===================================================================== *)

(** End marker for CRDT sequences. *)
Definition END_MARKER : CrdtId := createCrdtId 0 0.

(** An item in a CRDT sequence. *)
Module CrdtSequenceItem.
Record t (T : Type) : Type := create {
  itemId : CrdtId;
  leftId : CrdtId;
  rightId : CrdtId;
  deletedLength : Z;
  value : T
}.
Arguments create {T} itemId leftId rightId deletedLength value.
Arguments itemId {T} t.
Arguments leftId {T} t.
Arguments rightId {T} t.
Arguments deletedLength {T} t.
Arguments value {T} t.
End CrdtSequenceItem.

Definition createCrdtSequenceItem {T : Type} := @CrdtSequenceItem.create T.

Inductive Side : Set := left_side | right_side.

Section Toposort.

Context {T : Type}.

(** [getSideId], the closure inside [toposortItems]. *)
Definition getSideId (itemDict : JsMap.t (CrdtSequenceItem.t T))
           (item : CrdtSequenceItem.t T) (side : Side) : string :=
  let sideId :=
    match side with
    | left_side => CrdtSequenceItem.leftId item
    | right_side => CrdtSequenceItem.rightId item
    end in
  if crdtIdEquals sideId END_MARKER
     || negb (JsMap.has (crdtIdToString sideId) itemDict)
  then match side with left_side => "__start" | right_side => "__end" end
  else crdtIdToString sideId.

(** The body of the loop that builds [data]: key "comes after" values. *)
Definition toposort_addItem (itemDict : JsMap.t (CrdtSequenceItem.t T))
           (data : JsMap.t JsSet.t) (item : CrdtSequenceItem.t T)
  : JsMap.t JsSet.t :=
  let itemKey := crdtIdToString (CrdtSequenceItem.itemId item) in
  let leftId := getSideId itemDict item left_side in
  let rightId := getSideId itemDict item right_side in
  let data := if negb (JsMap.has itemKey data) then JsMap.set itemKey [] data else data in
  let data := JsMap.update itemKey (JsSet.add leftId) data in
  let data := if negb (JsMap.has rightId data) then JsMap.set rightId [] data else data in
  JsMap.update rightId (JsSet.add itemKey) data.

(** Fill in sources not explicitly included. *)
Definition toposort_fillSources (data : JsMap.t JsSet.t) : JsMap.t JsSet.t :=
  let allDeps :=
    fold_left (fun allDeps deps => fold_left (fun s dep => JsSet.add dep s) deps allDeps)
              (JsMap.values data) [] in
  fold_left (fun data dep => if negb (JsMap.has dep data) then JsMap.set dep [] data else data)
            allDeps data.

(** The keys of [data] whose dependency set is empty. *)
Definition toposort_nextItems (data : JsMap.t JsSet.t) : JsSet.t :=
  fold_left (fun nextItems '(item, deps) =>
               if JsSet.size deps =? 0 then JsSet.add item nextItems else nextItems)
            data [].

(** Sort and yield items that are in itemDict:
    [Array.from(nextItems).filter((k) => itemDict.has(k)).sort()]. *)
Definition toposort_sortedItems (itemDict : JsMap.t (CrdtSequenceItem.t T))
           (nextItems : JsSet.t) : list string :=
  arraySort (List.filter (fun k => JsMap.has k itemDict) nextItems).

(** The ids pushed for one layer: each sorted key is mapped back to the
    [itemId] of its item ([itemDict.get(key)!], present by the filter). *)
Definition toposort_emit (itemDict : JsMap.t (CrdtSequenceItem.t T))
           (nextItems : JsSet.t) : list CrdtId :=
  flat_map (fun key =>
              match JsMap.get key itemDict with
              | Some item => [CrdtSequenceItem.itemId item]
              | None => []
              end) (toposort_sortedItems itemDict nextItems).

(** Remove processed items from dependencies. *)
Definition toposort_remove (nextItems : JsSet.t) (data : JsMap.t JsSet.t)
  : JsMap.t JsSet.t :=
  fold_left (fun newData '(item, deps) =>
               if negb (JsSet.has item nextItems) then
                 JsMap.set item (List.filter (fun dep => negb (JsSet.has dep nextItems)) deps) newData
               else newData)
            data [].

(** The [while (true)] loop.  Every round that does not leave the loop
    removes at least one key from [data]; [None] is "out of fuel", which
    [toposortItems] never meets (theorem [toposortItems_terminates]). *)
Fixpoint toposort_loop (fuel : nat) (itemDict : JsMap.t (CrdtSequenceItem.t T))
         (data : JsMap.t JsSet.t) (result : list CrdtId)
  : option (outcome (list CrdtId)) :=
  match fuel with
  | O => None
  | S fuel' =>
      let nextItems := toposort_nextItems data in
      if (JsSet.size nextItems =? 1) && JsSet.has "__end" nextItems then
        Some (Return result)
      else if JsSet.size nextItems =? 0 then
        Some (Throw Error_CyclicDependency)
      else
        toposort_loop fuel' itemDict (toposort_remove nextItems data)
                      (result ++ toposort_emit itemDict nextItems)
  end.

Definition toposort_data (items : list (CrdtSequenceItem.t T))
  : JsMap.t (CrdtSequenceItem.t T) * JsMap.t JsSet.t :=
  let itemDict :=
    fold_left (fun d item =>
                 JsMap.set (crdtIdToString (CrdtSequenceItem.itemId item)) item d)
              items [] in
  (itemDict, toposort_fillSources (fold_left (toposort_addItem itemDict) items [])).

(** Sort SequenceItems based on left and right ids.
    Returns CrdtIds in the sorted order. *)
Definition toposortItems (items : list (CrdtSequenceItem.t T))
  : option (outcome (list CrdtId)) :=
  match items with
  | [] => Some (Return [])
  | _ =>
      let '(itemDict, data) := toposort_data items in
      toposort_loop (S (length data)) itemDict data []
  end.

(** Ordered CRDT Sequence container ([class CrdtSequence<T>]). *)
Record CrdtSequence : Type := mkCrdtSequence {
  _items : JsMap.t (CrdtSequenceItem.t T)
}.

(** [new CrdtSequence(items)] *)
Definition newCrdtSequence (items : list (CrdtSequenceItem.t T)) : CrdtSequence :=
  {| _items :=
       fold_left (fun m item =>
                    JsMap.set (crdtIdToString (CrdtSequenceItem.itemId item)) item m)
                 items [] |}.

(** Return CrdtIds in order. *)
Definition CrdtSequence_keys (seq : CrdtSequence) : option (outcome (list CrdtId)) :=
  toposortItems (JsMap.values (_items seq)).

(** Return value with key. *)
Definition CrdtSequence_get (key : CrdtId) (seq : CrdtSequence) : option T :=
  match JsMap.get (crdtIdToString key) (_items seq) with
  | Some item => Some (CrdtSequenceItem.value item)
  | None => None
  end.

(** Check if key exists. *)
Definition CrdtSequence_has (key : CrdtId) (seq : CrdtSequence) : bool :=
  JsMap.has (crdtIdToString key) (_items seq).

(** Add an item to the sequence. *)
Definition CrdtSequence_add (item : CrdtSequenceItem.t T) : M CrdtSequence unit :=
  fun seq =>
    let key := crdtIdToString (CrdtSequenceItem.itemId item) in
    if JsMap.has key (_items seq) then (Throw (Error_AlreadyHaveItem key), seq)
    else (Return tt, {| _items := JsMap.set key item (_items seq) |}).

End Toposort.

Arguments CrdtSequence T : clear implicits.

(* ===================================================================== *)
(** * scene-items.ts *)
(* ===================================================================== *)

(** A decoded JavaScript string: its UTF-16 code units. *)
Definition js_string : Type := list Z.

(** A point in a stroke (every field is a JavaScript number). *)
Module Point.
Record t : Type := create {
  x : float64; y : float64; speed : float64;
  direction : float64; width : float64; pressure : float64
}.
End Point.
Definition createPoint := Point.create.

(** A rectangle. *)
Module Rectangle.
Record t : Type := create { x : float64; y : float64; w : float64; h : float64 }.
End Rectangle.
Definition createRectangle := Rectangle.create.

(** A stroke line.  [color] and [tool] hold the numeric codes of [PenColor]
    and [Pen]; the reader casts the numbers it read without checking them. *)
Record Line : Type := createLine {
  color : Z;
  tool : Z;
  points : list Point.t;
  thicknessScale : float64;
  startingLength : float64;
  moveId : option CrdtId
}.

(** Highlighted text (glyph range). *)
Module GlyphRange.
Record t : Type := create {
  start : option Z;
  length : Z;
  text : js_string;
  color : Z;
  rectangles : list Rectangle.t
}.
End GlyphRange.
Definition createGlyphRange := GlyphRange.create.

(** The value of a text item: a string or an integer formatting code. *)
Inductive TextItemValue : Type :=
| TextString (s : js_string)
| TextFormat (code : Z).

(** Block of text. *)
Record Text : Type := createText {
  items : CrdtSequence TextItemValue;
  styles : JsMap.t (LwwValue Z);
  posX : float64;
  posY : float64;
  width : float64
}.

(** What a child sequence holds.  A [Group] is a mutable object shared
    between [SceneTree._nodes] and the child sequence of its parent: the
    sequence holds a reference to it, the key under which [_nodes] stores
    the object.  [ItemNull] is the [null] that an item block without a value
    sub-block carries. *)
Inductive SceneItem : Type :=
| ItemNull
| ItemLine (line : Line)
| ItemGlyphRange (glyph : GlyphRange.t)
| ItemGroup (ref : string).

(** A Group represents a group of nested items. *)
Record Group : Type := mkGroup {
  nodeId : CrdtId;
  children : CrdtSequence SceneItem;
  label : LwwValue js_string;
  visible : LwwValue bool;
  anchorId : option (LwwValue CrdtId);
  anchorType : option (LwwValue Z);
  anchorThreshold : option (LwwValue float64);
  anchorOriginX : option (LwwValue float64)
}.

(** [createGroup(nodeId)] with no options: the defaults. *)
Definition createGroup (nodeId : CrdtId) : Group :=
  {| nodeId := nodeId;
     children := newCrdtSequence [];
     label := createLwwValue (createCrdtId 0 0) [];
     visible := createLwwValue (createCrdtId 0 0) true;
     anchorId := None;
     anchorType := None;
     anchorThreshold := None;
     anchorOriginX := None |}.

(* ===================================================================== *)
(** * tagged-block-reader.ts *)
(* ===================================================================== *)

(** Base class for block/subblock info. *)
Module BlockInfo.
Record t : Type := create {
  offset : Z;
  size : Z;
  extraData : list Z
}.
End BlockInfo.

(** Top-level block info. *)
Record MainBlockInfo : Type := mkMainBlockInfo {
  mainInfo : BlockInfo.t;
  blockType : Z;
  minVersion : Z;
  currentVersion : Z
}.

(** Read blocks and values from a remarkable v6 file stream. *)
Record TaggedBlockReader : Type := mkTaggedBlockReader {
  data : DataStream;
  currentBlock : option MainBlockInfo;
  _warnedAboutExtraData : bool
}.

(** [new TaggedBlockReader(data)] *)
Definition newTaggedBlockReader (bytes : list Z) : TaggedBlockReader :=
  {| data := newDataStream bytes; currentBlock := None; _warnedAboutExtraData := false |}.

(** A call [this.data.m(...)] from a method of the reader. *)
Definition onData {A : Type} (c : M DataStream A) : M TaggedBlockReader A :=
  fun r =>
    let '(o, d) := c (data r) in
    (o, {| data := d; currentBlock := currentBlock r;
           _warnedAboutExtraData := _warnedAboutExtraData r |}).

(** Read a tagged CRDT ID. *)
Definition readId (index : Z) : M TaggedBlockReader CrdtId :=
  let* _ := onData (readTag index ID) in onData readCrdtId.

(** Read a tagged 4-byte unsigned integer. *)
Definition readInt (index : Z) : M TaggedBlockReader Z :=
  let* _ := onData (readTag index Byte4) in onData readUint32.

(** [_readOptional]: the default is returned for an [UnexpectedBlockError]
    or an EOF, with the reader as the failed read left it; any other
    exception is thrown again.  [None] is [null]. *)
Definition _readOptional {A : Type} (func : Z -> M TaggedBlockReader A)
           (index : Z) (defaultValue : option A) : M TaggedBlockReader (option A) :=
  fun r =>
    match func index r with
    | (Return v, r') => (Return (Some v), r')
    | (Throw e, r') =>
        if isUnexpectedBlockError e || isEOF e then (Return defaultValue, r')
        else (Throw e, r')
    end.

(** Read a tagged CRDT ID, return default if not present. *)
Definition readIdOptional (index : Z) (defaultValue : option CrdtId) :=
  _readOptional readId index defaultValue.

(** Read a tagged int, return default if not present. *)
Definition readIntOptional (index : Z) (defaultValue : option Z) :=
  _readOptional readInt index defaultValue.

(** Read a subblock length and return SubBlockInfo. *)
Definition readSubblock (index : Z) : M TaggedBlockReader BlockInfo.t :=
  let* _ := onData (readTag index Length4) in
  let* subblockLength := onData readUint32 in
  let* offset := onData tell in
  ret {| BlockInfo.offset := offset; BlockInfo.size := subblockLength;
         BlockInfo.extraData := [] |}.

(** [_checkPosition]: the info object is mutated when bytes are left over;
    the updated object is returned.  The [console.warn] call itself is not
    modelled, the flag that guards it is. *)
Definition _checkPosition (blockInfo : BlockInfo.t) : M TaggedBlockReader BlockInfo.t :=
  let size := BlockInfo.size blockInfo in
  let offset := BlockInfo.offset blockInfo in
  let* currentPos := onData tell in
  if currentPos >? offset + size then
    throw (BlockOverflowError offset size currentPos)
  else if currentPos <? offset + size then
    let* _ := (fun r => (Return tt, {| data := data r; currentBlock := currentBlock r;
                                       _warnedAboutExtraData := true |})) in
    let remaining := offset + size - currentPos in
    let* excess := onData (readBytes remaining) in
    ret {| BlockInfo.offset := offset; BlockInfo.size := size;
           BlockInfo.extraData := excess |}
  else ret blockInfo.

(** Finish reading a subblock and check position. *)
Definition endSubblock (subblock : BlockInfo.t) : M TaggedBlockReader BlockInfo.t :=
  _checkPosition subblock.

Section Decoding.

(** [new TextDecoder('utf-8').decode(bytes)], the platform's decoder from
    bytes to the UTF-16 code units of the decoded string. *)
Variable utf8_decode : list Z -> js_string.

(** Read a standard string block. *)
Definition readString (index : Z) : M TaggedBlockReader js_string :=
  let* subblock := readSubblock index in
  let* stringLength := onData readVaruint in
  let* isAscii := onData readBool in
  if negb isAscii then throw Error_ExpectedAscii
  else
    let* bytes := onData (readBytes stringLength) in
    let str := utf8_decode bytes in
    let* _ := endSubblock subblock in
    ret str.

(** The [for] loop of [readGlyphRange]: [n] rounds, each reading the four
    float64 of one rectangle. *)
Fixpoint readRectangles (n : nat) (rectangles : list Rectangle.t)
  : M TaggedBlockReader (list Rectangle.t) :=
  match n with
  | O => ret rectangles
  | S n' =>
      let* x := onData readFloat64 in
      let* y := onData readFloat64 in
      let* w := onData readFloat64 in
      let* h := onData readFloat64 in
      readRectangles n' (rectangles ++ [createRectangle x y w h])
  end.

(** [readGlyphRange] of scene-stream.ts.  [a ?? 0] replaces [null] by 0;
    [length || text.length] replaces a zero [length] by [text.length]. *)
Definition readGlyphRange : M TaggedBlockReader GlyphRange.t :=
  let* start := readIntOptional 2 None in
  let* length_opt := readIntOptional 3 None in
  let length := match length_opt with Some v => v | None => 0 end in
  let* colorId := readInt 4 in
  let* text := readString 5 in
  let* subblock := readSubblock 6 in
  let* numRects := onData readVaruint in
  let* rectangles := readRectangles (Z.to_nat numRects) [] in
  let* _ := endSubblock subblock in
  ret (createGlyphRange start
         (if length =? 0 then Z.of_nat (List.length text) else length)
         text colorId rectangles).

End Decoding.

(* ===================================================================== *)
(** * tagged-block-writer.ts *)
(* ===================================================================== *)

(** Write blocks and values to a remarkable v6 file stream.  [data] is the
    stream that the write methods currently write to. *)
Module TaggedBlockWriter.
Record t : Type := create {
  data : DataStream;
  _inBlock : bool
}.
End TaggedBlockWriter.

(** [new TaggedBlockWriter()] *)
Definition newTaggedBlockWriter : TaggedBlockWriter.t :=
  {| TaggedBlockWriter.data := forWriting 1024; TaggedBlockWriter._inBlock := false |}.

(** A call [this.data.m(...)] from a method of the writer. *)
Definition onWriterData {A : Type} (c : M DataStream A) : M TaggedBlockWriter.t A :=
  fun w =>
    let '(o, d) := c (TaggedBlockWriter.data w) in
    (o, {| TaggedBlockWriter.data := d;
           TaggedBlockWriter._inBlock := TaggedBlockWriter._inBlock w |}).

(** Write a tagged 4-byte unsigned integer. *)
Definition writeInt (index value : Z) : M TaggedBlockWriter.t unit :=
  let* _ := onWriterData (writeTag index Byte4) in
  onWriterData (writeUint32 value).

(** [const end = writer.startSubblock(index); body; end();]
    [startSubblock] swaps in a fresh scratch stream; the function it returns
    swaps the previous stream back and writes the tag, the length and the
    bytes of the scratch stream to it.  [body] is the code between the two
    calls; when it throws, the scratch stream stays in place. *)
Definition withSubblock {A : Type} (index : Z) (body : M TaggedBlockWriter.t A)
  : M TaggedBlockWriter.t A :=
  fun w =>
    let previousData := TaggedBlockWriter.data w in
    match body {| TaggedBlockWriter.data := forWriting 1024;
                  TaggedBlockWriter._inBlock := TaggedBlockWriter._inBlock w |} with
    | (Throw e, w') => (Throw e, w')
    | (Return a, w') =>
        let subblockBytes := getBytes (TaggedBlockWriter.data w') in
        (let* _ := onWriterData (writeTag index Length4) in
         let* _ := onWriterData (writeUint32 (Z.of_nat (length subblockBytes))) in
         let* _ := onWriterData (writeBytes subblockBytes) in
         ret a)
          {| TaggedBlockWriter.data := previousData;
             TaggedBlockWriter._inBlock := TaggedBlockWriter._inBlock w' |}
    end.

Section Encoding.

(** [new TextEncoder().encode(value)], the platform's encoder from the
    UTF-16 code units of a string to its UTF-8 bytes. *)
Variable utf8_encode : js_string -> list Z.

(** Write a standard string. *)
Definition writeString (index : Z) (value : js_string) : M TaggedBlockWriter.t unit :=
  withSubblock index
    (let bytes := utf8_encode value in
     let* _ := onWriterData (writeVaruint (Z.of_nat (length bytes))) in
     let* _ := onWriterData (writeBool true) in
     onWriterData (writeBytes bytes)).

(** The [for] loop of [writeGlyphRange] over the rectangles. *)
Fixpoint writeRectangles (rectangles : list Rectangle.t) : M TaggedBlockWriter.t unit :=
  match rectangles with
  | [] => ret tt
  | rect :: rest =>
      let* _ := onWriterData (writeFloat64 (Rectangle.x rect)) in
      let* _ := onWriterData (writeFloat64 (Rectangle.y rect)) in
      let* _ := onWriterData (writeFloat64 (Rectangle.w rect)) in
      let* _ := onWriterData (writeFloat64 (Rectangle.h rect)) in
      writeRectangles rest
  end.

(** [writeGlyphRange] of scene-stream.ts. *)
Definition writeGlyphRange (glyph : GlyphRange.t) : M TaggedBlockWriter.t unit :=
  let* _ :=
    match GlyphRange.start glyph with
    | Some start =>
        let* _ := writeInt 2 start in
        writeInt 3 (GlyphRange.length glyph)
    | None => ret tt
    end in
  let* _ := writeInt 4 (GlyphRange.color glyph) in
  let* _ := writeString 5 (GlyphRange.text glyph) in
  withSubblock 6
    (let* _ := onWriterData
                 (writeVaruint (Z.of_nat (length (GlyphRange.rectangles glyph)))) in
     writeRectangles (GlyphRange.rectangles glyph)).

End Encoding.

(* ===================================================================== *)
(** * scene-stream.ts: the blocks the tree builder consumes *)
(* ===================================================================== *)

(** The block types that [buildTree] passes over: no type guard of the
    builder accepts them. *)
Inductive OtherBlockType : Set :=
| MigrationInfo | SceneTextItem | SceneTombstoneItem | AuthorIds | PageInfo | SceneInfo.

(** A decoded block.  The typed blocks carry the [blockType] that their
    constructor function fixes; an [UnreadableBlock] carries the type byte
    of the envelope it was read from and none of the typed fields. *)
Inductive Block : Type :=
| SceneTreeBlock (treeId nodeId : CrdtId) (isUpdate : bool) (parentId : CrdtId)
| TreeNodeBlock (group : Group)
| SceneGroupItemBlock (parentId : CrdtId) (item : CrdtSequenceItem.t (option CrdtId))
| SceneLineItemBlock (parentId : CrdtId) (item : CrdtSequenceItem.t (option Line))
| SceneGlyphItemBlock (parentId : CrdtId) (item : CrdtSequenceItem.t (option GlyphRange.t))
| RootTextBlock (blockId : CrdtId) (value : Text)
| OtherBlock (type : OtherBlockType)
| UnreadableBlock (blockType : Z) (data : list Z).

(* ===================================================================== *)
(** * scene-tree.ts *)
(* ===================================================================== *)

Definition ROOT_ID : CrdtId := createCrdtId 0 1.

(** [rootText: Text | null]; the builder can also store [undefined] there
    (the [value] of an unreadable block of type RootText). *)
Inductive RootText : Type :=
| RootText_null
| RootText_undefined
| RootText_value (text : Text).

(** Scene tree representing the structure of a reMarkable document.
    [_nodes] is the store of the [Group] objects. *)
Record SceneTree : Type := mkSceneTree {
  _nodes : gmap string Group;
  rootText : RootText
}.

(** [new SceneTree()]: create root node. *)
Definition newSceneTree : SceneTree :=
  {| _nodes := <[crdtIdToString ROOT_ID := createGroup ROOT_ID]> ∅;
     rootText := RootText_null |}.

(** Check if a node exists. *)
Definition SceneTree_has (nodeId : CrdtId) (tree : SceneTree) : bool :=
  bool_decide (is_Some (_nodes tree !! crdtIdToString nodeId)).

(** Get a node by ID. *)
Definition SceneTree_get (nodeId : CrdtId) (tree : SceneTree) : option Group :=
  _nodes tree !! crdtIdToString nodeId.

(** Add a new node with given parent. *)
Definition addNode (nodeId parentId : CrdtId) : M SceneTree unit :=
  fun tree =>
    let key := crdtIdToString nodeId in
    match _nodes tree !! key with
    | None => (Return tt, {| _nodes := <[key := createGroup nodeId]> (_nodes tree);
                             rootText := rootText tree |})
    | Some _ => (Return tt, tree)
    end.

(** Add an item to a parent's children. *)
Definition addItem (item : CrdtSequenceItem.t SceneItem) (parentId : CrdtId)
  : M SceneTree unit :=
  fun tree =>
    match SceneTree_get parentId tree with
    | None => (Throw (Error_ParentDoesNotExist (crdtIdToString parentId)), tree)
    | Some parent =>
        match CrdtSequence_add item (children parent) with
        | (Throw e, _) => (Throw e, tree)
        | (Return _, children') =>
            (Return tt,
             {| _nodes :=
                  <[crdtIdToString parentId :=
                      {| nodeId := nodeId parent;
                         children := children';
                         label := label parent;
                         visible := visible parent;
                         anchorId := anchorId parent;
                         anchorType := anchorType parent;
                         anchorThreshold := anchorThreshold parent;
                         anchorOriginX := anchorOriginX parent |}]> (_nodes tree);
                rootText := rootText tree |})
        end
    end.

(** The six assignments of the TreeNodeBlock branch, on the stored node. *)
Definition copyRegisters (node group : Group) : Group :=
  {| nodeId := nodeId node;
     children := children node;
     label := label group;
     visible := visible group;
     anchorId := anchorId group;
     anchorType := anchorType group;
     anchorThreshold := anchorThreshold group;
     anchorOriginX := anchorOriginX group |}.

(** [block.item as CrdtSequenceItem<SceneItem>] *)
Definition asSceneItem {A : Type} (inj : A -> SceneItem)
           (item : CrdtSequenceItem.t (option A)) : CrdtSequenceItem.t SceneItem :=
  {| CrdtSequenceItem.itemId := CrdtSequenceItem.itemId item;
     CrdtSequenceItem.leftId := CrdtSequenceItem.leftId item;
     CrdtSequenceItem.rightId := CrdtSequenceItem.rightId item;
     CrdtSequenceItem.deletedLength := CrdtSequenceItem.deletedLength item;
     CrdtSequenceItem.value :=
       match CrdtSequenceItem.value item with
       | Some v => inj v
       | None => ItemNull
       end |}.

(** The body of the loop of [buildTree], for one block. *)
Definition buildTree_step (block : Block) : M SceneTree unit :=
  match block with
  | SceneTreeBlock treeId _ _ parentId => addNode treeId parentId
  | TreeNodeBlock group =>
      fun tree =>
        match SceneTree_get (nodeId group) tree with
        | None =>
            (Throw (Error_NodeDoesNotExistForTreeNodeBlock (crdtIdToString (nodeId group))),
             tree)
        | Some node =>
            (Return tt,
             {| _nodes := <[crdtIdToString (nodeId group) := copyRegisters node group]>
                            (_nodes tree);
                rootText := rootText tree |})
        end
  | SceneGroupItemBlock parentId item =>
      match CrdtSequenceItem.value item with
      | None => ret tt
      | Some nodeId =>
          fun tree =>
            match SceneTree_get nodeId tree with
            | None =>
                (Throw (Error_NodeDoesNotExistForSceneGroupItemBlock (crdtIdToString nodeId)),
                 tree)
            | Some _ =>
                addItem
                  {| CrdtSequenceItem.itemId := CrdtSequenceItem.itemId item;
                     CrdtSequenceItem.leftId := CrdtSequenceItem.leftId item;
                     CrdtSequenceItem.rightId := CrdtSequenceItem.rightId item;
                     CrdtSequenceItem.deletedLength := CrdtSequenceItem.deletedLength item;
                     CrdtSequenceItem.value := ItemGroup (crdtIdToString nodeId) |}
                  parentId tree
            end
      end
  | SceneLineItemBlock parentId item => addItem (asSceneItem ItemLine item) parentId
  | SceneGlyphItemBlock parentId item => addItem (asSceneItem ItemGlyphRange item) parentId
  | RootTextBlock _ value =>
      fun tree => (Return tt, {| _nodes := _nodes tree; rootText := RootText_value value |})
  | OtherBlock _ => ret tt
  | UnreadableBlock blockType _ =>
      (* the type guards look at [blockType] only; the typed fields they
         promise are [undefined] on an unreadable block *)
      if (blockType =? 0x01) || (blockType =? 0x02) || (blockType =? 0x04)
         || (blockType =? 0x05) || (blockType =? 0x03)
      then throw TypeError_Undefined
      else if blockType =? 0x07 then
        fun tree => (Return tt, {| _nodes := _nodes tree; rootText := RootText_undefined |})
      else ret tt
  end.

(** Build a SceneTree from blocks. *)
Fixpoint buildTree (blocks : list Block) : M SceneTree unit :=
  match blocks with
  | [] => ret tt
  | block :: rest => let* _ := buildTree_step block in buildTree rest
  end.

(* ===================================================================== *)
(** * Vocabulary of the round-trip proofs *)
(* ===================================================================== *)

(** The cursor of a stream is inside its buffer. *)
Definition inBounds (s : DataStream) : Prop := 0 <= _position s <= byteLength s.

(** The stream with the buffer [pre ++ bytes ++ post] and the cursor on the
    first byte of [bytes] ... *)
Definition streamAt (pre bytes post : list Z) : DataStream :=
  {| buffer := pre ++ bytes ++ post; _position := Z.of_nat (length pre) |}.

(** ... and the same buffer with the cursor behind [bytes]. *)
Definition streamPast (pre bytes post : list Z) : DataStream :=
  {| buffer := pre ++ bytes ++ post;
     _position := Z.of_nat (length pre) + Z.of_nat (length bytes) |}.

(** A write [c] appends [bytes]: on every stream in bounds it succeeds and
    extends what has been written by [bytes]. *)
Definition appends (c : M DataStream unit) (bytes : list Z) : Prop :=
  forall s, inBounds s ->
    exists s', c s = (Return tt, s') /\ getBytes s' = getBytes s ++ bytes /\ inBounds s'.

(** A read [c] decodes [bytes] as [a]: wherever [bytes] stands in a buffer,
    [c] started on its first byte returns [a] and stops behind its last. *)
Definition decodes {A : Type} (c : M DataStream A) (bytes : list Z) (a : A) : Prop :=
  forall pre post, c (streamAt pre bytes post) = (Return a, streamPast pre bytes post).

(** The reader on [streamAt pre bytes post] / [streamPast pre bytes post]. *)
Definition readerAt (pre bytes post : list Z) (cb : option MainBlockInfo) (warned : bool)
  : TaggedBlockReader :=
  {| data := streamAt pre bytes post; currentBlock := cb; _warnedAboutExtraData := warned |}.

Definition readerPast (pre bytes post : list Z) (cb : option MainBlockInfo) (warned : bool)
  : TaggedBlockReader :=
  {| data := streamPast pre bytes post; currentBlock := cb;
     _warnedAboutExtraData := warned |}.

(** A read [c] of the reader decodes [bytes], standing behind [pre], as [a];
    the current block and the warning flag are left alone. *)
Definition decodesAfter {A : Type} (pre : list Z) (c : M TaggedBlockReader A)
           (bytes : list Z) (a : A) : Prop :=
  forall post cb warned,
    c (readerAt pre bytes post cb warned) = (Return a, readerPast pre bytes post cb warned).

(** A write [c] of the writer appends [bytes] to the stream it writes to. *)
Definition appendsW (c : M TaggedBlockWriter.t unit) (bytes : list Z) : Prop :=
  forall w, inBounds (TaggedBlockWriter.data w) ->
    exists w',
      c w = (Return tt, w')
      /\ getBytes (TaggedBlockWriter.data w') = getBytes (TaggedBlockWriter.data w) ++ bytes
      /\ inBounds (TaggedBlockWriter.data w')
      /\ TaggedBlockWriter._inBlock w' = TaggedBlockWriter._inBlock w.

(** The bytes of a tag, of a tagged uint32 and of a sub-block with the
    content [body], as the writer lays them out. *)
Definition tagBytes (index : Z) (tagType : TagType) : list Z :=
  writeVaruint_loop 5 (16 * index + tagTypeCode tagType).

Definition intBytes (index value : Z) : list Z :=
  tagBytes index Byte4 ++ littleEndianBytes 4 value.

Definition subblockBytes (index : Z) (body : list Z) : list Z :=
  tagBytes index Length4 ++ littleEndianBytes 4 (Z.of_nat (length body)) ++ body.

(** The content of a string sub-block: length, the is-ascii byte, the bytes. *)
Definition stringBody (bytes : list Z) : list Z :=
  writeVaruint_loop 5 (Z.of_nat (length bytes)) ++ [1] ++ bytes.

(** The four float64 of a rectangle, and those of a list of rectangles. *)
Definition rectangleBytes (rect : Rectangle.t) : list Z :=
  littleEndianBytes 8 (Rectangle.x rect) ++ littleEndianBytes 8 (Rectangle.y rect)
  ++ littleEndianBytes 8 (Rectangle.w rect) ++ littleEndianBytes 8 (Rectangle.h rect).

Definition rectanglesBytes (rectangles : list Rectangle.t) : list Z :=
  flat_map rectangleBytes rectangles.

(** The fields of a rectangle are float64 bit patterns. *)
Definition isRectangle (rect : Rectangle.t) : Prop :=
  0 <= Rectangle.x rect < 2 ^ 64 /\ 0 <= Rectangle.y rect < 2 ^ 64
  /\ 0 <= Rectangle.w rect < 2 ^ 64 /\ 0 <= Rectangle.h rect < 2 ^ 64.

(** The bytes of a glyph range: the fields 4, 5 and 6, which are always
    written, behind the fields 2 and 3, which are written when there is a
    [start]. *)
Definition glyphTailBytes (utf8_encode : js_string -> list Z) (glyph : GlyphRange.t)
  : list Z :=
  intBytes 4 (GlyphRange.color glyph)
  ++ subblockBytes 5 (stringBody (utf8_encode (GlyphRange.text glyph)))
  ++ subblockBytes 6
       (writeVaruint_loop 5 (Z.of_nat (length (GlyphRange.rectangles glyph)))
        ++ rectanglesBytes (GlyphRange.rectangles glyph)).

Definition glyphBytes (utf8_encode : js_string -> list Z) (glyph : GlyphRange.t)
  : list Z :=
  match GlyphRange.start glyph with
  | Some start => intBytes 2 start ++ intBytes 3 (GlyphRange.length glyph)
  | None => []
  end ++ glyphTailBytes utf8_encode glyph.


(* ===================================================================== *)
(** * The file header, the writing of ids, and the framing of blocks *)
(* ===================================================================== *)

(** The exceptions that the functions of this part throw themselves, and
    [Exn e] for an exception [e] of the functions above that passes through
    them. *)
Inductive error : Type :=
| Exn (e : exn)
  (** [new Error(`Seek position .. out of bounds [0, ..]`)] *)
| Error_SeekOutOfBounds (position byteLength : Z)
  (** [new Error(`Wrong header at byte ..`)] *)
| Error_WrongHeader (i : Z)
  (** [new Error(`CrdtId too large: ..`)] *)
| Error_CrdtIdTooLarge (key : string)
  (** [new UnexpectedBlockError('Already in a block')] *)
| UnexpectedBlockError_AlreadyInBlock
  (** [new Error(`Expected unknown byte to be 0, got ..`)] *)
| Error_ExpectedUnknownByte (unknown : Z)
  (** [new Error('Not in a block')] *)
| Error_NotInBlock
  (** [RangeError] of [new Array(n)] for an [n] above 2^32 - 1 *)
| RangeError_InvalidArrayLength (n : Z).

Inductive result (A : Type) : Type :=
| Ok (a : A)
| Err (e : error).
Arguments Ok {A} a.
Arguments Err {A} e.

(** A method that can throw any [error]. *)
Definition MX (S A : Type) : Type := S -> result A * S.

Definition retX {S A : Type} (a : A) : MX S A := fun s => (Ok a, s).
Definition throwX {S A : Type} (e : error) : MX S A := fun s => (Err e, s).
Definition bindX {S A B : Type} (c : MX S A) (k : A -> MX S B) : MX S B :=
  fun s =>
    match c s with
    | (Ok a, s') => k a s'
    | (Err e, s') => (Err e, s')
    end.

(** A call of one of the functions above. *)
Definition lift {S A : Type} (c : M S A) : MX S A :=
  fun s =>
    match c s with
    | (Return a, s') => (Ok a, s')
    | (Throw e, s') => (Err (Exn e), s')
    end.

Notation "'let+' x ':=' c 'in' k" := (bindX c (fun x => k))
  (at level 10, x name, c at level 100, k at level 200) : js_scope.

(** Seek to position in stream. *)
Definition seek (position : Z) : MX DataStream unit :=
  fun s =>
    if (position <? 0) || (position >? byteLength s)
    then (Err (Error_SeekOutOfBounds position (byteLength s)), s)
    else (Ok tt, {| buffer := buffer s; _position := position |}).

(** Get remaining bytes in stream. *)
Definition remaining (s : DataStream) : Z := byteLength s - _position s.

(** [new TextEncoder().encode('reMarkable .lines file, version=6          ')]:
    the text is ASCII, its UTF-8 bytes are its character codes. *)
Definition HEADER_V6 : list Z :=
  map (fun c => Z.of_N (N_of_ascii c))
      (list_ascii_of_string "reMarkable .lines file, version=6          ").

(** The loop of [readHeader] from index [i] on: the first index at which
    the bytes differ.  [header[i]] is [undefined] behind the end of
    [header], which differs from every byte. *)
Fixpoint wrongHeaderByte (i : Z) (header expected : list Z) : option Z :=
  match expected with
  | [] => None
  | e :: expected' =>
      match header with
      | [] => Some i
      | h :: header' =>
          if negb (h =? e) then Some i else wrongHeaderByte (i + 1) header' expected'
      end
  end.

(** Read the file header. *)
Definition readHeader : MX DataStream unit :=
  let+ header := lift (readBytes (Z.of_nat (length HEADER_V6))) in
  match wrongHeaderByte 0 header HEADER_V6 with
  | Some i => throwX (Error_WrongHeader i)
  | None => retX tt
  end.

(** Write the file header. *)
Definition writeHeader : M DataStream unit := writeBytes HEADER_V6.

(** Write a CrdtId. *)
Definition writeCrdtId (value : CrdtId) : MX DataStream unit :=
  if (part1 value >=? 2 ^ 8) || (part2 value >=? 2 ^ 64)
  then throwX (Error_CrdtIdTooLarge (crdtIdToString value))
  else
    let+ _ := lift (writeUint8 (part1 value)) in
    lift (writeVaruint (part2 value)).

(** A call [this.data.m(...)] from a method of the reader or of the writer,
    for an [m] of this part. *)
Definition onDataX {A : Type} (c : MX DataStream A) : MX TaggedBlockReader A :=
  fun r =>
    let '(o, d) := c (data r) in
    (o, {| data := d; currentBlock := currentBlock r;
           _warnedAboutExtraData := _warnedAboutExtraData r |}).

Definition onWriterDataX {A : Type} (c : MX DataStream A) : MX TaggedBlockWriter.t A :=
  fun w =>
    let '(o, d) := c (TaggedBlockWriter.data w) in
    (o, {| TaggedBlockWriter.data := d;
           TaggedBlockWriter._inBlock := TaggedBlockWriter._inBlock w |}).

(** Write a tagged CRDT ID. *)
Definition writeId (index : Z) (value : CrdtId) : MX TaggedBlockWriter.t unit :=
  let+ _ := lift (onWriterData (writeTag index ID)) in
  onWriterDataX (writeCrdtId value).

(** [const end = writer.startBlock(blockType, minVersion, currentVersion);
    body; end();]  [startBlock] refuses to nest, sets [_inBlock] and swaps
    in a fresh scratch stream; the function it returns swaps the previous
    stream back, clears [_inBlock] and writes the eight bytes of the
    envelope and the bytes of the scratch stream.  When [body] throws, the
    scratch stream and the flag stay in place. *)
Definition withBlock {A : Type} (blockType minVersion currentVersion : Z)
           (body : MX TaggedBlockWriter.t A) : MX TaggedBlockWriter.t A :=
  fun w =>
    if TaggedBlockWriter._inBlock w then (Err UnexpectedBlockError_AlreadyInBlock, w)
    else
      let previousData := TaggedBlockWriter.data w in
      match body {| TaggedBlockWriter.data := forWriting 1024;
                    TaggedBlockWriter._inBlock := true |} with
      | (Err e, w') => (Err e, w')
      | (Ok a, w') =>
          let blockBytes := getBytes (TaggedBlockWriter.data w') in
          lift (let* _ := onWriterData (writeUint32 (Z.of_nat (length blockBytes))) in
                let* _ := onWriterData (writeUint8 0) in
                let* _ := onWriterData (writeUint8 minVersion) in
                let* _ := onWriterData (writeUint8 currentVersion) in
                let* _ := onWriterData (writeUint8 blockType) in
                let* _ := onWriterData (writeBytes blockBytes) in
                ret a)
               {| TaggedBlockWriter.data := previousData;
                  TaggedBlockWriter._inBlock := false |}
      end.

(** [TaggedBlockReader.readBlock]: read a top-level block header; [None]
    ([null]) if no more blocks to read.  The [catch] turns an EOF of any of
    the five reads into [null], with the cursor where that read left it. *)
Definition TaggedBlockReader_readBlock : MX TaggedBlockReader (option MainBlockInfo) :=
  fun r =>
    match currentBlock r with
    | Some _ => (Err UnexpectedBlockError_AlreadyInBlock, r)
    | None =>
        match (let* blockLength := onData readUint32 in
               let* unknown := onData readUint8 in
               let* minVersion := onData readUint8 in
               let* currentVersion := onData readUint8 in
               let* blockType := onData readUint8 in
               ret (blockLength, unknown, minVersion, currentVersion, blockType)) r with
        | (Throw e, r') => if isEOF e then (Ok None, r') else (Err (Exn e), r')
        | (Return (blockLength, unknown, minVersion, currentVersion, blockType), r') =>
            if negb (unknown =? 0) then (Err (Error_ExpectedUnknownByte unknown), r')
            else
              let info :=
                {| mainInfo := {| BlockInfo.offset := _position (data r');
                                  BlockInfo.size := blockLength;
                                  BlockInfo.extraData := [] |};
                   blockType := blockType;
                   minVersion := minVersion;
                   currentVersion := currentVersion |} in
              (Ok (Some info),
               {| data := data r'; currentBlock := Some info;
                  _warnedAboutExtraData := _warnedAboutExtraData r' |})
        end
    end.

(** Finish reading a block and check position. *)
Definition endBlock : MX TaggedBlockReader unit :=
  fun r =>
    match currentBlock r with
    | None => (Err Error_NotInBlock, r)
    | Some info =>
        match _checkPosition (mainInfo info) r with
        | (Throw e, r') => (Err (Exn e), r')
        | (Return _, r') =>
            (Ok tt, {| data := data r'; currentBlock := None;
                       _warnedAboutExtraData := _warnedAboutExtraData r' |})
        end
    end.

(** Return bytes remaining in current block. *)
Definition bytesRemainingInBlock : MX TaggedBlockReader Z :=
  fun r =>
    match currentBlock r with
    | None => (Err Error_NotInBlock, r)
    | Some info =>
        (Ok (BlockInfo.offset (mainInfo info) + BlockInfo.size (mainInfo info)
             - _position (data r)), r)
    end.

(** [createUnreadableBlock(error, data, info)]; the message is not kept. *)
Definition createUnreadableBlock (data : list Z) (info : MainBlockInfo) : Block :=
  UnreadableBlock (blockType info) data.

Section ReadBlock.

(** The [switch] of [readBlock]: the reader function for the content of a
    block of a known type (applied to the version where it takes one),
    [None] for a type outside [BlockType]. *)
Variable readContent : MainBlockInfo -> option (M TaggedBlockReader Block).

(** The body of the [try] of [readBlock]. *)
Definition readBlock_try (blockInfo : MainBlockInfo) : MX TaggedBlockReader Block :=
  match readContent blockInfo with
  | Some readTyped =>
      let+ block := lift readTyped in
      let+ _ := endBlock in
      retX block
  | None =>
      let+ remaining := bytesRemainingInBlock in
      let+ data := lift (onData (readBytes remaining)) in
      let+ _ := endBlock in
      retX (createUnreadableBlock data blockInfo)
  end.

(** [readBlock] of scene-stream.ts: whatever the [try] throws, the [catch]
    goes back to the start of the block and takes its bytes as they are. *)
Definition readBlock : MX TaggedBlockReader (option Block) :=
  let+ blockInfo := TaggedBlockReader_readBlock in
  match blockInfo with
  | None => retX None
  | Some blockInfo =>
      fun r =>
        match readBlock_try blockInfo r with
        | (Ok block, r') => (Ok (Some block), r')
        | (Err _, r') =>
            (let+ _ := onDataX (seek (BlockInfo.offset (mainInfo blockInfo))) in
             let+ data := lift (onData (readBytes (BlockInfo.size (mainInfo blockInfo)))) in
             let+ _ := endBlock in
             retX (Some (createUnreadableBlock data blockInfo))) r'
        end
  end.

(** The loop of [readBlocks]: the blocks that the generator yields, in
    order, and the exception that ends it if one does.  A block that is
    read moves the cursor forward by its eight header bytes at least, so
    the loop ends within as many rounds as bytes are left (lemma
    [readBlocks_loop_terminates]); [None] is a loop cut short by [fuel]. *)
Fixpoint readBlocks_loop (fuel : nat) (r : TaggedBlockReader)
  : option (list Block * option error) :=
  match fuel with
  | O => None
  | S fuel' =>
      match readBlock r with
      | (Err e, _) => Some ([], Some e)
      | (Ok None, _) => Some ([], None)
      | (Ok (Some block), r') =>
          match readBlocks_loop fuel' r' with
          | None => None
          | Some (blocks, e) => Some (block :: blocks, e)
          end
      end
  end.

(** Read all blocks from a binary buffer. *)
Definition readBlocks (bytes : list Z) : option (list Block * option error) :=
  match onDataX readHeader (newTaggedBlockReader bytes) with
  | (Err e, _) => Some ([], Some e)
  | (Ok _, r) => readBlocks_loop (S (length bytes)) r
  end.

End ReadBlock.

(** The eight bytes of a block header. *)
Definition headerBytes (size minVersion currentVersion blockType : Z) : list Z :=
  littleEndianBytes 4 size ++ [0; minVersion; currentVersion; blockType].

(** The bytes of a block, as its header delimits them in the buffer. *)
Definition blockBytes (info : MainBlockInfo) (buf : list Z) : list Z :=
  firstn (Z.to_nat (BlockInfo.size (mainInfo info)))
         (skipn (Z.to_nat (BlockInfo.offset (mainInfo info))) buf).

(* ===================================================================== *)
(** * rmc, text.ts: text items, one per character *)
(* ===================================================================== *)



(* ===================================================================== *)
(** * Properties: tag types *)
(* ===================================================================== *)

(** [tagType !== expectedType] compares the enum members. *)
Lemma TagType_eqb_eq (a b : TagType) : TagType_eqb a b = true <-> a = b.
Proof.
  unfold TagType_eqb. split.
  - destruct a, b; simpl; intros H; try reflexivity; discriminate H.
  - intros ->. apply Z.eqb_refl.
Qed.

(* ===================================================================== *)
(** * Properties: the loop of readVaruint *)
(* ===================================================================== *)

(** The bytes left at a position inside the buffer start with the byte at
    that position. *)
Lemma skipn_cons_nth (l : list Z) (n : nat) :
  (n < length l)%nat -> skipn n l = nth n l 0 :: skipn (S n) l.
Proof.
  revert l. induction n as [|n IH]; intros [|b l] H; cbn [length] in H; try lia.
  - reflexivity.
  - cbn [skipn nth]. apply IH. lia.
Qed.

(** [readUint8] hands out the first of the bytes left after the cursor, and
    throws EOF when none is left. *)
Lemma readUint8_next (s : DataStream) :
  0 <= _position s ->
  readUint8 s
  = match skipn (Z.to_nat (_position s)) (buffer s) with
    | [] => (Throw Error_EOF, s)
    | byte :: _ => (Return byte, {| buffer := buffer s; _position := _position s + 1 |})
    end.
Proof.
  intros Hpos. unfold readUint8, byteLength, getUint8.
  destruct (_position s + 1 >? Z.of_nat (length (buffer s))) eqn:E.
  - rewrite skipn_all2; [reflexivity|]. rewrite Z.gtb_ltb in E. apply Z.ltb_lt in E. lia.
  - rewrite skipn_cons_nth; [reflexivity|].
    rewrite Z.gtb_ltb in E. apply Z.ltb_ge in E. lia.
Qed.

(** One round of the loop of [readVaruint], as the source writes it: read a
    byte with [readUint8], merge it, and go on if its high bit is set. *)
Lemma readVaruint_loop_readUint8 (s : DataStream) (shift result : Z) :
  0 <= _position s ->
  readVaruint_loop (skipn (Z.to_nat (_position s)) (buffer s)) shift result (_position s)
  = match readUint8 s with
    | (Throw e, s') => (Throw e, _position s')
    | (Return byte, s') =>
        let result := Js.or result (Js.shl (Js.and byte 0x7F) shift) in
        let shift := shift + 7 in
        if Js.and byte 0x80 =? 0 then (Return result, _position s')
        else readVaruint_loop (skipn (Z.to_nat (_position s')) (buffer s'))
                              shift result (_position s')
    end.
Proof.
  intros Hpos. rewrite (readUint8_next s Hpos).
  destruct (skipn (Z.to_nat (_position s)) (buffer s)) as [|byte rest] eqn:E;
    cbn [readVaruint_loop _position buffer]; [reflexivity|].
  destruct (Js.and byte 128 =? 0); [reflexivity|].
  replace (Z.to_nat (_position s + 1)) with (S (Z.to_nat (_position s))) by lia.
  assert (Hrest : skipn (S (Z.to_nat (_position s))) (buffer s) = rest).
  { assert (Hlt : (Z.to_nat (_position s) < length (buffer s))%nat).
    { destruct (Nat.lt_ge_cases (Z.to_nat (_position s)) (length (buffer s))) as [H|H];
        [exact H|]. rewrite skipn_all2 in E by lia. discriminate E. }
    rewrite (skipn_cons_nth _ _ Hlt) in E. now injection E. }
  rewrite Hrest. reflexivity.
Qed.

(* ===================================================================== *)
(** * Properties: reading a tag *)
(* ===================================================================== *)

(** Reading never changes the bytes of the buffer. *)
Lemma readVaruint_buffer s : buffer (snd (readVaruint s)) = buffer s.
Proof.
  unfold readVaruint.
  destruct (readVaruint_loop _ 0 0 (_position s)) as [r pos]. reflexivity.
Qed.

(** The only exception of [readVaruint] is the EOF of [readUint8]. *)
Lemma readVaruint_loop_Throw rest shift result pos e pos' :
  readVaruint_loop rest shift result pos = (Throw e, pos') -> e = Error_EOF.
Proof.
  revert shift result pos.
  induction rest as [|b rest IH]; intros shift result pos H; simpl in H.
  - now injection H as <- _.
  - destruct (Js.and b 128 =? 0); [discriminate H|]. eapply IH; eassumption.
Qed.

(** Decoding a tag never changes the bytes either. *)
Lemma _readTagValues_buffer s : buffer (snd (_readTagValues s)) = buffer s.
Proof.
  unfold _readTagValues, bind.
  pose proof (readVaruint_buffer s) as Hb.
  destruct (readVaruint s) as [[x|e] s1]; simpl in *; [|exact Hb].
  destruct (tagTypeOfCode (Js.and x 15)); simpl; exact Hb.
Qed.

(** C4.  Whenever [readTag] has decoded a tag and the decoded field index or
    wire type differs from the expected one, it throws an
    [UnexpectedBlockError] and leaves the stream exactly as it was before
    the call: the cursor is back at its old position, the failed read has
    consumed nothing. *)
Theorem readTag_mismatch_restores_position :
  forall (s s1 : DataStream) (expectedIndex : Z) (expectedType : TagType)
         (index : Z) (tagType : TagType),
    _readTagValues s = (Return (index, tagType), s1) ->
    index <> expectedIndex \/ tagType <> expectedType ->
    exists e,
      readTag expectedIndex expectedType s = (Throw e, s)
      /\ isUnexpectedBlockError e = true
      /\ _position (snd (readTag expectedIndex expectedType s)) = _position s.
Proof.
  intros s s1 ei et index tagType Hread Hmis.
  pose proof (_readTagValues_buffer s) as Hbuf. rewrite Hread in Hbuf. simpl in Hbuf.
  assert (Hs : {| buffer := buffer s1; _position := _position s |} = s).
  { rewrite Hbuf. destruct s; reflexivity. }
  unfold readTag, bind, tell, setPosition, throw. rewrite Hread. simpl.
  destruct (index =? ei) eqn:Hi; simpl.
  - apply Z.eqb_eq in Hi.
    destruct (TagType_eqb tagType et) eqn:Ht; simpl.
    + apply TagType_eqb_eq in Ht. destruct Hmis; contradiction.
    + rewrite Hs. eexists. repeat split.
  - rewrite Hs. eexists. repeat split.
Qed.

(** C4 on the stream 34 05 00 00 00, whose tag has index 3 and type Byte4,
    read with the expected index 2. *)
Lemma readTag_mismatch_restores_position_witness :
  exists e,
    readTag 2 Byte4 (newDataStream [0x34; 5; 0; 0; 0])
      = (Throw e, newDataStream [0x34; 5; 0; 0; 0])
    /\ isUnexpectedBlockError e = true
    /\ _position (snd (readTag 2 Byte4 (newDataStream [0x34; 5; 0; 0; 0])))
       = _position (newDataStream [0x34; 5; 0; 0; 0]).
Proof.
  apply (readTag_mismatch_restores_position
           (newDataStream [0x34; 5; 0; 0; 0])
           {| buffer := [0x34; 5; 0; 0; 0]; _position := 1 |}
           2 Byte4 3 Byte4).
  - reflexivity.
  - left. discriminate.
Defined.

(** The converse: an [UnexpectedBlockError] out of [readTag] always comes
    from a decoded tag that does not match, and the stream is unchanged. *)
Lemma readTag_UnexpectedBlockError_inv :
  forall s s' expectedIndex expectedType e,
    readTag expectedIndex expectedType s = (Throw e, s') ->
    isUnexpectedBlockError e = true ->
    s' = s
    /\ exists index tagType s1,
         _readTagValues s = (Return (index, tagType), s1)
         /\ (index <> expectedIndex \/ tagType <> expectedType).
Proof.
  intros s s' ei et e Hr He.
  pose proof (_readTagValues_buffer s) as Hbuf.
  unfold readTag, bind, tell, setPosition, throw in Hr.
  destruct (_readTagValues s) as [[[index tagType]|e0] s1] eqn:Hread; simpl in *.
  - assert (Hs : {| buffer := buffer s1; _position := _position s |} = s).
    { rewrite Hbuf. destruct s; reflexivity. }
    destruct (index =? ei) eqn:Hi; simpl in Hr.
    + destruct (TagType_eqb tagType et) eqn:Ht; simpl in Hr; [discriminate Hr|].
      injection Hr as <- <-. split; [exact Hs|].
      exists index, tagType, s1. split; [reflexivity|]. right.
      intros ->. rewrite (proj2 (TagType_eqb_eq et et) eq_refl) in Ht. discriminate.
    + injection Hr as <- <-. split; [exact Hs|].
      exists index, tagType, s1. split; [reflexivity|]. left.
      apply Z.eqb_neq. exact Hi.
  - injection Hr as <- <-.
    (* the exception of the decoder is an EOF or a bad tag type *)
    unfold _readTagValues, bind, tell, throw in Hread.
    destruct (readVaruint s) as [[x|e1] s2] eqn:Hv; simpl in Hread.
    + destruct (tagTypeOfCode (Js.and x 15)); simpl in Hread;
        [discriminate Hread|]. injection Hread as <- <-. discriminate He.
    + injection Hread as <- <-.
      unfold readVaruint in Hv.
      destruct (readVaruint_loop _ 0 0 (_position s)) as [r pos] eqn:Hl.
      injection Hv as -> _.
      apply readVaruint_loop_Throw in Hl. rewrite Hl in He. discriminate He.
Qed.

(** A failure of the decoder itself (EOF, or a nibble that is no tag type)
    is passed on as it is, with the cursor where the decoder stopped. *)
Example readTag_bad_tag_type_keeps_cursor :
  readTag 3 Byte4 (newDataStream [0x32; 5; 0; 0; 0])
  = (Throw (Error_BadTagType 2 1), {| buffer := [0x32; 5; 0; 0; 0]; _position := 1 |}).
Proof. reflexivity. Qed.

(** [checkTag] never moves the cursor. *)
Lemma checkTag_position s expectedIndex expectedType :
  _position (snd (checkTag expectedIndex expectedType s)) = _position s.
Proof.
  unfold checkTag. destruct (_readTagValues s) as [r s']. reflexivity.
Qed.

(* ===================================================================== *)
(** * Properties: the tree builder *)
(* ===================================================================== *)

(** Building from a stream is building from its first part, then - unless
    that failed - from the rest. *)
Lemma buildTree_app (pre post : list Block) (tree : SceneTree) :
  buildTree (pre ++ post) tree
  = match buildTree pre tree with
    | (Return _, tree1) => buildTree post tree1
    | (Throw e, tree1) => (Throw e, tree1)
    end.
Proof.
  revert tree. induction pre as [|b pre IH]; intros tree; simpl.
  - reflexivity.
  - unfold bind. destruct (buildTree_step b tree) as [[[]|e] t1]; [apply IH|reflexivity].
Qed.

(** C1, as the code has it.  When a TreeNodeBlock for node N is processed,
    after blocks that were built without failure:
    - if N is not present in the tree, N is not created: building stops at
      that block with the error "Node does not exist for TreeNodeBlock: N",
      and the tree is left as the preceding blocks built it;
    - if N is present, the six LWW registers of the block are copied onto
      the stored node, which keeps its id and its children, and building
      goes on with the rest of the stream. *)
Theorem buildTree_TreeNodeBlock :
  forall (pre post : list Block) (group : Group) (tree tree1 : SceneTree),
    buildTree pre tree = (Return tt, tree1) ->
    match SceneTree_get (nodeId group) tree1 with
    | None =>
        buildTree (pre ++ TreeNodeBlock group :: post) tree
        = (Throw (Error_NodeDoesNotExistForTreeNodeBlock (crdtIdToString (nodeId group))),
           tree1)
    | Some node =>
        buildTree (pre ++ TreeNodeBlock group :: post) tree
        = buildTree post
            {| _nodes :=
                 <[crdtIdToString (nodeId group) :=
                     {| nodeId := nodeId node;
                        children := children node;
                        label := label group;
                        visible := visible group;
                        anchorId := anchorId group;
                        anchorType := anchorType group;
                        anchorThreshold := anchorThreshold group;
                        anchorOriginX := anchorOriginX group |}]> (_nodes tree1);
               rootText := rootText tree1 |}
    end.
Proof.
  intros pre post group tree tree1 Hpre.
  rewrite buildTree_app, Hpre. simpl. unfold bind. simpl.
  destruct (SceneTree_get (nodeId group) tree1) as [node|]; reflexivity.
Qed.

(** C1 on two streams read into a fresh tree: a TreeNodeBlock for (0,2)
    alone, and the same block after the SceneTreeBlock that creates (0,2). *)
Lemma buildTree_TreeNodeBlock_witness :
  (* N = (0,2) absent: the stream is only the TreeNodeBlock *)
  buildTree ([] ++ TreeNodeBlock (createGroup (createCrdtId 0 2)) :: []) newSceneTree
  = (Throw (Error_NodeDoesNotExistForTreeNodeBlock "CrdtId(0, 2)"), newSceneTree)
  /\
  (* N = (0,2) present: a SceneTreeBlock for N comes first *)
  buildTree ([SceneTreeBlock (createCrdtId 0 2) (createCrdtId 0 2) false ROOT_ID]
               ++ TreeNodeBlock
                    {| nodeId := createCrdtId 0 2;
                       children := newCrdtSequence [];
                       label := createLwwValue (createCrdtId 1 7) [76; 49];
                       visible := createLwwValue (createCrdtId 1 8) false;
                       anchorId := None; anchorType := None;
                       anchorThreshold := None; anchorOriginX := None |} :: [])
            newSceneTree
  = (Return tt,
     {| _nodes :=
          <["CrdtId(0, 2)" :=
              {| nodeId := createCrdtId 0 2;
                 children := newCrdtSequence [];
                 label := createLwwValue (createCrdtId 1 7) [76; 49];
                 visible := createLwwValue (createCrdtId 1 8) false;
                 anchorId := None; anchorType := None;
                 anchorThreshold := None; anchorOriginX := None |}]>
            (<["CrdtId(0, 2)" := createGroup (createCrdtId 0 2)]>
               (<["CrdtId(0, 1)" := createGroup ROOT_ID]> ∅));
        rootText := RootText_null |}).
Proof.
  split.
  - exact (buildTree_TreeNodeBlock [] []
             (createGroup (createCrdtId 0 2)) newSceneTree newSceneTree eq_refl).
  - exact (buildTree_TreeNodeBlock
             [SceneTreeBlock (createCrdtId 0 2) (createCrdtId 0 2) false ROOT_ID] []
             {| nodeId := createCrdtId 0 2;
                children := newCrdtSequence [];
                label := createLwwValue (createCrdtId 1 7) [76; 49];
                visible := createLwwValue (createCrdtId 1 8) false;
                anchorId := None; anchorType := None;
                anchorThreshold := None; anchorOriginX := None |}
             newSceneTree
             {| _nodes := <["CrdtId(0, 2)" := createGroup (createCrdtId 0 2)]>
                            (<["CrdtId(0, 1)" := createGroup ROOT_ID]> ∅);
                rootText := RootText_null |}
             eq_refl).
Defined.

(** C1 as the specification states it fails: on the stream that consists of
    one TreeNodeBlock for N = (0,2), read into a fresh tree (which holds the
    root (0,1) only), building fails, and N is not in the tree afterwards. *)
Lemma buildTree_TreeNodeBlock_absent_fails :
  SceneTree_has (createCrdtId 0 2) newSceneTree = false
  /\ fst (buildTree [TreeNodeBlock (createGroup (createCrdtId 0 2))] newSceneTree)
     = Throw (Error_NodeDoesNotExistForTreeNodeBlock "CrdtId(0, 2)")
  /\ SceneTree_has (createCrdtId 0 2)
       (snd (buildTree [TreeNodeBlock (createGroup (createCrdtId 0 2))] newSceneTree))
     = false.
Proof. vm_compute. repeat split. Qed.

(** [addNode] is what creates a node, and it is idempotent. *)
Lemma addNode_idempotent nodeId parentId parentId' tree :
  snd (addNode nodeId parentId' (snd (addNode nodeId parentId tree)))
  = snd (addNode nodeId parentId tree).
Proof.
  unfold addNode.
  destruct (_nodes tree !! crdtIdToString nodeId) eqn:H; simpl.
  - now rewrite H.
  - now rewrite lookup_insert_eq.
Qed.

(** A TreeNodeBlock that follows the SceneTreeBlock of its node never fails
    at the lookup: after [addNode] the node is present. *)
Lemma addNode_has nodeId parentId tree :
  SceneTree_has nodeId (snd (addNode nodeId parentId tree)) = true.
Proof.
  unfold SceneTree_has, addNode.
  destruct (_nodes tree !! crdtIdToString nodeId) eqn:H; simpl;
    apply bool_decide_eq_true.
  - rewrite H. eauto.
  - rewrite lookup_insert_eq. eauto.
Qed.

(* ===================================================================== *)
(** * Properties: 32-bit operators on the values the codec meets *)
(* ===================================================================== *)

Lemma ToInt32_small z : - 2 ^ 31 <= z < 2 ^ 31 -> Js.ToInt32 z = z.
Proof. intros H. unfold Js.ToInt32. rewrite Z.mod_small; lia. Qed.

Lemma ToInt32_high z : 2 ^ 31 <= z < 2 ^ 32 -> Js.ToInt32 z = z - 2 ^ 32.
Proof.
  intros H. unfold Js.ToInt32.
  replace (z + 2 ^ 31) with (z - 2 ^ 31 + 1 * 2 ^ 32) by lia.
  rewrite Z.mod_add by lia. rewrite Z.mod_small; lia.
Qed.

Lemma ToUint32_small z : 0 <= z < 2 ^ 32 -> Js.ToUint32 z = z.
Proof. intros H. unfold Js.ToUint32. apply Z.mod_small. lia. Qed.

Lemma ToInt32_mod_128 z : Js.ToInt32 z mod 128 = z mod 128.
Proof.
  unfold Js.ToInt32.
  pose proof (Z.div_mod (z + 2 ^ 31) (2 ^ 32) ltac:(lia)) as E.
  remember ((z + 2 ^ 31) mod 2 ^ 32) as r eqn:Hr.
  remember ((z + 2 ^ 31) / 2 ^ 32) as q eqn:Hq. clear Hr Hq.
  replace z with ((r - 2 ^ 31) + (q * 2 ^ 25) * 128) by lia.
  now rewrite Z.mod_add by lia.
Qed.

(** Bits of a number below [2^s] and of a multiple of [2^s] never meet. *)
Lemma land_low_high r k s : 0 <= s -> 0 <= r < 2 ^ s -> Z.land r (k * 2 ^ s) = 0.
Proof.
  intros Hs Hr. apply Z.bits_inj'. intros n Hn.
  rewrite Z.land_spec, Z.bits_0.
  destruct (Z_lt_le_dec n s) as [Hlt|Hge].
  - rewrite (Z.mul_pow2_bits_low k s n Hlt). apply andb_false_r.
  - rewrite <- (Z.mod_small r (2 ^ s)) by lia.
    rewrite Z.mod_pow2_bits_high by lia. reflexivity.
Qed.

Lemma lor_low_high r k s : 0 <= s -> 0 <= r < 2 ^ s -> Z.lor r (k * 2 ^ s) = r + k * 2 ^ s.
Proof.
  intros Hs Hr. pose proof (land_low_high r k s Hs Hr) as H.
  rewrite (Z.add_nocarry_lxor _ _ H). symmetry. apply Z.lxor_lor. exact H.
Qed.

(** [value & 0x7F] keeps the low seven bits of any value. *)
Lemma Js_and_0x7F v : Js.and v 0x7F = v mod 128.
Proof.
  unfold Js.and. rewrite (ToInt32_small 127) by lia.
  change 127 with (Z.ones 7). rewrite Z.land_ones by lia.
  apply ToInt32_mod_128.
Qed.

(** [value >>>= 7] on a uint32. *)
Lemma Js_shr_7 v : 0 <= v < 2 ^ 32 -> Js.shr v 7 = v / 128.
Proof.
  intros H. unfold Js.shr. rewrite (ToUint32_small v H), (ToUint32_small 7) by lia.
  change (7 mod 32) with 7. now rewrite Z.shiftr_div_pow2 by lia.
Qed.

(** [toWrite | 0x80] sets the continuation bit. *)
Lemma Js_or_0x80 t : 0 <= t < 128 -> Js.or t 0x80 = t + 128.
Proof.
  intros H. unfold Js.or. rewrite !ToInt32_small by lia.
  exact (lor_low_high t 1 7 ltac:(lia) ltac:(lia)).
Qed.

(** [byte & 0x80] tests the continuation bit of a byte. *)
Lemma Js_and_0x80_low t : 0 <= t < 128 -> Js.and t 0x80 = 0.
Proof.
  intros H. unfold Js.and. rewrite !ToInt32_small by lia.
  exact (land_low_high t 1 7 ltac:(lia) ltac:(lia)).
Qed.

Lemma Js_and_0x80_high t : 0 <= t < 128 -> Js.and (t + 128) 0x80 = 128.
Proof.
  intros H. unfold Js.and. rewrite !ToInt32_small by lia.
  assert (E : t + 128 = Z.lor t 128)
    by (symmetry; exact (lor_low_high t 1 7 ltac:(lia) ltac:(lia))).
  assert (E0 : Z.land t 128 = 0)
    by exact (land_low_high t 1 7 ltac:(lia) ltac:(lia)).
  rewrite E, Z.land_lor_distr_l, E0. reflexivity.
Qed.

(** [result |= x << shift], where [result] lies below bit [shift]: the sum,
    read as an int32. *)
Lemma Js_or_shl result x shift :
  0 <= shift < 32 -> 0 <= result < 2 ^ shift -> 0 <= x < 128 ->
  result + x * 2 ^ shift < 2 ^ 32 ->
  Js.or result (Js.shl x shift) = Js.ToInt32 (result + x * 2 ^ shift).
Proof.
  intros Hs Hr Hx Hsum.
  assert (Hp : 2 ^ shift <= 2 ^ 31) by (apply Z.pow_le_mono_r; lia).
  assert (Hp0 : 0 < 2 ^ shift) by (apply Z.pow_pos_nonneg; lia).
  unfold Js.or, Js.shl.
  rewrite (ToInt32_small x) by lia.
  rewrite (ToUint32_small shift) by lia.
  rewrite (Z.mod_small shift 32) by lia.
  rewrite Z.shiftl_mul_pow2 by lia.
  rewrite (ToInt32_small result) by lia.
  (* x * 2^shift is a multiple of 2^shift; so is its int32 reading *)
  assert (H31 : 2 ^ 31 = 2 ^ (31 - shift) * 2 ^ shift)
    by (rewrite <- Z.pow_add_r by lia; f_equal; lia).
  assert (H32 : 2 ^ 32 = 2 ^ (32 - shift) * 2 ^ shift)
    by (rewrite <- Z.pow_add_r by lia; f_equal; lia).
  destruct (Z_lt_le_dec (x * 2 ^ shift) (2 ^ 31)) as [Hlo|Hhi].
  - rewrite (ToInt32_small (x * 2 ^ shift)) by nia.
    rewrite (ToInt32_small (x * 2 ^ shift)) by nia.
    rewrite lor_low_high by lia.
    assert (x + 1 <= 2 ^ (31 - shift)) by nia.
    rewrite ToInt32_small; nia.
  - rewrite (ToInt32_high (x * 2 ^ shift)) by lia.
    rewrite (ToInt32_small (x * 2 ^ shift - 2 ^ 32)) by lia.
    rewrite (ToInt32_high (result + x * 2 ^ shift)) by lia.
    replace (x * 2 ^ shift - 2 ^ 32) with ((x - 2 ^ (32 - shift)) * 2 ^ shift) by lia.
    rewrite lor_low_high by lia. lia.
Qed.

(* ===================================================================== *)
(** * Properties: varuint *)
(* ===================================================================== *)

(** One round of the writer's loop on a uint32. *)
Lemma writeVaruint_loop_step fuel v :
  0 <= v < 2 ^ 32 ->
  writeVaruint_loop (S fuel) v
  = if v / 128 =? 0 then [v mod 128]
    else (v mod 128 + 128) :: writeVaruint_loop fuel (v / 128).
Proof.
  intros H. cbn [writeVaruint_loop].
  rewrite Js_and_0x7F, (Js_shr_7 v H).
  destruct (v / 128 =? 0); cbn [negb]; [reflexivity|].
  rewrite Js_or_0x80; [reflexivity|]. apply Z.mod_pos_bound. lia.
Qed.

(** Seven more bits. *)
Lemma pow2_7S (n : nat) : 2 ^ (7 * Z.of_nat (S n)) = 128 * 2 ^ (7 * Z.of_nat n).
Proof.
  replace (7 * Z.of_nat (S n)) with (7 + 7 * Z.of_nat n) by lia.
  rewrite Z.pow_add_r by lia. reflexivity.
Qed.

(** A value below [2^(7(n+1))] leaves the loop within [n+1] rounds: more
    fuel changes nothing. *)
Lemma writeVaruint_loop_fuel_bounded (n f1 f2 : nat) v :
  0 <= v < 2 ^ (7 * Z.of_nat (S n)) -> v < 2 ^ 32 ->
  (S n <= f1)%nat -> (S n <= f2)%nat ->
  writeVaruint_loop f1 v = writeVaruint_loop f2 v.
Proof.
  revert f1 f2 v. induction n as [|n IH]; intros f1 f2 v Hv H32 H1 H2;
    (destruct f1 as [|f1]; [lia|]); (destruct f2 as [|f2]; [lia|]);
    rewrite !writeVaruint_loop_step by lia.
  - rewrite pow2_7S in Hv. change (2 ^ (7 * Z.of_nat 0)) with 1 in Hv.
    rewrite (Z.div_small v 128) by lia. reflexivity.
  - destruct (v / 128 =? 0) eqn:E; [reflexivity|]. f_equal.
    rewrite pow2_7S in Hv.
    assert (0 < 2 ^ (7 * Z.of_nat (S n))) by (apply Z.pow_pos_nonneg; lia).
    apply IH; try lia.
    + split; [apply Z.div_pos; lia|]. apply Z.div_lt_upper_bound; lia.
    + assert (v / 128 <= v) by (apply Z.div_le_upper_bound; lia). lia.
Qed.

(** [value >>> 7] is below 2^25 whatever the number was. *)
Lemma Js_shr_7_bound v : 0 <= Js.shr v 7 < 2 ^ 25.
Proof.
  unfold Js.shr, Js.ToUint32. change (7 mod 2 ^ 32 mod 32) with 7.
  rewrite Z.shiftr_div_pow2 by lia.
  pose proof (Z.mod_pos_bound v (2 ^ 32) ltac:(lia)).
  split; [apply Z.div_pos; lia|]. apply Z.div_lt_upper_bound; lia.
Qed.

(** The five rounds that [writeVaruint] is given are enough for every
    input: the loop of the source always leaves through its [break]. *)
Lemma writeVaruint_loop_fuel (fuel : nat) v :
  (5 <= fuel)%nat -> writeVaruint_loop fuel v = writeVaruint_loop 5 v.
Proof.
  intros Hf. destruct fuel as [|fuel]; [lia|].
  change (writeVaruint_loop 5 v) with
    (if negb (Js.shr v 7 =? 0)
     then Js.or (Js.and v 127) 128 :: writeVaruint_loop 4 (Js.shr v 7)
     else [Js.and v 127]).
  change (writeVaruint_loop (S fuel) v) with
    (if negb (Js.shr v 7 =? 0)
     then Js.or (Js.and v 127) 128 :: writeVaruint_loop fuel (Js.shr v 7)
     else [Js.and v 127]).
  pose proof (Js_shr_7_bound v) as Hv'.
  destruct (Js.shr v 7 =? 0); cbn [negb]; [reflexivity|]. f_equal.
  apply (writeVaruint_loop_fuel_bounded 3); lia.
Qed.

(** The bytes the writer builds, read by the reader's loop in the middle of
    a number: [result] holds the bits below [shift], the bytes encode [v],
    and the loop returns their sum as an int32. *)
Lemma readVaruint_loop_write (fuel : nat) :
  forall v shift result pos tail,
    0 <= v < 2 ^ (7 * Z.of_nat (S fuel)) ->
    0 <= shift < 32 ->
    0 <= result < 2 ^ shift ->
    result + v * 2 ^ shift < 2 ^ 32 ->
    readVaruint_loop (writeVaruint_loop (S fuel) v ++ tail) shift result pos
    = (Return (Js.ToInt32 (result + v * 2 ^ shift)),
       pos + Z.of_nat (length (writeVaruint_loop (S fuel) v))).
Proof.
  induction fuel as [|fuel IH]; intros v shift result pos tail Hv Hs Hr Hsum;
    rewrite pow2_7S in Hv;
    assert (Hp0 : 0 < 2 ^ shift) by (apply Z.pow_pos_nonneg; lia);
    assert (H32 : v < 2 ^ 32) by nia;
    assert (Hm : 0 <= v mod 128 < 128) by (apply Z.mod_pos_bound; lia);
    assert (Hd : v = 128 * (v / 128) + v mod 128) by (apply Z.div_mod; lia);
    rewrite writeVaruint_loop_step by lia;
    destruct (v / 128 =? 0) eqn:E.
  - apply Z.eqb_eq in E.
    cbn [app readVaruint_loop length].
    rewrite Js_and_0x7F, (Z.mod_small (v mod 128) 128) by lia.
    rewrite Js_or_shl by nia.
    rewrite Js_and_0x80_low by lia.
    change (0 =? 0) with true. cbv iota.
    apply pair_equal_spec; split; [do 2 f_equal; nia | cbn [length]; lia].
  - exfalso. change (2 ^ (7 * Z.of_nat 0)) with 1 in Hv.
    rewrite Z.div_small in E by lia. discriminate E.
  - apply Z.eqb_eq in E.
    cbn [app readVaruint_loop length].
    rewrite Js_and_0x7F, (Z.mod_small (v mod 128) 128) by lia.
    rewrite Js_or_shl by nia.
    rewrite Js_and_0x80_low by lia.
    change (0 =? 0) with true. cbv iota.
    apply pair_equal_spec; split; [do 2 f_equal; nia | cbn [length]; lia].
  - apply Z.eqb_neq in E.
    assert (Hq : 1 <= v / 128).
    { assert (0 <= v / 128) by (apply Z.div_pos; lia). lia. }
    assert (Hs7 : shift + 7 < 32).
    { destruct (Z_lt_le_dec (shift + 7) 32) as [|Hge]; [assumption|exfalso].
      assert (2 ^ 32 <= 2 ^ (shift + 7)) by (apply Z.pow_le_mono_r; lia).
      rewrite Z.pow_add_r in * by lia. change (2 ^ 7) with 128 in *. nia. }
    assert (Hpow : 2 ^ (shift + 7) = 2 ^ shift * 128)
      by (rewrite Z.pow_add_r by lia; reflexivity).
    assert (Hle : 2 ^ (shift + 7) <= 2 ^ 31) by (apply Z.pow_le_mono_r; lia).
    cbn [app readVaruint_loop length].
    replace (Js.and (v mod 128 + 128) 127) with (v mod 128).
    2:{ rewrite Js_and_0x7F.
        replace (v mod 128 + 128) with (v mod 128 + 1 * 128) by lia.
        rewrite Z.mod_add by lia. rewrite Z.mod_mod by lia. reflexivity. }
    rewrite Js_or_shl by nia.
    rewrite Js_and_0x80_high by lia. change (128 =? 0) with false. cbv iota.
    rewrite ToInt32_small by nia.
    rewrite IH.
    + apply pair_equal_spec; split; [do 2 f_equal; rewrite Hpow; nia | cbn [length]; lia].
    + split; [lia|]. apply Z.div_lt_upper_bound; lia.
    + lia.
    + nia.
    + rewrite Hpow. nia.
Qed.

(** The doubling loop reaches [needed] when the fuel allows that many
    doublings ... *)
Lemma ensureCapacity_loop_enough (fuel : nat) :
  forall newSize needed,
    0 < newSize -> needed <= newSize * 2 ^ Z.of_nat fuel ->
    needed <= ensureCapacity_loop fuel newSize needed.
Proof.
  induction fuel as [|fuel IH]; intros newSize needed Hpos Hle;
    cbn [ensureCapacity_loop]; destruct (newSize <? needed) eqn:E;
    try (apply Z.ltb_ge in E; exact E).
  - apply Z.ltb_lt in E. change (2 ^ Z.of_nat 0) with 1 in Hle. lia.
  - apply IH; [lia|].
    replace (Z.of_nat (S fuel)) with (1 + Z.of_nat fuel) in Hle by lia.
    rewrite Z.pow_add_r in Hle by lia. change (2 ^ 1) with 2 in Hle. lia.
Qed.

(** ... and never shrinks the size. *)
Lemma ensureCapacity_loop_ge (fuel : nat) :
  forall newSize needed, 0 < newSize -> newSize <= ensureCapacity_loop fuel newSize needed.
Proof.
  induction fuel as [|fuel IH]; intros newSize needed Hpos;
    cbn [ensureCapacity_loop]; destruct (newSize <? needed); try lia.
  specialize (IH (newSize * 2) needed ltac:(lia)). lia.
Qed.

(** [_ensureCapacity] always succeeds, keeps the cursor and the bytes, and
    leaves room for [n] more bytes: its loop was given enough fuel. *)
Lemma _ensureCapacity_spec (n : Z) (s : DataStream) :
  let s' := snd (_ensureCapacity n s) in
  fst (_ensureCapacity n s) = Return tt
  /\ _position s' = _position s
  /\ _position s + n <= byteLength s'
  /\ exists pad, buffer s' = buffer s ++ pad.
Proof.
  unfold _ensureCapacity.
  destruct (_position s + n <=? byteLength s) eqn:E; cbn [fst snd].
  - apply Z.leb_le in E. repeat split; try assumption. exists []. now rewrite app_nil_r.
  - apply Z.leb_gt in E.
    set (start := if byteLength s =? 0 then 1024 else byteLength s).
    set (needed := _position s + n) in *.
    set (newSize := ensureCapacity_loop (Z.to_nat (Z.log2_up needed)) start needed).
    assert (Hlen : 0 <= byteLength s) by (unfold byteLength; lia).
    assert (Hstart : 0 < start /\ byteLength s <= start).
    { subst start. destruct (byteLength s =? 0) eqn:E0.
      - apply Z.eqb_eq in E0. lia.
      - apply Z.eqb_neq in E0. lia. }
    assert (Hneeded : needed <= newSize).
    { apply ensureCapacity_loop_enough; [lia|].
      rewrite Z2Nat.id by apply Z.log2_up_nonneg.
      assert (needed <= 2 ^ Z.log2_up needed).
      { destruct (Z_lt_le_dec 1 needed) as [H1|H1].
        - apply Z.log2_up_spec. exact H1.
        - assert (0 < 2 ^ Z.log2_up needed)
            by (apply Z.pow_pos_nonneg; [lia|apply Z.log2_up_nonneg]). lia. }
      nia. }
    repeat split.
    + cbn [buffer byteLength]. unfold byteLength. cbn [buffer].
      rewrite length_app, repeat_length. unfold byteLength in *. lia.
    + eexists. reflexivity.
Qed.

(** [writeBytes] appends to what has been written. *)
Lemma writeBytes_spec (bytes : list Z) (s : DataStream) :
  0 <= _position s <= byteLength s ->
  let s' := snd (writeBytes bytes s) in
  fst (writeBytes bytes s) = Return tt
  /\ getBytes s' = getBytes s ++ bytes
  /\ _position s' = _position s + Z.of_nat (length bytes)
  /\ 0 <= _position s' <= byteLength s'.
Proof.
  intros Hpos.
  destruct (_ensureCapacity_spec (Z.of_nat (length bytes)) s)
    as (Hr & Hp & Hcap & pad & Hbuf).
  unfold writeBytes, bind, storeBytes.
  destruct (_ensureCapacity (Z.of_nat (length bytes)) s) as [r s1].
  cbn [fst snd] in *. subst r. cbn [fst snd].
  unfold getBytes, byteLength in *. cbn [buffer _position].
  rewrite Hp, Hbuf in *.
  set (p := Z.to_nat (_position s)) in *.
  assert (Hple : (p <= length (buffer s))%nat) by (subst p; lia).
  assert (Hpre : firstn p (buffer s ++ pad) = firstn p (buffer s)).
  { rewrite firstn_app.
    replace (p - length (buffer s))%nat with 0%nat by lia.
    now rewrite firstn_O, app_nil_r. }
  rewrite Hpre.
  repeat split.
  - replace (Z.to_nat (_position s + Z.of_nat (length bytes)))
      with (p + length bytes)%nat by (subst p; lia).
    rewrite app_assoc, firstn_app.
    assert (Hl : length (firstn p (buffer s) ++ bytes) = (p + length bytes)%nat)
      by (rewrite length_app, length_firstn; lia).
    rewrite Hl, firstn_all2 by lia.
    replace (p + length bytes - (p + length bytes))%nat with 0%nat by lia.
    now rewrite firstn_O, app_nil_r.
  - lia.
  - rewrite !length_app, length_firstn, length_skipn, length_app in *.
    subst p. lia.
Qed.

(** Every element of the array the writer builds is a byte. *)
Lemma writeVaruint_loop_bytes (fuel : nat) :
  forall v, Forall (fun b => 0 <= b < 256) (writeVaruint_loop fuel v).
Proof.
  induction fuel as [|fuel IH]; intros v; cbn [writeVaruint_loop].
  - constructor.
  - rewrite Js_and_0x7F.
    assert (Hm : 0 <= v mod 128 < 128) by (apply Z.mod_pos_bound; lia).
    destruct (Js.shr v 7 =? 0); cbn [negb].
    + constructor; [lia|constructor].
    + constructor; [rewrite Js_or_0x80 by lia; lia|apply IH].
Qed.

(** Storing bytes in a [Uint8Array] keeps them. *)
Lemma newUint8Array_bytes (l : list Z) :
  Forall (fun b => 0 <= b < 256) l -> newUint8Array l = l.
Proof.
  unfold newUint8Array.
  induction 1 as [|b l Hb Hl IH]; cbn [map]; [reflexivity|].
  rewrite IH, Z.mod_small by lia. reflexivity.
Qed.

(** What [writeVaruint] leaves in a fresh write stream. *)
Lemma writeVaruint_getBytes (n capacity : Z) :
  0 <= n -> 0 <= capacity ->
  fst (writeVaruint n (forWriting capacity)) = Return tt
  /\ getBytes (snd (writeVaruint n (forWriting capacity))) = writeVaruint_loop 5 n.
Proof.
  intros Hn Hc. unfold writeVaruint.
  destruct (n <? 0) eqn:E; [apply Z.ltb_lt in E; lia|].
  assert (Hpos : 0 <= _position (forWriting capacity) <= byteLength (forWriting capacity)).
  { unfold forWriting, newDataStream, byteLength. cbn [_position buffer]. lia. }
  rewrite newUint8Array_bytes by apply writeVaruint_loop_bytes.
  destruct (writeBytes_spec (writeVaruint_loop 5 n) (forWriting capacity) Hpos)
    as (Hr & Hb & _).
  split; [exact Hr|]. rewrite Hb. reflexivity.
Qed.

(** Write, then read: the reader returns the int32 reading of the number. *)
Lemma varuint_write_read (n capacity : Z) :
  0 <= n < 2 ^ 32 -> 0 <= capacity ->
  fst (readVaruint (newDataStream (getBytes (snd (writeVaruint n (forWriting capacity))))))
  = Return (Js.ToInt32 n).
Proof.
  intros Hn Hc.
  destruct (writeVaruint_getBytes n capacity ltac:(lia) Hc) as [_ ->].
  unfold readVaruint, newDataStream. cbn [_position buffer].
  change (skipn (Z.to_nat 0) (writeVaruint_loop 5 n)) with (writeVaruint_loop 5 n).
  rewrite <- (app_nil_r (writeVaruint_loop 5 n)) at 1.
  rewrite (readVaruint_loop_write 4 n 0 0 0 []).
  - cbn [fst]. do 2 f_equal. lia.
  - change (2 ^ (7 * Z.of_nat 5)) with (2 ^ 35). lia.
  - lia.
  - change (2 ^ 0) with 1. lia.
  - change (2 ^ 0) with 1. lia.
Qed.


(** X2.  ... and from 2^31 on the reader returns the number minus 2^32. *)
Lemma varuint_roundtrip_from_2_31 (n capacity : Z) :
  2 ^ 31 <= n < 2 ^ 32 -> 0 <= capacity ->
  fst (readVaruint (newDataStream (getBytes (snd (writeVaruint n (forWriting capacity))))))
  = Return (n - 2 ^ 32).
Proof.
  intros Hn Hc. rewrite varuint_write_read by lia.
  now rewrite ToInt32_high by lia.
Qed.



(** C3 at n = 2^31 = 2147483648, inside the range [0, 2^32 - 1]:
    the writer emits the five bytes 80 80 80 80 08 (the least number, see
    [writeVaruint_minimal]); the reader's [result |= ... << 28] is a signed
    32-bit operation and returns -2147483648, not n. *)
Theorem varuint_roundtrip_2147483648 :
  getBytes (snd (writeVaruint 2147483648 (forWriting 1024))) = [128; 128; 128; 128; 8]
  /\ fst (readVaruint (newDataStream [128; 128; 128; 128; 8])) = Return (-2147483648)
  /\ fst (readVaruint
            (newDataStream (getBytes (snd (writeVaruint 2147483648 (forWriting 1024))))))
     <> Return 2147483648.
Proof. vm_compute. repeat split. discriminate. Qed.

(* ===================================================================== *)
(** * Properties: the topological sort *)
(* ===================================================================== *)

(** [s.has(k)] is membership. *)
Lemma JsSet_has_In (k : string) (s : JsSet.t) : JsSet.has k s = true <-> In k s.
Proof.
  unfold JsSet.has. rewrite existsb_exists. split.
  - intros (x & Hin & Heq). apply String.eqb_eq in Heq. now subst.
  - intros Hin. exists k. split; [exact Hin|apply String.eqb_refl].
Qed.

(** [s.add(k)] adds [k] and nothing else. *)
Lemma JsSet_add_In (k x : string) (s : JsSet.t) :
  In x (JsSet.add k s) <-> x = k \/ In x s.
Proof.
  unfold JsSet.add. destruct (JsSet.has k s) eqn:E.
  - apply JsSet_has_In in E. split; [auto|]. intros [->|H]; assumption.
  - rewrite in_app_iff. cbn [In]. split.
    + intros [H|[H|[]]]; auto.
    + intros [->|H]; auto.
Qed.

(** The ready set holds keys of [data] only. *)
Lemma toposort_nextItems_In (data : JsMap.t JsSet.t) (k : string) :
  In k (toposort_nextItems data) -> In k (map fst data).
Proof.
  unfold toposort_nextItems.
  assert (G : forall acc, In k (fold_left
               (fun nextItems '(item, deps) =>
                  if JsSet.size deps =? 0 then JsSet.add item nextItems else nextItems)
               data acc) -> In k acc \/ In k (map fst data)).
  { induction data as [|[item deps] data IH]; intros acc H; cbn [fold_left map] in *.
    - left. exact H.
    - apply IH in H. destruct H as [H|H]; [|right; right; exact H].
      destruct (JsSet.size deps =? 0).
      + apply JsSet_add_In in H. destruct H as [->|H]; [right; left; reflexivity|left; exact H].
      + left. exact H. }
  intros H. apply G in H. destruct H as [[]|H]. exact H.
Qed.

(** [m.set(k, v)] adds at most one entry. *)
Lemma JsMap_set_length {V : Type} (k : string) (v : V) (m : JsMap.t V) :
  (length (JsMap.set k v m) <= S (length m))%nat.
Proof.
  induction m as [|[k' v'] m IH]; cbn [JsMap.set length]; [lia|].
  destruct (String.eqb k k'); cbn [length]; lia.
Qed.

(** Removing a layer leaves at most the entries whose key is not in it. *)
Lemma toposort_remove_length (nextItems : JsSet.t) (data : JsMap.t JsSet.t) :
  (length (toposort_remove nextItems data)
   <= length (List.filter (fun e => negb (JsSet.has (fst e) nextItems)) data))%nat.
Proof.
  unfold toposort_remove.
  assert (G : forall acc,
             (length (fold_left
                (fun newData '(item, deps) =>
                   if negb (JsSet.has item nextItems) then
                     JsMap.set item (List.filter (fun dep => negb (JsSet.has dep nextItems)) deps) newData
                   else newData) data acc)
              <= length acc
                 + length (List.filter (fun e => negb (JsSet.has (fst e) nextItems)) data))%nat).
  { induction data as [|[item deps] data IH]; intros acc; cbn [fold_left List.filter fst length].
    - lia.
    - destruct (negb (JsSet.has item nextItems)); cbn [length].
      + pose proof (JsMap_set_length item
                      (List.filter (fun dep => negb (JsSet.has dep nextItems)) deps) acc).
        specialize (IH (JsMap.set item
                          (List.filter (fun dep => negb (JsSet.has dep nextItems)) deps) acc)).
        lia.
      + apply IH. }
  exact (G []).
Qed.

(** A filter that drops a member makes the list shorter. *)
Lemma filter_length_lt {A : Type} (f : A -> bool) (l : list A) (a : A) :
  In a l -> f a = false -> (length (List.filter f l) < length l)%nat.
Proof.
  induction l as [|b l IH]; intros Hin Hf; [destruct Hin|].
  pose proof (filter_length_le f l) as Hle.
  cbn [List.filter length]. destruct Hin as [->|Hin].
  - rewrite Hf. lia.
  - specialize (IH Hin Hf). destruct (f b); cbn [length]; lia.
Qed.

(** A round that goes on makes [data] strictly smaller. *)
Lemma toposort_remove_smaller (data : JsMap.t JsSet.t) :
  JsSet.size (toposort_nextItems data) <> 0 ->
  (length (toposort_remove (toposort_nextItems data) data) < length data)%nat.
Proof.
  intros Hne.
  destruct (toposort_nextItems data) as [|k rest] eqn:E.
  { exfalso. apply Hne. reflexivity. }
  assert (Hin : In k (toposort_nextItems data)) by (rewrite E; left; reflexivity).
  apply toposort_nextItems_In in Hin. apply in_map_iff in Hin.
  destruct Hin as ([k' deps] & Hk & Hin). cbn [fst] in Hk. subst k'.
  eapply Nat.le_lt_trans; [apply toposort_remove_length|].
  apply (filter_length_lt _ data (k, deps) Hin).
  cbn [fst]. apply negb_false_iff. apply JsSet_has_In. left. reflexivity.
Qed.

Section ToposortTermination.

Context {T : Type}.

(** With more fuel than [data] has keys the loop never runs out of it. *)
Lemma toposort_loop_terminates (fuel : nat) :
  forall (itemDict : JsMap.t (CrdtSequenceItem.t T)) data result,
    (length data < fuel)%nat ->
    toposort_loop fuel itemDict data result <> None.
Proof.
  induction fuel as [|fuel IH]; intros itemDict data result Hlt; [lia|].
  cbn [toposort_loop].
  destruct ((JsSet.size (toposort_nextItems data) =? 1)
            && JsSet.has "__end" (toposort_nextItems data)); [discriminate|].
  destruct (JsSet.size (toposort_nextItems data) =? 0) eqn:E; [discriminate|].
  apply Z.eqb_neq in E. apply IH.
  pose proof (toposort_remove_smaller data E). lia.
Qed.

(** X14.  [toposortItems] always leaves its loop: it returns the sorted ids or
    throws "cyclic dependency". *)
Theorem toposortItems_terminates (items : list (CrdtSequenceItem.t T)) :
  exists r, toposortItems items = Some r.
Proof.
  destruct (toposortItems items) as [r|] eqn:E; [eauto|exfalso].
  unfold toposortItems in E. destruct items as [|item items]; [discriminate|].
  destruct (toposort_data (item :: items)) as [itemDict data].
  revert E. apply toposort_loop_terminates. lia.
Qed.

End ToposortTermination.

(** Insertion keeps the elements ... *)
Lemma sort_insert_Permutation (k : string) (l : list string) :
  Permutation (k :: l) (sort_insert k l).
Proof.
  induction l as [|k' l IH]; cbn [sort_insert]; [reflexivity|].
  destruct (String.leb k k'); [reflexivity|].
  rewrite perm_swap. now apply perm_skip.
Qed.

(** ... so sorting permutes the array ... *)
Lemma arraySort_Permutation (l : list string) : Permutation l (arraySort l).
Proof.
  induction l as [|k l IH]; cbn [arraySort fold_right]; [reflexivity|].
  rewrite <- sort_insert_Permutation. now apply perm_skip.
Qed.

(** ... and insertion into a sorted array keeps it sorted ... *)
Lemma sort_insert_Sorted (k : string) (l : list string) :
  Sorted (fun a b => String.leb a b = true) l ->
  Sorted (fun a b => String.leb a b = true) (sort_insert k l).
Proof.
  induction 1 as [|k' l Hs IH Hhd]; cbn [sort_insert].
  - repeat constructor.
  - destruct (String.leb k k') eqn:E.
    + constructor; [constructor; assumption|constructor; exact E].
    + constructor; [exact IH|].
      assert (Hk : String.leb k' k = true).
      { destruct (String.leb_total k k') as [H|H]; [congruence|exact H]. }
      destruct Hhd as [|k'' l Hle]; cbn [sort_insert].
      * constructor. exact Hk.
      * destruct (String.leb k k''); constructor; assumption.
Qed.

(** ... so the sorted array is in ascending string order. *)
Lemma arraySort_Sorted (l : list string) :
  Sorted (fun a b => String.leb a b = true) (arraySort l).
Proof.
  induction l as [|k l IH]; cbn [arraySort fold_right]; [constructor|].
  apply sort_insert_Sorted. exact IH.
Qed.

(** What the code does inside one layer: the ready keys that are items are
    pushed in ascending order of their strings ["CrdtId(p1, p2)"], compared
    character by character. *)
Lemma toposort_layer_string_order {T : Type}
      (itemDict : JsMap.t (CrdtSequenceItem.t T)) (nextItems : JsSet.t) :
  Sorted (fun a b => String.leb a b = true) (toposort_sortedItems itemDict nextItems)
  /\ Permutation (List.filter (fun k => JsMap.has k itemDict) nextItems)
                 (toposort_sortedItems itemDict nextItems).
Proof.
  split; [apply arraySort_Sorted|apply arraySort_Permutation].
Qed.

(** The string order is not the numeric order of the ids. *)
Example crdtIdToString_order_is_not_numeric :
  crdtIdCompare (createCrdtId 1 5) (createCrdtId 1 10) = -1
  /\ String.ltb (crdtIdToString (createCrdtId 1 10)) (crdtIdToString (createCrdtId 1 5)) = true.
Proof. split; reflexivity. Qed.

(** C2 on the sequence of two items A = (1,5) and B = (1,10), both with
    left and right at the end marker.  A is below B in the numeric
    lexicographic order of [crdtIdCompare].  The first layer is the start
    sentinel alone; A and B become ready together in the second layer; and
    the linearisation puts B before A, because the layer is sorted by the
    strings [CrdtId(1, 10)] and [CrdtId(1, 5)], and the character 1 is below
    the character 5. *)
Theorem toposortItems_same_layer_string_order :
  let A := createCrdtSequenceItem (createCrdtId 1 5) END_MARKER END_MARKER 0 tt in
  let B := createCrdtSequenceItem (createCrdtId 1 10) END_MARKER END_MARKER 0 tt in
  let data := snd (toposort_data [A; B]) in
  crdtIdCompare (CrdtSequenceItem.itemId A) (CrdtSequenceItem.itemId B) = -1
  /\ toposort_nextItems data = ["__start"]
  /\ toposort_nextItems (toposort_remove (toposort_nextItems data) data)
     = ["CrdtId(1, 5)"; "CrdtId(1, 10)"]
  /\ toposortItems [A; B] = Some (Return [createCrdtId 1 10; createCrdtId 1 5])
  /\ CrdtSequence_keys (newCrdtSequence [A; B])
     = Some (Return [createCrdtId 1 10; createCrdtId 1 5]).
Proof. vm_compute. repeat split. Qed.

(* ===================================================================== *)
(** * Properties: reading a glyph range *)
(* ===================================================================== *)

Section GlyphRangeProps.

Variable utf8_decode : list Z -> js_string.

(** How [readGlyphRange] sets [start] and [length]: [start] is what the
    optional read at index 2 returned; [length] is the value read at
    index 3 when there is one and it is not zero, and [text.length]
    otherwise. *)
Lemma readGlyphRange_length (r r' : TaggedBlockReader) (g : GlyphRange.t) :
  readGlyphRange utf8_decode r = (Return g, r') ->
  exists start lengthField r1 r2,
    readIntOptional 2 None r = (Return start, r1)
    /\ readIntOptional 3 None r1 = (Return lengthField, r2)
    /\ GlyphRange.start g = start
    /\ GlyphRange.length g
       = match lengthField with
         | Some v => if v =? 0 then Z.of_nat (length (GlyphRange.text g)) else v
         | None => Z.of_nat (length (GlyphRange.text g))
         end.
Proof.
  unfold readGlyphRange, bind, ret. intros H.
  destruct (readIntOptional 2 None r) as [[start|e] r1] eqn:E2; [|discriminate H].
  destruct (readIntOptional 3 None r1) as [[lengthField|e] r2] eqn:E3; [|discriminate H].
  destruct (readInt 4 r2) as [[colorId|e] r3]; [|discriminate H].
  destruct (readString utf8_decode 5 r3) as [[text|e] r4]; [|discriminate H].
  destruct (readSubblock 6 r4) as [[subblock|e] r5]; [|discriminate H].
  destruct (onData readVaruint r5) as [[numRects|e] r6]; [|discriminate H].
  destruct (readRectangles (Z.to_nat numRects) [] r6) as [[rectangles|e] r7];
    [|discriminate H].
  destruct (endSubblock subblock r7) as [[sb|e] r8]; [|discriminate H].
  injection H as <- <-.
  exists start, lengthField, r1, r2.
  split; [reflexivity|]. split; [exact E3|]. split; [reflexivity|].
  cbn [GlyphRange.length GlyphRange.text createGlyphRange].
  destruct lengthField as [v|]; reflexivity.
Qed.

(** A decoded [length] of 0 is only possible when the text is empty. *)
Lemma readGlyphRange_length_zero (r r' : TaggedBlockReader) (g : GlyphRange.t) :
  readGlyphRange utf8_decode r = (Return g, r') ->
  GlyphRange.length g = 0 -> GlyphRange.text g = [].
Proof.
  intros H H0. apply readGlyphRange_length in H.
  destruct H as (start & lengthField & r1 & r2 & _ & _ & _ & Hlen).
  rewrite H0 in Hlen.
  assert (Hl : Z.of_nat (length (GlyphRange.text g)) = 0).
  { destruct lengthField as [v|]; [|lia].
    destruct (v =? 0) eqn:E; [lia|]. apply Z.eqb_neq in E. lia. }
  destruct (GlyphRange.text g); [reflexivity|cbn [length] in Hl; lia].
Qed.

End GlyphRangeProps.

(** C5 on the glyph range with start 5, length 0, color 9, the text of the
    two letters a and b, and no rectangle.  [writeGlyphRange] writes the
    start field and the length field, with the encoded length 0; on these
    bytes [readGlyphRange] returns the length 2, the length of the text,
    because a zero [length] is replaced by [text.length].  The encoder and
    the decoder are any that map the two ASCII letters to their two bytes
    and back, as UTF-8 does. *)
Theorem readGlyphRange_encoded_zero_length :
  forall (utf8_encode : js_string -> list Z) (utf8_decode : list Z -> js_string),
    utf8_encode [97; 98] = [97; 98] ->
    utf8_decode [97; 98] = [97; 98] ->
    let glyph := createGlyphRange (Some 5) 0 [97; 98] 9 [] in
    let written :=
      getBytes (TaggedBlockWriter.data
                  (snd (writeGlyphRange utf8_encode glyph newTaggedBlockWriter))) in
    written = [0x24; 5; 0; 0; 0;
               0x34; 0; 0; 0; 0;
               0x44; 9; 0; 0; 0;
               0x5C; 4; 0; 0; 0; 2; 1; 97; 98;
               0x6C; 1; 0; 0; 0; 0]
    /\ fst (readGlyphRange utf8_decode (newTaggedBlockReader written))
       = Return (createGlyphRange (Some 5) 2 [97; 98] 9 []).
Proof.
  intros utf8_encode utf8_decode Henc Hdec glyph written.
  assert (Hw : written = [0x24; 5; 0; 0; 0;
                          0x34; 0; 0; 0; 0;
                          0x44; 9; 0; 0; 0;
                          0x5C; 4; 0; 0; 0; 2; 1; 97; 98;
                          0x6C; 1; 0; 0; 0; 0]).
  { subst written glyph. unfold writeGlyphRange, writeString.
    cbn [GlyphRange.start GlyphRange.length GlyphRange.text GlyphRange.color
         GlyphRange.rectangles createGlyphRange].
    rewrite Henc. vm_compute. reflexivity. }
  split; [exact Hw|]. rewrite Hw.
  vm_compute. rewrite Hdec. reflexivity.
Qed.

(** C5 with the identity on ASCII bytes for the encoder and the decoder. *)
Lemma readGlyphRange_encoded_zero_length_witness :
  let written :=
    getBytes (TaggedBlockWriter.data
                (snd (writeGlyphRange (fun s => s)
                        (createGlyphRange (Some 5) 0 [97; 98] 9 [])
                        newTaggedBlockWriter))) in
  written = [0x24; 5; 0; 0; 0;
             0x34; 0; 0; 0; 0;
             0x44; 9; 0; 0; 0;
             0x5C; 4; 0; 0; 0; 2; 1; 97; 98;
             0x6C; 1; 0; 0; 0; 0]
  /\ fst (readGlyphRange (fun bytes => bytes) (newTaggedBlockReader written))
     = Return (createGlyphRange (Some 5) 2 [97; 98] 9 []).
Proof.
  exact (readGlyphRange_encoded_zero_length (fun s => s) (fun bytes => bytes)
           eq_refl eq_refl).
Defined.

(** With the start field and a length that is not zero the decoded length is
    the encoded one; without the start field the writer writes no length and
    the decoded length is the length of the text. *)
Example readGlyphRange_other_lengths :
  fst (readGlyphRange (fun bytes => bytes)
         (newTaggedBlockReader
            (getBytes (TaggedBlockWriter.data
               (snd (writeGlyphRange (fun s => s)
                       (createGlyphRange (Some 5) 7 [97; 98] 9 [])
                       newTaggedBlockWriter))))))
  = Return (createGlyphRange (Some 5) 7 [97; 98] 9 [])
  /\ fst (readGlyphRange (fun bytes => bytes)
            (newTaggedBlockReader
               (getBytes (TaggedBlockWriter.data
                  (snd (writeGlyphRange (fun s => s)
                          (createGlyphRange None 7 [97; 98] 9 [])
                          newTaggedBlockWriter))))))
     = Return (createGlyphRange None 2 [97; 98] 9 []).
Proof. vm_compute. split; reflexivity. Qed.

(** The reader takes the length field by itself: bytes that carry field 3
    without field 2 decode to no start and the encoded length. *)
Example readGlyphRange_length_without_start :
  fst (readGlyphRange (fun bytes => bytes)
         (newTaggedBlockReader
            [0x34; 7; 0; 0; 0;
             0x44; 9; 0; 0; 0;
             0x5C; 4; 0; 0; 0; 2; 1; 97; 98;
             0x6C; 1; 0; 0; 0; 0]))
  = Return (createGlyphRange None 7 [97; 98] 9 []).
Proof. vm_compute. reflexivity. Qed.

(* ===================================================================== *)
(** * Further properties: streams, tags, optional values, sequences, the tree *)
(* ===================================================================== *)





(** 2^32 - 1 is read back as -1. *)
Lemma varuint_roundtrip_from_2_31_witness :
  fst (readVaruint
         (newDataStream (getBytes (snd (writeVaruint 4294967295 (forWriting 1024))))))
  = Return (4294967295 - 2 ^ 32).
Proof. apply (varuint_roundtrip_from_2_31 4294967295 1024); lia. Defined.


(** X5.  [writeBytes] appends: on a stream whose cursor is inside its buffer it
    succeeds, what has been written is what had been written followed by the
    new bytes, the buffer has not shrunk, and the cursor is inside it again. *)
Theorem writeBytes_appends (bytes : list Z) (s : DataStream) :
  0 <= _position s <= byteLength s ->
  exists s',
    writeBytes bytes s = (Return tt, s')
    /\ getBytes s' = getBytes s ++ bytes
    /\ _position s' = _position s + Z.of_nat (length bytes)
    /\ 0 <= _position s' <= byteLength s'
    /\ byteLength s <= byteLength s'.
Proof.
  intros Hpos.
  destruct (writeBytes_spec bytes s Hpos) as (Hr & Hb & Hp & Hv).
  destruct (_ensureCapacity_spec (Z.of_nat (length bytes)) s)
    as (_ & Hp1 & Hcap & pad & Hbuf).
  exists (snd (writeBytes bytes s)).
  split; [now destruct (writeBytes bytes s); cbn [fst snd] in *; subst|].
  repeat split; try assumption; try lia.
  revert Hcap. unfold writeBytes, bind, storeBytes.
  destruct (_ensureCapacity (Z.of_nat (length bytes)) s) as [[[]|e] s1];
    cbn [fst snd] in *; unfold byteLength; cbn [buffer]; intros Hcap.
  - rewrite Hp1, Hbuf in *.
    rewrite !length_app, length_firstn, length_skipn, length_app in *. lia.
  - rewrite Hbuf, length_app. lia.
Qed.

(** Two writes into a stream of capacity 2, which has to grow. *)
Lemma writeBytes_appends_witness :
  exists s',
    writeBytes [3; 4; 5] (snd (writeBytes [1; 2] (forWriting 2))) = (Return tt, s')
    /\ getBytes s' = getBytes (snd (writeBytes [1; 2] (forWriting 2))) ++ [3; 4; 5]
    /\ _position s'
       = _position (snd (writeBytes [1; 2] (forWriting 2))) + Z.of_nat (length [3; 4; 5])
    /\ 0 <= _position s' <= byteLength s'
    /\ byteLength (snd (writeBytes [1; 2] (forWriting 2))) <= byteLength s'.
Proof.
  apply (writeBytes_appends [3; 4; 5] (snd (writeBytes [1; 2] (forWriting 2)))).
  vm_compute. split; discriminate.
Defined.

(** The refused tag 34 with the expected index 2. *)
Lemma readTag_UnexpectedBlockError_inv_witness :
  newDataStream [0x34; 5; 0; 0; 0] = newDataStream [0x34; 5; 0; 0; 0]
  /\ exists index tagType s1,
       _readTagValues (newDataStream [0x34; 5; 0; 0; 0]) = (Return (index, tagType), s1)
       /\ (index <> 2 \/ tagType <> Byte4).
Proof.
  apply (readTag_UnexpectedBlockError_inv
           (newDataStream [0x34; 5; 0; 0; 0]) (newDataStream [0x34; 5; 0; 0; 0])
           2 Byte4 (UnexpectedBlockError_Index 2 3 0)); reflexivity.
Defined.

(** A successful [readVaruint] has moved the cursor forward, inside the bytes
    that were left. *)
Lemma readVaruint_loop_position rest shift result pos v pos' :
  readVaruint_loop rest shift result pos = (Return v, pos') ->
  pos < pos' <= pos + Z.of_nat (length rest).
Proof.
  revert shift result pos.
  induction rest as [|b rest IH]; intros shift result pos H; cbn [readVaruint_loop] in H.
  - discriminate H.
  - cbn [length]. destruct (Js.and b 128 =? 0).
    + injection H as _ <-. lia.
    + apply IH in H. lia.
Qed.

(** X7.  A [readTag] that succeeds returns the expected index and type, leaves
    the bytes alone and has moved the cursor forward by at least one byte,
    never past the end of the buffer. *)
Theorem readTag_success :
  forall (s s' : DataStream) (expectedIndex : Z) (expectedType : TagType)
         (index : Z) (tagType : TagType),
    0 <= _position s ->
    readTag expectedIndex expectedType s = (Return (index, tagType), s') ->
    index = expectedIndex /\ tagType = expectedType
    /\ buffer s' = buffer s
    /\ _position s < _position s' <= byteLength s.
Proof.
  intros s s' ei et index tagType Hpos H.
  unfold readTag, bind, tell, setPosition, throw, ret in H.
  destruct (_readTagValues s) as [[[i t]|e] s1] eqn:Hread; [|discriminate H].
  destruct (i =? ei) eqn:Hi; cbn [negb] in H; [|discriminate H].
  destruct (TagType_eqb t et) eqn:Ht; cbn [negb] in H; [|discriminate H].
  injection H as <- <- <-.
  apply Z.eqb_eq in Hi. apply TagType_eqb_eq in Ht.
  split; [exact Hi|]. split; [exact Ht|].
  unfold _readTagValues, bind, tell, throw, ret in Hread.
  destruct (readVaruint s) as [[x|e] s2] eqn:Hv; [|discriminate Hread].
  destruct (tagTypeOfCode (Js.and x 15)); [|discriminate Hread].
  injection Hread as _ _ <-.
  unfold readVaruint in Hv.
  destruct (readVaruint_loop _ 0 0 (_position s)) as [r pos] eqn:Hl.
  injection Hv as -> <-. cbn [buffer _position].
  split; [reflexivity|].
  apply readVaruint_loop_position in Hl.
  rewrite length_skipn in Hl. unfold byteLength. lia.
Qed.

(** The accepted tag 34: index 3, type Byte4. *)
Lemma readTag_success_witness :
  3 = 3 /\ Byte4 = Byte4
  /\ buffer {| buffer := [0x34; 5; 0; 0; 0]; _position := 1 |}
     = buffer (newDataStream [0x34; 5; 0; 0; 0])
  /\ _position (newDataStream [0x34; 5; 0; 0; 0])
     < _position {| buffer := [0x34; 5; 0; 0; 0]; _position := 1 |}
     <= byteLength (newDataStream [0x34; 5; 0; 0; 0]).
Proof.
  apply (readTag_success (newDataStream [0x34; 5; 0; 0; 0])
           {| buffer := [0x34; 5; 0; 0; 0]; _position := 1 |} 3 Byte4 3 Byte4).
  - cbn. lia.
  - reflexivity.
Defined.

(** X6.  [checkTag] leaves the stream as it is and answers what [readTag] would
    do: true exactly when [readTag] with the same arguments succeeds. *)
Theorem checkTag_agrees_with_readTag :
  forall (s : DataStream) (expectedIndex : Z) (expectedType : TagType),
    exists b,
      checkTag expectedIndex expectedType s = (Return b, s)
      /\ (b = true <->
          exists s', readTag expectedIndex expectedType s
                     = (Return (expectedIndex, expectedType), s')).
Proof.
  intros s ei et.
  pose proof (_readTagValues_buffer s) as Hbuf.
  unfold checkTag, readTag, bind, tell, setPosition, throw, ret.
  destruct (_readTagValues s) as [[[i t]|e] s1] eqn:Hread; cbn [snd] in Hbuf.
  - assert (Hs : {| buffer := buffer s1; _position := _position s |} = s).
    { rewrite Hbuf. destruct s; reflexivity. }
    rewrite Hs. eexists. split; [reflexivity|].
    destruct (i =? ei) eqn:Hi; cbn [negb andb].
    + apply Z.eqb_eq in Hi. subst i.
      destruct (TagType_eqb t et) eqn:Ht; cbn [negb].
      * apply TagType_eqb_eq in Ht. subst t. split; [eauto|reflexivity].
      * split; [discriminate|]. intros [s' H]. discriminate H.
    + split; [discriminate|]. intros [s' H]. discriminate H.
  - assert (Hs : {| buffer := buffer s1; _position := _position s |} = s).
    { rewrite Hbuf. destruct s; reflexivity. }
    rewrite Hs. eexists. split; [reflexivity|].
    split; [discriminate|]. intros [s' H]. discriminate H.
Qed.

(** [readTag] in terms of the tag decoder: the decoder's failure is passed
    on; a decoded tag that does not match is refused with the stream put
    back; a matching tag is returned with the stream after it. *)
Lemma readTag_cases (s : DataStream) (expectedIndex : Z) (expectedType : TagType) :
  readTag expectedIndex expectedType s
  = match _readTagValues s with
    | (Throw e, s1) => (Throw e, s1)
    | (Return (index, tagType), s1) =>
        if negb (index =? expectedIndex) then
          (Throw (UnexpectedBlockError_Index expectedIndex index (_position s)), s)
        else if negb (TagType_eqb tagType expectedType) then
          (Throw (UnexpectedBlockError_TagType expectedType tagType (_position s)), s)
        else (Return (index, tagType), s1)
    end.
Proof.
  pose proof (_readTagValues_buffer s) as Hbuf.
  unfold readTag, bind, tell, setPosition, throw, ret.
  destruct (_readTagValues s) as [[[i t]|e] s1]; cbn [snd] in Hbuf; [|reflexivity].
  assert (Hs : {| buffer := buffer s1; _position := _position s |} = s).
  { rewrite Hbuf. destruct s; reflexivity. }
  destruct (negb (i =? expectedIndex)); [now rewrite Hs|].
  destruct (negb (TagType_eqb t expectedType)); [now rewrite Hs|reflexivity].
Qed.

(** A reader is its three fields. *)
Lemma TaggedBlockReader_eta (r : TaggedBlockReader) :
  {| data := data r; currentBlock := currentBlock r;
     _warnedAboutExtraData := _warnedAboutExtraData r |} = r.
Proof. destruct r; reflexivity. Qed.

(** X8.  When the next tag decodes but is not the one asked for, the optional
    read returns the default and leaves the reader exactly as it was. *)
Theorem readIntOptional_tag_mismatch :
  forall (r : TaggedBlockReader) (index : Z) (defaultValue : option Z)
         (i : Z) (t : TagType) (s1 : DataStream),
    _readTagValues (data r) = (Return (i, t), s1) ->
    i <> index \/ t <> Byte4 ->
    readIntOptional index defaultValue r = (Return defaultValue, r).
Proof.
  intros r index d i t s1 Hread Hmis.
  unfold readIntOptional, _readOptional, readInt, bind, onData.
  rewrite readTag_cases, Hread.
  destruct (i =? index) eqn:Hi; cbn [negb].
  - apply Z.eqb_eq in Hi.
    destruct (TagType_eqb t Byte4) eqn:Ht; cbn [negb].
    + apply TagType_eqb_eq in Ht. destruct Hmis; contradiction.
    + cbn [isUnexpectedBlockError orb]. now rewrite TaggedBlockReader_eta.
  - cbn [isUnexpectedBlockError orb]. now rewrite TaggedBlockReader_eta.
Qed.

(** The tag 44 (index 4) when index 2 is asked for. *)
Lemma readIntOptional_tag_mismatch_witness :
  readIntOptional 2 None (newTaggedBlockReader [0x44; 9; 0; 0; 0])
  = (Return None, newTaggedBlockReader [0x44; 9; 0; 0; 0]).
Proof.
  apply (readIntOptional_tag_mismatch (newTaggedBlockReader [0x44; 9; 0; 0; 0])
           2 None 4 Byte4 {| buffer := [0x44; 9; 0; 0; 0]; _position := 1 |}).
  - reflexivity.
  - left. discriminate.
Defined.

(** X9.  The optional read is not all-or-nothing: when the tag is the one asked
    for but fewer than four bytes follow it, the EOF of the payload is
    swallowed, the default is returned, and the cursor stays behind the tag. *)
Theorem readIntOptional_truncated_payload :
  forall (r : TaggedBlockReader) (index : Z) (defaultValue : option Z)
         (s1 : DataStream),
    0 <= _position (data r) ->
    readTag index Byte4 (data r) = (Return (index, Byte4), s1) ->
    _position s1 + 4 > byteLength s1 ->
    readIntOptional index defaultValue r
    = (Return defaultValue,
       {| data := s1; currentBlock := currentBlock r;
          _warnedAboutExtraData := _warnedAboutExtraData r |})
    /\ _position (data r) < _position s1.
Proof.
  intros r index d s1 Hpos Htag Hshort.
  split.
  - unfold readIntOptional, _readOptional, readInt, bind, onData.
    rewrite Htag. cbn [data currentBlock _warnedAboutExtraData].
    unfold readUint32.
    destruct (_position s1 + 4 >? byteLength s1) eqn:E.
    + cbn [isUnexpectedBlockError isEOF orb]. reflexivity.
    + rewrite Z.gtb_ltb in E. apply Z.ltb_ge in E. lia.
  - unfold readTag, bind, tell, setPosition, throw, ret in Htag.
    destruct (_readTagValues (data r)) as [[[i t]|e] s2] eqn:Hread; [|discriminate Htag].
    destruct (negb (i =? index)); [discriminate Htag|].
    destruct (negb (TagType_eqb t Byte4)); [discriminate Htag|].
    injection Htag as _ _ <-.
    unfold _readTagValues, bind, tell, throw, ret in Hread.
    destruct (readVaruint (data r)) as [[x|e] s3] eqn:Hv; [|discriminate Hread].
    destruct (tagTypeOfCode (Js.and x 15)); [|discriminate Hread].
    injection Hread as _ _ <-.
    unfold readVaruint in Hv.
    destruct (readVaruint_loop _ 0 0 (_position (data r))) as [o pos] eqn:Hl.
    injection Hv as -> <-. cbn [_position].
    apply readVaruint_loop_position in Hl. lia.
Qed.

(** The tag 24 alone: index 2 is there, its value is not. *)
Lemma readIntOptional_truncated_payload_witness :
  readIntOptional 2 None (newTaggedBlockReader [0x24; 5])
  = (Return None,
     {| data := {| buffer := [0x24; 5]; _position := 1 |};
        currentBlock := currentBlock (newTaggedBlockReader [0x24; 5]);
        _warnedAboutExtraData := _warnedAboutExtraData (newTaggedBlockReader [0x24; 5]) |})
  /\ _position (data (newTaggedBlockReader [0x24; 5]))
     < _position {| buffer := [0x24; 5]; _position := 1 |}.
Proof.
  apply (readIntOptional_truncated_payload (newTaggedBlockReader [0x24; 5]) 2 None
           {| buffer := [0x24; 5]; _position := 1 |}).
  - cbn. lia.
  - reflexivity.
  - vm_compute. reflexivity.
Defined.

(** X10.  After an [endSubblock] that succeeds the cursor is exactly at the end of
    the sub-block, wherever inside it the reading had stopped; the bytes
    that were skipped are on the returned info as its [extraData], and the
    warning flag is set when there are any. *)
Theorem endSubblock_success :
  forall (subblock info' : BlockInfo.t) (r r' : TaggedBlockReader),
    0 <= _position (data r) <= byteLength (data r) ->
    endSubblock subblock r = (Return info', r') ->
    let pos := _position (data r) in
    let stop := BlockInfo.offset subblock + BlockInfo.size subblock in
    pos <= stop <= byteLength (data r)
    /\ _position (data r') = stop
    /\ buffer (data r') = buffer (data r)
    /\ currentBlock r' = currentBlock r
    /\ BlockInfo.offset info' = BlockInfo.offset subblock
    /\ BlockInfo.size info' = BlockInfo.size subblock
    /\ (pos = stop -> info' = subblock /\ r' = r)
    /\ (pos < stop ->
        BlockInfo.extraData info'
        = firstn (Z.to_nat (stop - pos)) (skipn (Z.to_nat pos) (buffer (data r)))
        /\ Z.of_nat (length (BlockInfo.extraData info')) = stop - pos
        /\ _warnedAboutExtraData r' = true).
Proof.
  intros subblock info' r r' Hpos H. cbv zeta.
  unfold endSubblock, _checkPosition, bind, onData, tell, throw, ret in H.
  cbn [data currentBlock _warnedAboutExtraData fst snd] in H.
  destruct (_position (data r) >? BlockInfo.offset subblock + BlockInfo.size subblock)
    eqn:Egt; [discriminate H|].
  rewrite Z.gtb_ltb in Egt. apply Z.ltb_ge in Egt.
  destruct (_position (data r) <? BlockInfo.offset subblock + BlockInfo.size subblock)
    eqn:Elt.
  - apply Z.ltb_lt in Elt.
    unfold readBytes in H. cbn [data currentBlock _warnedAboutExtraData] in H.
    match type of H with
    | context [if ?c then _ else _] => destruct c eqn:Eeof
    end; [discriminate H|].
    rewrite Z.gtb_ltb in Eeof. apply Z.ltb_ge in Eeof.
    match type of H with
    | context [if ?c then _ else _] => destruct c eqn:Eneg
    end; [discriminate H|].
    injection H as <- <-.
    cbn [data currentBlock _warnedAboutExtraData buffer _position
         BlockInfo.offset BlockInfo.size BlockInfo.extraData].
    repeat split; try lia.
    rewrite length_firstn, length_skipn. unfold byteLength in Eeof. lia.
  - apply Z.ltb_ge in Elt. injection H as <- <-.
    rewrite TaggedBlockReader_eta.
    assert (Heq : _position (data r)
                  = BlockInfo.offset subblock + BlockInfo.size subblock) by lia.
    repeat split; try lia.
Qed.

(** A sub-block of three bytes of which one was read. *)
Lemma endSubblock_success_witness :
  let r := {| data := {| buffer := [7; 8; 9; 10]; _position := 1 |};
              currentBlock := None; _warnedAboutExtraData := false |} in
  let r' := {| data := {| buffer := [7; 8; 9; 10]; _position := 3 |};
               currentBlock := None; _warnedAboutExtraData := true |} in
  let subblock := BlockInfo.create 0 3 [] in
  let info' := BlockInfo.create 0 3 [8; 9] in
  let pos := _position (data r) in
  let stop := BlockInfo.offset subblock + BlockInfo.size subblock in
  pos <= stop <= byteLength (data r)
  /\ _position (data r') = stop
  /\ buffer (data r') = buffer (data r)
  /\ currentBlock r' = currentBlock r
  /\ BlockInfo.offset info' = BlockInfo.offset subblock
  /\ BlockInfo.size info' = BlockInfo.size subblock
  /\ (pos = stop -> info' = subblock /\ r' = r)
  /\ (pos < stop ->
      BlockInfo.extraData info'
      = firstn (Z.to_nat (stop - pos)) (skipn (Z.to_nat pos) (buffer (data r)))
      /\ Z.of_nat (length (BlockInfo.extraData info')) = stop - pos
      /\ _warnedAboutExtraData r' = true).
Proof.
  apply (endSubblock_success (BlockInfo.create 0 3 []) (BlockInfo.create 0 3 [8; 9])
           {| data := {| buffer := [7; 8; 9; 10]; _position := 1 |};
              currentBlock := None; _warnedAboutExtraData := false |}
           {| data := {| buffer := [7; 8; 9; 10]; _position := 3 |};
              currentBlock := None; _warnedAboutExtraData := true |}).
  - vm_compute. split; discriminate.
  - reflexivity.
Defined.


(** [m.get(k)] after [m.set(k, v)] is [v] ... *)
Lemma JsMap_get_set_eq {V : Type} (k : string) (v : V) (m : JsMap.t V) :
  JsMap.get k (JsMap.set k v m) = Some v.
Proof.
  induction m as [|[k' v'] m IH]; cbn [JsMap.set JsMap.get].
  - now rewrite String.eqb_refl.
  - destruct (String.eqb k k') eqn:E; cbn [JsMap.get].
    + now rewrite String.eqb_refl.
    + rewrite E. exact IH.
Qed.

(** ... and the other keys keep their values. *)
Lemma JsMap_get_set_ne {V : Type} (k k' : string) (v : V) (m : JsMap.t V) :
  k <> k' -> JsMap.get k' (JsMap.set k v m) = JsMap.get k' m.
Proof.
  intros Hne. induction m as [|[k0 v0] m IH]; cbn [JsMap.set JsMap.get].
  - destruct (String.eqb k' k) eqn:E; [|reflexivity].
    apply String.eqb_eq in E. congruence.
  - destruct (String.eqb k k0) eqn:E; cbn [JsMap.get].
    + apply String.eqb_eq in E. subst k0.
      destruct (String.eqb k' k) eqn:E'; [|reflexivity].
      apply String.eqb_eq in E'. congruence.
    + rewrite IH. reflexivity.
Qed.

(** [m.set(k, v)] with a new key adds one entry. *)
Lemma JsMap_set_length_new {V : Type} (k : string) (v : V) (m : JsMap.t V) :
  JsMap.has k m = false -> length (JsMap.set k v m) = S (length m).
Proof.
  unfold JsMap.has. induction m as [|[k' v'] m IH]; cbn [JsMap.set JsMap.get length];
    intros H; [reflexivity|].
  destruct (String.eqb k k'); [discriminate H|]. cbn [length]. now rewrite IH.
Qed.

Section CrdtSequenceProps.

Context {T : Type}.

(** X11.  An [add] that succeeds: the id was not in the sequence; afterwards [get]
    on the id returns the value, the size has grown by one, the other keys
    read as before, and adding the same item again fails with <<Already have
    item>> and leaves the sequence alone. *)
Theorem CrdtSequence_add_get :
  forall (item : CrdtSequenceItem.t T) (seq seq' : CrdtSequence T),
    CrdtSequence_add item seq = (Return tt, seq') ->
    CrdtSequence_has (CrdtSequenceItem.itemId item) seq = false
    /\ CrdtSequence_get (CrdtSequenceItem.itemId item) seq'
       = Some (CrdtSequenceItem.value item)
    /\ JsMap.size (_items seq') = JsMap.size (_items seq) + 1
    /\ (forall key : CrdtId,
          crdtIdToString key <> crdtIdToString (CrdtSequenceItem.itemId item) ->
          CrdtSequence_get key seq' = CrdtSequence_get key seq)
    /\ CrdtSequence_add item seq'
       = (Throw (Error_AlreadyHaveItem (crdtIdToString (CrdtSequenceItem.itemId item))),
          seq').
Proof.
  intros item seq seq' H. unfold CrdtSequence_add in H.
  destruct (JsMap.has (crdtIdToString (CrdtSequenceItem.itemId item)) (_items seq)) eqn:E;
    [discriminate H|].
  injection H as <-.
  unfold CrdtSequence_has, CrdtSequence_get, CrdtSequence_add, JsMap.size, JsMap.has.
  cbn [_items]. rewrite JsMap_get_set_eq.
  repeat split.
  - exact E.
  - rewrite JsMap_set_length_new by exact E. lia.
  - intros key Hne. rewrite JsMap_get_set_ne by congruence. reflexivity.
Qed.

End CrdtSequenceProps.

(** Adding one item to the empty sequence. *)
Lemma CrdtSequence_add_get_witness :
  let item := createCrdtSequenceItem (createCrdtId 1 10) END_MARKER END_MARKER 0 7 in
  let seq := newCrdtSequence [] in
  let seq' := newCrdtSequence [item] in
  CrdtSequence_has (CrdtSequenceItem.itemId item) seq = false
  /\ CrdtSequence_get (CrdtSequenceItem.itemId item) seq'
     = Some (CrdtSequenceItem.value item)
  /\ JsMap.size (_items seq') = JsMap.size (_items seq) + 1
  /\ (forall key : CrdtId,
        crdtIdToString key <> crdtIdToString (CrdtSequenceItem.itemId item) ->
        CrdtSequence_get key seq' = CrdtSequence_get key seq)
  /\ CrdtSequence_add item seq'
     = (Throw (Error_AlreadyHaveItem (crdtIdToString (CrdtSequenceItem.itemId item))),
        seq').
Proof.
  apply (CrdtSequence_add_get
           (createCrdtSequenceItem (createCrdtId 1 10) END_MARKER END_MARKER 0 7)
           (newCrdtSequence []) ). reflexivity.
Defined.

(** The key of an id starts with the letter C: it is neither sentinel. *)
Lemma crdtIdToString_head (id : CrdtId) :
  exists rest, crdtIdToString id = String "C" rest.
Proof. unfold crdtIdToString. cbn [append]. eexists. reflexivity. Qed.

Local Arguments String.eqb : simpl never.

Section ToposortSingle.

Context {T : Type}.

(** X12.  A sequence of one item linearises as that item, when neither neighbour
    of the item is the item itself: each side is the end marker or an id
    with another key. *)
Theorem toposortItems_single :
  forall item : CrdtSequenceItem.t T,
    let key := crdtIdToString (CrdtSequenceItem.itemId item) in
    (crdtIdEquals (CrdtSequenceItem.leftId item) END_MARKER = true
     \/ crdtIdToString (CrdtSequenceItem.leftId item) <> key) ->
    (crdtIdEquals (CrdtSequenceItem.rightId item) END_MARKER = true
     \/ crdtIdToString (CrdtSequenceItem.rightId item) <> key) ->
    toposortItems [item] = Some (Return [CrdtSequenceItem.itemId item]).
Proof.
  intros item key Hl Hr.
  destruct (crdtIdToString_head (CrdtSequenceItem.itemId item)) as [rest Hk].
  assert (Hleft : getSideId [(key, item)] item left_side = "__start").
  { unfold getSideId, JsMap.has. cbn [JsMap.get].
    destruct (crdtIdEquals (CrdtSequenceItem.leftId item) END_MARKER); [reflexivity|].
    destruct Hl as [Hl|Hl]; [discriminate Hl|].
    apply String.eqb_neq in Hl. rewrite Hl. reflexivity. }
  assert (Hright : getSideId [(key, item)] item right_side = "__end").
  { unfold getSideId, JsMap.has. cbn [JsMap.get].
    destruct (crdtIdEquals (CrdtSequenceItem.rightId item) END_MARKER); [reflexivity|].
    destruct Hr as [Hr|Hr]; [discriminate Hr|].
    apply String.eqb_neq in Hr. rewrite Hr. reflexivity. }
  unfold toposortItems, toposort_data. cbn [fold_left JsMap.set].
  fold key. unfold toposort_addItem. fold key. rewrite Hleft, Hright.
  assert (Hs : key <> "__start") by (subst key; rewrite Hk; discriminate).
  assert (He : key <> "__end") by (subst key; rewrite Hk; discriminate).
  clearbody key. clear Hk Hl Hr Hleft Hright rest.
  repeat (unfold JsMap.has, JsSet.add, JsSet.has, JsSet.size, JsMap.values,
            toposort_fillSources, toposort_nextItems, toposort_remove, toposort_emit,
            toposort_sortedItems, arraySort;
          simpl;
          repeat match goal with
                 | |- context [String.eqb ?a ?a] => rewrite (String.eqb_refl a)
                 | |- context [String.eqb ?a ?b] =>
                     rewrite (proj2 (String.eqb_neq a b)) by congruence
                 end).
  reflexivity.
Qed.

End ToposortSingle.

(** One item whose right neighbour is not in the sequence. *)
Lemma toposortItems_single_witness :
  toposortItems [createCrdtSequenceItem (createCrdtId 1 10) END_MARKER (createCrdtId 3 4) 0 tt]
  = Some (Return [createCrdtId 1 10]).
Proof.
  apply (toposortItems_single
           (createCrdtSequenceItem (createCrdtId 1 10) END_MARKER (createCrdtId 3 4) 0 tt)).
  - left. reflexivity.
  - right. discriminate.
Defined.

(** [m.has(k)] is membership in the keys. *)
Lemma JsMap_has_In {V : Type} (k : string) (m : JsMap.t V) :
  JsMap.has k m = true <-> In k (map fst m).
Proof.
  unfold JsMap.has. induction m as [|[k' v'] m IH]; cbn [JsMap.get map fst In].
  - split; [discriminate|intros []].
  - destruct (String.eqb k k') eqn:E.
    + apply String.eqb_eq in E. subst. split; auto.
    + apply String.eqb_neq in E. rewrite IH. split; [auto|].
      intros [H|H]; [congruence|exact H].
Qed.

(** The keys after [m.set(k, v)]. *)
Lemma JsMap_keys_set {V : Type} (k : string) (v : V) (m : JsMap.t V) :
  map fst (JsMap.set k v m)
  = if JsMap.has k m then map fst m else map fst m ++ [k].
Proof.
  unfold JsMap.has. induction m as [|[k' v'] m IH]; cbn [JsMap.set JsMap.get map fst app].
  - reflexivity.
  - destruct (String.eqb k k') eqn:E; cbn [map fst].
    + apply String.eqb_eq in E. now subst.
    + rewrite IH. destruct (JsMap.get k m); reflexivity.
Qed.

(** Mutating a stored value keeps the keys. *)
Lemma JsMap_keys_update {V : Type} (k : string) (f : V -> V) (m : JsMap.t V) :
  map fst (JsMap.update k f m) = map fst m.
Proof.
  induction m as [|[k' v'] m IH]; cbn [JsMap.update map fst]; [reflexivity|].
  destruct (String.eqb k k'); cbn [map fst]; [reflexivity|now rewrite IH].
Qed.

(** [m.set(k, v)] keeps the keys distinct. *)
Lemma JsMap_set_NoDup {V : Type} (k : string) (v : V) (m : JsMap.t V) :
  List.NoDup (map fst m) -> List.NoDup (map fst (JsMap.set k v m)).
Proof.
  intros H. rewrite JsMap_keys_set. destruct (JsMap.has k m) eqn:E; [exact H|].
  apply List.NoDup_app; [exact H|repeat constructor; intros []|].
  intros x Hx [<-|[]]. apply JsMap_has_In in Hx. congruence.
Qed.

(** [s.add(k)] keeps the members distinct. *)
Lemma JsSet_add_NoDup (k : string) (s : JsSet.t) : List.NoDup s -> List.NoDup (JsSet.add k s).
Proof.
  intros H. unfold JsSet.add. destruct (JsSet.has k s) eqn:E; [exact H|].
  apply List.NoDup_app; [exact H|repeat constructor; intros []|].
  intros x Hx [<-|[]]. apply JsSet_has_In in Hx. congruence.
Qed.

(** The ready set has no key twice. *)
Lemma toposort_nextItems_NoDup (data : JsMap.t JsSet.t) : List.NoDup (toposort_nextItems data).
Proof.
  unfold toposort_nextItems.
  assert (G : forall acc, List.NoDup acc ->
            List.NoDup (fold_left
                     (fun nextItems '(item, deps) =>
                        if JsSet.size deps =? 0 then JsSet.add item nextItems else nextItems)
                     data acc)).
  { induction data as [|[item deps] data IH]; intros acc H; cbn [fold_left]; [exact H|].
    apply IH. destruct (JsSet.size deps =? 0); [now apply JsSet_add_NoDup|exact H]. }
  apply G. constructor.
Qed.

(** With distinct keys, removing a layer keeps the other keys in order. *)
Lemma toposort_remove_keys (nextItems : JsSet.t) (data : JsMap.t JsSet.t) :
  List.NoDup (map fst data) ->
  map fst (toposort_remove nextItems data)
  = List.filter (fun k => negb (JsSet.has k nextItems)) (map fst data).
Proof.
  unfold toposort_remove.
  assert (G : forall acc,
             List.NoDup (map fst acc ++ map fst data) ->
             map fst (fold_left
                (fun newData '(item, deps) =>
                   if negb (JsSet.has item nextItems) then
                     JsMap.set item
                       (List.filter (fun dep => negb (JsSet.has dep nextItems)) deps) newData
                   else newData) data acc)
             = map fst acc
               ++ List.filter (fun k => negb (JsSet.has k nextItems)) (map fst data)).
  { induction data as [|[item deps] data IH]; intros acc H;
      cbn [fold_left map fst List.filter].
    - now rewrite app_nil_r.
    - cbn [map fst] in H.
      destruct (negb (JsSet.has item nextItems)).
      + rewrite IH.
        * rewrite JsMap_keys_set.
          destruct (JsMap.has item acc) eqn:E.
          -- exfalso. apply JsMap_has_In in E.
             apply List.NoDup_remove_2 in H. apply H. apply List.in_or_app. now left.
          -- now rewrite <- app_assoc.
        * rewrite JsMap_keys_set.
          destruct (JsMap.has item acc) eqn:E.
          -- exfalso. apply JsMap_has_In in E.
             apply List.NoDup_remove_2 in H. apply H. apply List.in_or_app. now left.
          -- rewrite <- app_assoc. exact H.
      + apply IH. apply List.NoDup_remove_1 in H. exact H. }
  intros H. apply (G []). exact H.
Qed.

Section ToposortIds.

Context {T : Type}.

(** Every entry of [itemDict] is an item of the array, under its own key. *)
Lemma toposort_itemDict_get (items : list (CrdtSequenceItem.t T)) (k : string)
      (item : CrdtSequenceItem.t T) :
  JsMap.get k (fst (toposort_data items)) = Some item ->
  In item items /\ crdtIdToString (CrdtSequenceItem.itemId item) = k.
Proof.
  unfold toposort_data. cbn [fst].
  assert (G : forall acc,
             (forall k item, JsMap.get k acc = Some item ->
                             In item items /\ crdtIdToString (CrdtSequenceItem.itemId item) = k) ->
             forall l, (forall x, In x l -> In x items) ->
             forall k item,
               JsMap.get k (fold_left
                  (fun d item => JsMap.set (crdtIdToString (CrdtSequenceItem.itemId item)) item d)
                  l acc) = Some item ->
               In item items /\ crdtIdToString (CrdtSequenceItem.itemId item) = k).
  { intros acc Hacc l. revert acc Hacc.
    induction l as [|x l IH]; intros acc Hacc Hl k0 item0 H; cbn [fold_left] in H.
    - now apply Hacc.
    - eapply IH; [| |exact H].
      + intros k1 item1 H1.
        destruct (String.eqb (crdtIdToString (CrdtSequenceItem.itemId x)) k1) eqn:E.
        * apply String.eqb_eq in E. subst k1. rewrite JsMap_get_set_eq in H1.
          injection H1 as <-. split; [apply Hl; now left|reflexivity].
        * apply String.eqb_neq in E. rewrite JsMap_get_set_ne in H1 by exact E.
          now apply Hacc.
      + intros y Hy. apply Hl. now right. }
  apply (G [] ltac:(intros ? ? H; discriminate H) items ltac:(auto)).
Qed.

(** The ids of one layer, read back as keys, are the sorted keys. *)
Lemma toposort_emit_keys (itemDict : JsMap.t (CrdtSequenceItem.t T)) (nextItems : JsSet.t) :
  (forall k item, JsMap.get k itemDict = Some item ->
                  crdtIdToString (CrdtSequenceItem.itemId item) = k) ->
  map crdtIdToString (toposort_emit itemDict nextItems)
  = toposort_sortedItems itemDict nextItems.
Proof.
  intros Hdict. unfold toposort_emit.
  assert (Hall : forall k, In k (toposort_sortedItems itemDict nextItems) ->
                           JsMap.has k itemDict = true).
  { intros k Hk. unfold toposort_sortedItems in Hk.
    apply (Permutation_in k (Permutation_sym (arraySort_Permutation _))) in Hk.
    apply List.filter_In in Hk. apply Hk. }
  induction (toposort_sortedItems itemDict nextItems) as [|k l IH]; cbn [flat_map map];
    [reflexivity|].
  specialize (Hall k (or_introl eq_refl)) as Hk. unfold JsMap.has in Hk.
  destruct (JsMap.get k itemDict) as [item|] eqn:E; [|discriminate Hk].
  cbn [app map]. rewrite (Hdict k item E). f_equal.
  apply IH. intros k' Hk'. apply Hall. now right.
Qed.

(** The sorted layer has no key twice. *)
Lemma toposort_sortedItems_NoDup (itemDict : JsMap.t (CrdtSequenceItem.t T))
      (nextItems : JsSet.t) :
  List.NoDup nextItems -> List.NoDup (toposort_sortedItems itemDict nextItems).
Proof.
  intros H. unfold toposort_sortedItems.
  eapply Permutation_NoDup; [apply arraySort_Permutation|].
  apply List.NoDup_filter. exact H.
Qed.

(** The loop keeps: the keys of [data] are distinct, the ids pushed so far are
    distinct, and none of them has a key that is still in [data]. *)
Lemma toposort_loop_ids (itemDict : JsMap.t (CrdtSequenceItem.t T)) :
  (forall k item, JsMap.get k itemDict = Some item ->
                  crdtIdToString (CrdtSequenceItem.itemId item) = k) ->
  forall (fuel : nat) (data : JsMap.t JsSet.t) (result ids : list CrdtId),
    List.NoDup (map fst data) ->
    List.NoDup result ->
    (forall id, In id result -> ~ In (crdtIdToString id) (map fst data)) ->
    toposort_loop fuel itemDict data result = Some (Return ids) ->
    List.NoDup ids
    /\ forall id, In id ids ->
         In id result
         \/ exists item, JsMap.get (crdtIdToString id) itemDict = Some item
                         /\ CrdtSequenceItem.itemId item = id.
Proof.
  intros Hdict. induction fuel as [|fuel IH]; intros data result ids Hdata Hres Hdisj H;
    cbn [toposort_loop] in H; [discriminate H|].
  set (next := toposort_nextItems data) in *.
  destruct ((JsSet.size next =? 1) && JsSet.has "__end" next).
  { injection H as <-. split; [exact Hres|]. intros id Hid. now left. }
  destruct (JsSet.size next =? 0); [discriminate H|].
  assert (Hkeys : map crdtIdToString (toposort_emit itemDict next)
                  = toposort_sortedItems itemDict next) by now apply toposort_emit_keys.
  assert (Hsorted_in : forall k, In k (toposort_sortedItems itemDict next) -> In k next).
  { intros k Hk. unfold toposort_sortedItems in Hk.
    apply (Permutation_in k (Permutation_sym (arraySort_Permutation _))) in Hk.
    apply List.filter_In in Hk. apply Hk. }
  assert (Hemit : forall id, In id (toposort_emit itemDict next) ->
                    In (crdtIdToString id) next
                    /\ exists item, JsMap.get (crdtIdToString id) itemDict = Some item
                                    /\ CrdtSequenceItem.itemId item = id).
  { intros id Hid. split.
    - apply Hsorted_in. rewrite <- Hkeys. now apply List.in_map.
    - unfold toposort_emit in Hid. apply List.in_flat_map in Hid.
      destruct Hid as (k & Hk & Hid).
      destruct (JsMap.get k itemDict) as [item|] eqn:E; [|destruct Hid].
      destruct Hid as [<-|[]]. rewrite (Hdict k item E). eauto. }
  apply IH in H.
  - destruct H as [Hnd Hin]. split; [exact Hnd|].
    intros id Hid. apply Hin in Hid. destruct Hid as [Hid|Hid]; [|now right].
    apply List.in_app_or in Hid. destruct Hid as [Hid|Hid]; [now left|right].
    now apply Hemit.
  - rewrite toposort_remove_keys by exact Hdata. now apply List.NoDup_filter.
  - apply List.NoDup_app; [exact Hres| |].
    + apply (List.NoDup_map_inv crdtIdToString). rewrite Hkeys.
      apply toposort_sortedItems_NoDup. apply toposort_nextItems_NoDup.
    + intros id Hid Hid'. apply Hemit in Hid'. destruct Hid' as [Hnext _].
      apply (Hdisj id Hid). now apply toposort_nextItems_In.
  - intros id Hid. rewrite toposort_remove_keys by exact Hdata.
    rewrite List.filter_In. intros [Hk Hnot].
    apply List.in_app_or in Hid. destruct Hid as [Hid|Hid].
    + now apply (Hdisj id Hid).
    + apply Hemit in Hid. destruct Hid as [Hnext _].
      apply JsSet_has_In in Hnext. rewrite Hnext in Hnot. discriminate Hnot.
Qed.

(** The keys of [data] stay distinct while it is built. *)
Lemma toposort_data_NoDup (items : list (CrdtSequenceItem.t T)) :
  List.NoDup (map fst (snd (toposort_data items))).
Proof.
  unfold toposort_data. cbn [snd].
  set (itemDict :=
         fold_left (fun d item =>
                      JsMap.set (crdtIdToString (CrdtSequenceItem.itemId item)) item d)
                   items []).
  assert (Hadd : forall data item,
             List.NoDup (map fst data) -> List.NoDup (map fst (toposort_addItem itemDict data item))).
  { intros data item H. unfold toposort_addItem.
    rewrite JsMap_keys_update.
    match goal with |- context [if ?c then _ else _] => destruct c end.
    - apply JsMap_set_NoDup. rewrite JsMap_keys_update.
      match goal with |- context [if ?c then _ else _] => destruct c end;
        [now apply JsMap_set_NoDup|exact H].
    - rewrite JsMap_keys_update.
      match goal with |- context [if ?c then _ else _] => destruct c end;
        [now apply JsMap_set_NoDup|exact H]. }
  assert (Hfold : forall l data,
             List.NoDup (map fst data) ->
             List.NoDup (map fst (fold_left (toposort_addItem itemDict) l data))).
  { induction l as [|x l IH]; intros data H; cbn [fold_left]; [exact H|].
    apply IH. now apply Hadd. }
  unfold toposort_fillSources.
  generalize (fold_left
                (fun allDeps deps => fold_left (fun s dep => JsSet.add dep s) deps allDeps)
                (JsMap.values (fold_left (toposort_addItem itemDict) items [])) []).
  intros allDeps.
  assert (H0 : List.NoDup (map fst (fold_left (toposort_addItem itemDict) items [])))
    by (apply Hfold; constructor).
  revert H0. generalize (fold_left (toposort_addItem itemDict) items []).
  induction allDeps as [|dep allDeps IH]; intros data H; cbn [fold_left]; [exact H|].
  apply IH.
  match goal with |- context [if ?c then _ else _] => destruct c end;
    [now apply JsMap_set_NoDup|exact H].
Qed.

(** X13.  What [toposortItems] returns lists no id twice, and lists only ids of
    items of the array. *)
Theorem toposortItems_ids :
  forall (items : list (CrdtSequenceItem.t T)) (ids : list CrdtId),
    toposortItems items = Some (Return ids) ->
    List.NoDup ids
    /\ forall id, In id ids ->
         exists item, In item items /\ CrdtSequenceItem.itemId item = id.
Proof.
  intros items ids H. unfold toposortItems in H.
  destruct items as [|x items].
  { injection H as <-. split; [constructor|intros id []]. }
  pose proof (toposort_data_NoDup (x :: items)) as Hnd.
  pose proof (toposort_itemDict_get (x :: items)) as Hdict.
  destruct (toposort_data (x :: items)) as [itemDict data]. cbn [fst snd] in *.
  apply toposort_loop_ids in H.
  - destruct H as [Hnodup Hin]. split; [exact Hnodup|].
    intros id Hid. apply Hin in Hid. destruct Hid as [[]|(item & Hget & Hitem)].
    exists item. split; [|exact Hitem]. now apply (Hdict _ _ Hget).
  - intros k item Hget. now apply (Hdict _ _ Hget).
  - exact Hnd.
  - constructor.
  - intros id [].
Qed.

End ToposortIds.

(** The two concurrent items (1,5) and (1,10). *)
Lemma toposortItems_ids_witness :
  List.NoDup [createCrdtId 1 10; createCrdtId 1 5]
  /\ forall id, In id [createCrdtId 1 10; createCrdtId 1 5] ->
       exists item,
         In item [createCrdtSequenceItem (createCrdtId 1 5) END_MARKER END_MARKER 0 tt;
                  createCrdtSequenceItem (createCrdtId 1 10) END_MARKER END_MARKER 0 tt]
         /\ CrdtSequenceItem.itemId item = id.
Proof.
  apply (toposortItems_ids
           [createCrdtSequenceItem (createCrdtId 1 5) END_MARKER END_MARKER 0 tt;
            createCrdtSequenceItem (createCrdtId 1 10) END_MARKER END_MARKER 0 tt]).
  vm_compute. reflexivity.
Defined.

(** One block never removes a node, and keeps every node under the key of
    its own id. *)
Lemma buildTree_step_nodes (block : Block) (tree : SceneTree) :
  (forall k node, _nodes tree !! k = Some node -> crdtIdToString (nodeId node) = k) ->
  let tree' := snd (buildTree_step block tree) in
  (forall k node, _nodes tree' !! k = Some node -> crdtIdToString (nodeId node) = k)
  /\ (forall k, is_Some (_nodes tree !! k) -> is_Some (_nodes tree' !! k)).
Proof.
  intros Hwf.
  assert (Hins : forall key node0,
             crdtIdToString (nodeId node0) = key ->
             (forall k node, <[key := node0]> (_nodes tree) !! k = Some node ->
                             crdtIdToString (nodeId node) = k)
             /\ (forall k, is_Some (_nodes tree !! k) ->
                           is_Some (<[key := node0]> (_nodes tree) !! k))).
  { intros key node0 Hkey. split.
    - intros k node H. destruct (decide (key = k)) as [->|Hne].
      + rewrite lookup_insert_eq in H. injection H as <-. exact Hkey.
      + rewrite lookup_insert_ne in H by exact Hne. now apply Hwf.
    - intros k H. destruct (decide (key = k)) as [->|Hne].
      + rewrite lookup_insert_eq. eauto.
      + now rewrite lookup_insert_ne by exact Hne. }
  assert (Hitem : forall item parentId,
             let tree' := snd (addItem item parentId tree) in
             (forall k node, _nodes tree' !! k = Some node -> crdtIdToString (nodeId node) = k)
             /\ (forall k, is_Some (_nodes tree !! k) -> is_Some (_nodes tree' !! k))).
  { intros item parentId. unfold addItem, SceneTree_get.
    destruct (_nodes tree !! crdtIdToString parentId) as [parent|] eqn:E;
      [|cbn [snd]; auto].
    destruct (CrdtSequence_add item (children parent)) as [[[]|e] children'];
      cbn [snd _nodes]; [|auto].
    apply Hins. cbn [nodeId]. now apply Hwf. }
  destruct block as [treeId nid upd parentId|group|parentId item|parentId item
                     |parentId item|blockId text|type|blockType bytes];
    cbn [buildTree_step].
  - unfold addNode.
    destruct (_nodes tree !! crdtIdToString treeId); cbn [snd _nodes]; [auto|].
    now apply Hins.
  - unfold SceneTree_get.
    destruct (_nodes tree !! crdtIdToString (nodeId group)) as [node|] eqn:E;
      cbn [snd _nodes]; [|auto].
    apply Hins. unfold copyRegisters. cbn [nodeId]. now apply Hwf.
  - destruct (CrdtSequenceItem.value item) as [nid|]; [|cbn [ret snd]; auto].
    destruct (SceneTree_get nid tree); [apply Hitem|cbn [snd]; auto].
  - apply Hitem.
  - apply Hitem.
  - cbn [snd _nodes]. auto.
  - cbn [ret snd]. auto.
  - destruct ((blockType =? 1) || (blockType =? 2) || (blockType =? 4)
              || (blockType =? 5) || (blockType =? 3)); [cbn [throw snd]; auto|].
    destruct (blockType =? 7); cbn [ret snd _nodes]; auto.
Qed.

(** X15.  Whatever the stream, and whether building fails or not, [buildTree]
    never removes a node, and every node stays stored under the key of its
    own id. *)
Theorem buildTree_nodes :
  forall (blocks : list Block) (tree : SceneTree),
    (forall k node, _nodes tree !! k = Some node -> crdtIdToString (nodeId node) = k) ->
    let tree' := snd (buildTree blocks tree) in
    (forall k node, _nodes tree' !! k = Some node -> crdtIdToString (nodeId node) = k)
    /\ (forall id, SceneTree_has id tree = true -> SceneTree_has id tree' = true).
Proof.
  intros blocks. induction blocks as [|block blocks IH]; intros tree Hwf; cbv zeta.
  - cbn [buildTree ret snd]. auto.
  - destruct (buildTree_step_nodes block tree Hwf) as [Hwf1 Hmono1].
    cbn [buildTree]. unfold bind.
    destruct (buildTree_step block tree) as [[[]|e] tree1] eqn:E; cbn [snd] in *.
    + destruct (IH tree1 Hwf1) as [Hwf2 Hmono2]. split; [exact Hwf2|].
      intros id Hid. apply Hmono2. unfold SceneTree_has in *.
      apply bool_decide_eq_true. apply bool_decide_eq_true in Hid. now apply Hmono1.
    + split; [exact Hwf1|].
      intros id Hid. unfold SceneTree_has in *.
      apply bool_decide_eq_true. apply bool_decide_eq_true in Hid. now apply Hmono1.
Qed.

(** X16.  An item block whose parent is not in the tree stops the building with
    <<Parent node ... does not exist>> and leaves the tree as the earlier
    blocks built it: a line item, a glyph item, and a group item whose group
    exists.  A group item without a value is passed over before its parent
    is looked at. *)
Theorem buildTree_item_parent_missing :
  forall (pre post : list Block) (parentId : CrdtId) (tree tree1 : SceneTree),
    buildTree pre tree = (Return tt, tree1) ->
    SceneTree_get parentId tree1 = None ->
    (forall item,
        buildTree (pre ++ SceneLineItemBlock parentId item :: post) tree
        = (Throw (Error_ParentDoesNotExist (crdtIdToString parentId)), tree1))
    /\ (forall item,
          buildTree (pre ++ SceneGlyphItemBlock parentId item :: post) tree
          = (Throw (Error_ParentDoesNotExist (crdtIdToString parentId)), tree1))
    /\ (forall item nodeId node,
          CrdtSequenceItem.value item = Some nodeId ->
          SceneTree_get nodeId tree1 = Some node ->
          buildTree (pre ++ SceneGroupItemBlock parentId item :: post) tree
          = (Throw (Error_ParentDoesNotExist (crdtIdToString parentId)), tree1))
    /\ (forall item,
          CrdtSequenceItem.value item = None ->
          buildTree (pre ++ SceneGroupItemBlock parentId item :: post) tree
          = buildTree post tree1).
Proof.
  intros pre post parentId tree tree1 Hpre Hnone.
  repeat split; intros; rewrite buildTree_app, Hpre; cbn [buildTree buildTree_step];
    unfold bind, addItem.
  - now rewrite Hnone.
  - now rewrite Hnone.
  - rewrite H, H0. unfold addItem. now rewrite Hnone.
  - rewrite H. reflexivity.
Qed.

(** X17.  A line item block whose parent exists and does not hold the item's id
    yet is attached: the parent's children then return the item's value for
    its id and have grown by one, the parent's registers and the other
    nodes are as before; the same block a second time stops the building
    with <<Already have item>>. *)
Theorem buildTree_line_item_attached :
  forall (pre : list Block) (parentId : CrdtId)
         (item : CrdtSequenceItem.t (option Line))
         (tree tree1 : SceneTree) (parent : Group),
    buildTree pre tree = (Return tt, tree1) ->
    SceneTree_get parentId tree1 = Some parent ->
    CrdtSequence_has (CrdtSequenceItem.itemId item) (children parent) = false ->
    exists tree2 parent',
      buildTree (pre ++ [SceneLineItemBlock parentId item]) tree = (Return tt, tree2)
      /\ SceneTree_get parentId tree2 = Some parent'
      /\ CrdtSequence_get (CrdtSequenceItem.itemId item) (children parent')
         = Some (match CrdtSequenceItem.value item with
                 | Some line => ItemLine line
                 | None => ItemNull
                 end)
      /\ JsMap.size (_items (children parent')) = JsMap.size (_items (children parent)) + 1
      /\ label parent' = label parent /\ visible parent' = visible parent
      /\ nodeId parent' = nodeId parent
      /\ (forall k, k <> crdtIdToString parentId -> _nodes tree2 !! k = _nodes tree1 !! k)
      /\ buildTree (pre ++ [SceneLineItemBlock parentId item; SceneLineItemBlock parentId item])
                   tree
         = (Throw (Error_AlreadyHaveItem (crdtIdToString (CrdtSequenceItem.itemId item))),
            tree2).
Proof.
  intros pre parentId item tree tree1 parent Hpre Hparent Hfresh.
  destruct (CrdtSequence_add (asSceneItem ItemLine item) (children parent))
    as [o children'] eqn:Hadd.
  assert (Ho : o = Return tt).
  { unfold CrdtSequence_add in Hadd. cbn [asSceneItem CrdtSequenceItem.itemId] in Hadd.
    unfold CrdtSequence_has in Hfresh. rewrite Hfresh in Hadd. now injection Hadd as <- _. }
  subst o.
  assert (Hc : children'
               = {| _items := JsMap.set (crdtIdToString (CrdtSequenceItem.itemId item))
                                (asSceneItem ItemLine item) (_items (children parent)) |}).
  { unfold CrdtSequence_add in Hadd. cbn [asSceneItem CrdtSequenceItem.itemId] in Hadd.
    unfold CrdtSequence_has in Hfresh. rewrite Hfresh in Hadd. now injection Hadd as <-. }
  assert (Hget : CrdtSequence_get (CrdtSequenceItem.itemId item) children'
                 = Some (CrdtSequenceItem.value (asSceneItem ItemLine item))).
  { rewrite Hc. unfold CrdtSequence_get. cbn [_items]. now rewrite JsMap_get_set_eq. }
  assert (Hsize : JsMap.size (_items children') = JsMap.size (_items (children parent)) + 1).
  { rewrite Hc. unfold JsMap.size. cbn [_items].
    rewrite JsMap_set_length_new by exact Hfresh. lia. }
  assert (Hagain : CrdtSequence_add (asSceneItem ItemLine item) children'
                   = (Throw (Error_AlreadyHaveItem
                               (crdtIdToString
                                  (CrdtSequenceItem.itemId (asSceneItem ItemLine item)))),
                      children')).
  { rewrite Hc. unfold CrdtSequence_add, JsMap.has.
    cbn [_items asSceneItem CrdtSequenceItem.itemId]. now rewrite JsMap_get_set_eq. }
  set (parent' := {| nodeId := nodeId parent; children := children';
                     label := label parent; visible := visible parent;
                     anchorId := anchorId parent; anchorType := anchorType parent;
                     anchorThreshold := anchorThreshold parent;
                     anchorOriginX := anchorOriginX parent |}).
  set (tree2 := {| _nodes := <[crdtIdToString parentId := parent']> (_nodes tree1);
                   rootText := rootText tree1 |}).
  assert (Hstep : buildTree_step (SceneLineItemBlock parentId item) tree1
                  = (Return tt, tree2)).
  { cbn [buildTree_step]. unfold addItem. rewrite Hparent, Hadd. reflexivity. }
  assert (H1 : buildTree (pre ++ [SceneLineItemBlock parentId item]) tree
               = (Return tt, tree2)).
  { rewrite buildTree_app, Hpre. cbn [buildTree]. unfold bind. rewrite Hstep. reflexivity. }
  assert (Hget2 : SceneTree_get parentId tree2 = Some parent').
  { unfold SceneTree_get, tree2. cbn [_nodes]. apply lookup_insert_eq. }
  exists tree2, parent'.
  split; [exact H1|]. split; [exact Hget2|].
  split; [exact Hget|]. split; [exact Hsize|].
  repeat (split; [reflexivity|]).
  split.
  { intros k Hk. unfold tree2. cbn [_nodes]. now rewrite lookup_insert_ne by congruence. }
  change [SceneLineItemBlock parentId item; SceneLineItemBlock parentId item]
    with ([SceneLineItemBlock parentId item] ++ [SceneLineItemBlock parentId item]).
  rewrite app_assoc, buildTree_app, H1.
  cbn [buildTree buildTree_step]. unfold bind, addItem. rewrite Hget2.
  cbn [children parent'].
  cbn [asSceneItem CrdtSequenceItem.itemId] in Hagain. rewrite Hagain.
  reflexivity.
Qed.

(** Read into a fresh tree, no stream loses the root. *)
Lemma buildTree_nodes_witness :
  let tree' := snd (buildTree [TreeNodeBlock (createGroup (createCrdtId 0 2))] newSceneTree) in
  (forall k node, _nodes tree' !! k = Some node -> crdtIdToString (nodeId node) = k)
  /\ (forall id, SceneTree_has id newSceneTree = true -> SceneTree_has id tree' = true).
Proof.
  apply (buildTree_nodes [TreeNodeBlock (createGroup (createCrdtId 0 2))] newSceneTree).
  intros k node H. unfold newSceneTree in H. cbn [_nodes] in H.
  destruct (decide (crdtIdToString ROOT_ID = k)) as [<-|Hne].
  - rewrite lookup_insert_eq in H. now injection H as <-.
  - rewrite lookup_insert_ne in H by exact Hne. rewrite lookup_empty in H. discriminate H.
Defined.

(** A line item for the parent (0,5), which no block has created. *)
Lemma buildTree_item_parent_missing_witness :
  (forall item,
      buildTree ([] ++ SceneLineItemBlock (createCrdtId 0 5) item :: []) newSceneTree
      = (Throw (Error_ParentDoesNotExist (crdtIdToString (createCrdtId 0 5))), newSceneTree))
  /\ (forall item,
        buildTree ([] ++ SceneGlyphItemBlock (createCrdtId 0 5) item :: []) newSceneTree
        = (Throw (Error_ParentDoesNotExist (crdtIdToString (createCrdtId 0 5))),
           newSceneTree))
  /\ (forall item nodeId node,
        CrdtSequenceItem.value item = Some nodeId ->
        SceneTree_get nodeId newSceneTree = Some node ->
        buildTree ([] ++ SceneGroupItemBlock (createCrdtId 0 5) item :: []) newSceneTree
        = (Throw (Error_ParentDoesNotExist (crdtIdToString (createCrdtId 0 5))),
           newSceneTree))
  /\ (forall item,
        CrdtSequenceItem.value item = None ->
        buildTree ([] ++ SceneGroupItemBlock (createCrdtId 0 5) item :: []) newSceneTree
        = buildTree [] newSceneTree).
Proof.
  apply (buildTree_item_parent_missing [] [] (createCrdtId 0 5) newSceneTree newSceneTree);
    reflexivity.
Defined.

(** An item (1,1) under the root of a fresh tree. *)
Lemma buildTree_line_item_attached_witness :
  let item := createCrdtSequenceItem (createCrdtId 1 1) END_MARKER END_MARKER 0
                (@None Line) in
  exists tree2 parent',
    buildTree ([] ++ [SceneLineItemBlock ROOT_ID item]) newSceneTree = (Return tt, tree2)
    /\ SceneTree_get ROOT_ID tree2 = Some parent'
    /\ CrdtSequence_get (CrdtSequenceItem.itemId item) (children parent')
       = Some (match CrdtSequenceItem.value item with
               | Some line => ItemLine line
               | None => ItemNull
               end)
    /\ JsMap.size (_items (children parent'))
       = JsMap.size (_items (children (createGroup ROOT_ID))) + 1
    /\ label parent' = label (createGroup ROOT_ID)
    /\ visible parent' = visible (createGroup ROOT_ID)
    /\ nodeId parent' = nodeId (createGroup ROOT_ID)
    /\ (forall k, k <> crdtIdToString ROOT_ID -> _nodes tree2 !! k = _nodes newSceneTree !! k)
    /\ buildTree ([] ++ [SceneLineItemBlock ROOT_ID item; SceneLineItemBlock ROOT_ID item])
                 newSceneTree
       = (Throw (Error_AlreadyHaveItem (crdtIdToString (CrdtSequenceItem.itemId item))),
          tree2).
Proof.
  apply (buildTree_line_item_attached [] ROOT_ID
           (createCrdtSequenceItem (createCrdtId 1 1) END_MARKER END_MARKER 0 (@None Line))
           newSceneTree newSceneTree (createGroup ROOT_ID)); reflexivity.
Defined.

(** An empty text, written with start 5 and length 0, and read back. *)
Lemma readGlyphRange_length_zero_witness :
  GlyphRange.text (createGlyphRange (Some 5) 0 [] 9 []) = [].
Proof.
  apply (readGlyphRange_length_zero (fun bytes => bytes)
           (newTaggedBlockReader
              [0x24; 5; 0; 0; 0; 0x34; 0; 0; 0; 0; 0x44; 9; 0; 0; 0;
               0x5C; 2; 0; 0; 0; 0; 1; 0x6C; 1; 0; 0; 0; 0])
           (snd (readGlyphRange (fun bytes => bytes)
                   (newTaggedBlockReader
                      [0x24; 5; 0; 0; 0; 0x34; 0; 0; 0; 0; 0x44; 9; 0; 0; 0;
                       0x5C; 2; 0; 0; 0; 0; 1; 0x6C; 1; 0; 0; 0; 0])))
           (createGlyphRange (Some 5) 0 [] 9 [])).
  - vm_compute. reflexivity.
  - reflexivity.
Defined.

(* ===================================================================== *)
(** * Round trips of the writer and the reader *)
(* ===================================================================== *)

(** ** Composition *)

Lemma getBytes_length (s : DataStream) :
  inBounds s -> Z.of_nat (length (getBytes s)) = _position s.
Proof.
  unfold inBounds, getBytes, byteLength. intros H. rewrite length_firstn. lia.
Qed.

Lemma appends_ret : appends (ret tt) [].
Proof. intros s Hs. exists s. now rewrite app_nil_r. Qed.

Lemma appends_bind (c1 c2 : M DataStream unit) (b1 b2 : list Z) :
  appends c1 b1 -> appends c2 b2 -> appends (let* _ := c1 in c2) (b1 ++ b2).
Proof.
  intros H1 H2 s Hs.
  destruct (H1 s Hs) as (s1 & E1 & G1 & B1).
  destruct (H2 s1 B1) as (s2 & E2 & G2 & B2).
  exists s2. unfold bind. rewrite E1, E2, G2, G1, app_assoc. auto.
Qed.

Lemma streamPast_At (pre b1 b2 post : list Z) :
  streamPast pre b1 (b2 ++ post) = streamAt (pre ++ b1) b2 post.
Proof.
  unfold streamPast, streamAt. f_equal.
  - now rewrite <- app_assoc.
  - rewrite length_app. lia.
Qed.

Lemma streamAt_app (pre b1 b2 post : list Z) :
  streamAt pre (b1 ++ b2) post = streamAt pre b1 (b2 ++ post).
Proof. unfold streamAt. now rewrite <- app_assoc. Qed.

Lemma streamPast_app (pre b1 b2 post : list Z) :
  streamPast pre (b1 ++ b2) post = streamPast (pre ++ b1) b2 post.
Proof.
  unfold streamPast. f_equal.
  - now rewrite <- !app_assoc.
  - rewrite !length_app. lia.
Qed.

Lemma streamPast_nil (pre post : list Z) : streamPast pre [] post = streamAt pre [] post.
Proof. unfold streamPast, streamAt. cbn [length]. f_equal. lia. Qed.

Lemma decodes_ret {A : Type} (a : A) : decodes (ret a) [] a.
Proof.
  intros pre post. unfold ret, streamAt, streamPast. cbn [length app]. do 2 f_equal. lia.
Qed.

Lemma decodes_bind {A B : Type} (c : M DataStream A) (k : A -> M DataStream B)
      (b1 b2 : list Z) (a : A) (b : B) :
  decodes c b1 a -> decodes (k a) b2 b -> decodes (let* x := c in k x) (b1 ++ b2) b.
Proof.
  intros H1 H2 pre post. unfold bind.
  rewrite streamAt_app, H1, streamPast_At, H2, streamPast_app. reflexivity.
Qed.

(** ** The writers of the data stream *)

Lemma appends_writeBytes (bytes : list Z) : appends (writeBytes bytes) bytes.
Proof.
  intros s Hs. destruct (writeBytes_spec bytes s Hs) as (Hr & Hb & _ & Hv).
  exists (snd (writeBytes bytes s)).
  destruct (writeBytes bytes s) as [o s']; cbn [fst snd] in *. subst o. auto.
Qed.

Lemma appends_writeUint8 (value : Z) : appends (writeUint8 value) [value mod 256].
Proof. exact (appends_writeBytes [value mod 256]). Qed.

Lemma appends_writeBool (value : bool) :
  appends (writeBool value) [if value then 1 else 0].
Proof. destruct value; exact (appends_writeBytes [1]) || exact (appends_writeBytes [0]). Qed.

Lemma appends_writeUint32 (value : Z) :
  appends (writeUint32 value) (littleEndianBytes 4 (Js.ToUint32 value)).
Proof. exact (appends_writeBytes (littleEndianBytes 4 (Js.ToUint32 value))). Qed.

Lemma appends_writeFloat64 (value : float64) :
  appends (writeFloat64 value) (littleEndianBytes 8 value).
Proof. exact (appends_writeBytes (littleEndianBytes 8 value)). Qed.

Lemma appends_writeVaruint (value : Z) :
  0 <= value -> appends (writeVaruint value) (writeVaruint_loop 5 value).
Proof.
  intros H. unfold writeVaruint.
  destruct (value <? 0) eqn:E; [apply Z.ltb_lt in E; lia|].
  rewrite newUint8Array_bytes by apply writeVaruint_loop_bytes.
  apply appends_writeBytes.
Qed.

(** The tag of a field: index and type in one varuint. *)
Lemma tag_value (index : Z) (tagType : TagType) :
  0 <= index < 2 ^ 27 ->
  Js.or (Js.shl index 4) (tagTypeCode tagType) = 16 * index + tagTypeCode tagType.
Proof.
  intros H. unfold Js.or, Js.shl.
  assert (Hc : 0 <= tagTypeCode tagType < 2 ^ 4) by (destruct tagType; cbn; lia).
  replace (Js.ToUint32 4 mod 32) with 4 by reflexivity.
  rewrite (ToInt32_small index) by lia.
  rewrite Z.shiftl_mul_pow2 by lia.
  rewrite !(ToInt32_small (index * 2 ^ 4)) by lia.
  rewrite (ToInt32_small (tagTypeCode tagType)) by lia.
  rewrite Z.lor_comm, lor_low_high by lia. lia.
Qed.

Lemma tag_value_sar (index : Z) (tagType : TagType) :
  0 <= index < 2 ^ 27 ->
  Js.sar (16 * index + tagTypeCode tagType) 4 = index
  /\ Js.and (16 * index + tagTypeCode tagType) 0xF = tagTypeCode tagType.
Proof.
  intros H.
  assert (Hc : 0 <= tagTypeCode tagType < 16) by (destruct tagType; cbn; lia).
  unfold Js.sar, Js.and.
  replace (Js.ToUint32 4 mod 32) with 4 by reflexivity.
  rewrite (ToInt32_small (16 * index + tagTypeCode tagType)) by lia.
  rewrite (ToInt32_small 15) by lia.
  split.
  - rewrite Z.shiftr_div_pow2 by lia. change (2 ^ 4) with 16.
    rewrite Z.add_comm, Z.mul_comm, Z.div_add by lia.
    rewrite Z.div_small by lia. lia.
  - change 15 with (Z.ones 4). rewrite Z.land_ones by lia. change (2 ^ 4) with 16.
    rewrite Z.add_comm, Z.mul_comm, Z.mod_add by lia. apply Z.mod_small. lia.
Qed.

Lemma tagTypeOfCode_code (t : TagType) : tagTypeOfCode (tagTypeCode t) = Some t.
Proof. destruct t; reflexivity. Qed.

Lemma appends_writeTag (index : Z) (tagType : TagType) :
  0 <= index < 2 ^ 27 ->
  appends (writeTag index tagType)
          (tagBytes index tagType).
Proof.
  intros H. unfold writeTag, tagBytes. rewrite tag_value by exact H.
  apply appends_writeVaruint.
  assert (Hc : 0 <= tagTypeCode tagType) by (destruct tagType; cbn; lia). lia.
Qed.

(** ** The readers of the data stream *)

Lemma skipn_streamAt (pre bytes post : list Z) :
  skipn (Z.to_nat (_position (streamAt pre bytes post))) (buffer (streamAt pre bytes post))
  = bytes ++ post.
Proof.
  unfold streamAt. cbn [_position buffer]. rewrite Nat2Z.id.
  rewrite skipn_app, skipn_all, Nat.sub_diag. reflexivity.
Qed.

Lemma byteLength_streamAt (pre bytes post : list Z) :
  byteLength (streamAt pre bytes post)
  = Z.of_nat (length pre) + Z.of_nat (length bytes) + Z.of_nat (length post).
Proof. unfold byteLength, streamAt. cbn [buffer]. rewrite !length_app. lia. Qed.

Lemma getUint8_streamAt (pre bytes post : list Z) (i : nat) :
  (i < length bytes)%nat ->
  getUint8 (streamAt pre bytes post) (Z.of_nat (length pre) + Z.of_nat i) = nth i bytes 0.
Proof.
  intros H. unfold getUint8, streamAt. cbn [buffer].
  replace (Z.to_nat (Z.of_nat (length pre) + Z.of_nat i)) with (length pre + i)%nat by lia.
  rewrite app_nth2_plus. now rewrite app_nth1.
Qed.

Lemma decodes_readUint8 (b : Z) : decodes readUint8 [b] b.
Proof.
  intros pre post. unfold readUint8.
  rewrite byteLength_streamAt. cbn [length].
  destruct (_ >? _) eqn:E.
  - rewrite Z.gtb_ltb in E. apply Z.ltb_lt in E. cbn [streamAt _position] in E. lia.
  - pose proof (getUint8_streamAt pre [b] post 0) as G. cbn [length nth] in G.
    rewrite Z.add_0_r in G. cbn [streamAt _position buffer] in *.
    rewrite G by lia. reflexivity.
Qed.

Lemma decodes_readBool (value : bool) :
  decodes readBool [if value then 1 else 0] value.
Proof.
  unfold readBool. change [if value then 1 else 0] with ([if value then 1 else 0] ++ []).
  eapply decodes_bind; [apply decodes_readUint8|].
  replace (negb ((if value then 1 else 0) =? 0)) with value by now destruct value.
  apply decodes_ret.
Qed.

Lemma littleEndianBytes_length (n : nat) (v : Z) : length (littleEndianBytes n v) = n.
Proof. revert v. induction n; intros v; cbn [littleEndianBytes length]; auto. Qed.

Lemma littleEndian_littleEndianBytes (n : nat) (v : Z) :
  littleEndian (littleEndianBytes n v) = v mod 2 ^ (8 * Z.of_nat n).
Proof.
  revert v. induction n as [|n IH]; intros v.
  - cbn [littleEndianBytes littleEndian]. rewrite Z.mul_0_r, Z.pow_0_r, Z.mod_1_r. reflexivity.
  - cbn [littleEndianBytes littleEndian]. rewrite IH.
    replace (8 * Z.of_nat (S n)) with (8 + 8 * Z.of_nat n) by lia.
    rewrite Z.pow_add_r by lia. change (2 ^ 8) with 256.
    rewrite (Z.rem_mul_r v 256 (2 ^ (8 * Z.of_nat n))) by lia. reflexivity.
Qed.

Lemma decodes_readUint32 (v : Z) :
  0 <= v < 2 ^ 32 -> decodes readUint32 (littleEndianBytes 4 v) v.
Proof.
  intros H pre post. unfold readUint32.
  rewrite byteLength_streamAt, littleEndianBytes_length.
  destruct (_ >? _) eqn:E.
  - rewrite Z.gtb_ltb in E. apply Z.ltb_lt in E. cbn [streamAt _position] in E. lia.
  - pose proof (getUint8_streamAt pre (littleEndianBytes 4 v) post) as G.
    rewrite littleEndianBytes_length in G.
    pose proof (G 0%nat) as G0. pose proof (G 1%nat) as G1.
    pose proof (G 2%nat) as G2. pose proof (G 3%nat) as G3.
    cbn [streamAt streamPast _position buffer] in *.
    rewrite Z.add_0_r in G0.
    change (Z.of_nat 1) with 1 in G1. change (Z.of_nat 2) with 2 in G2.
    change (Z.of_nat 3) with 3 in G3.
    rewrite G0, G1, G2, G3 by lia.
    pose proof (littleEndian_littleEndianBytes 4 v) as L.
    unfold streamPast. rewrite littleEndianBytes_length.
    cbn [littleEndianBytes littleEndian nth] in *.
    apply pair_equal_spec; split; [|reflexivity]. f_equal.
    change (8 * Z.of_nat 4) with 32 in L. rewrite (Z.mod_small v (2 ^ 32)) in L by lia.
    lia.
Qed.

Lemma decodes_readFloat64 (v : float64) :
  0 <= v < 2 ^ 64 -> decodes readFloat64 (littleEndianBytes 8 v) v.
Proof.
  intros H pre post. unfold readFloat64.
  rewrite byteLength_streamAt, littleEndianBytes_length.
  destruct (_ >? _) eqn:E.
  - rewrite Z.gtb_ltb in E. apply Z.ltb_lt in E. cbn [streamAt _position] in E. lia.
  - rewrite skipn_streamAt.
    rewrite firstn_app, littleEndianBytes_length, Nat.sub_diag, firstn_O, app_nil_r.
    rewrite firstn_all2 by (rewrite littleEndianBytes_length; lia).
    rewrite littleEndian_littleEndianBytes. change (8 * Z.of_nat 8) with 64.
    rewrite Z.mod_small by lia.
    unfold streamPast, streamAt. cbn [_position buffer].
    rewrite littleEndianBytes_length. reflexivity.
Qed.

Lemma decodes_readBytes (bytes : list Z) :
  decodes (readBytes (Z.of_nat (length bytes))) bytes bytes.
Proof.
  intros pre post. unfold readBytes.
  rewrite byteLength_streamAt.
  destruct (_ >? _) eqn:E.
  - rewrite Z.gtb_ltb in E. apply Z.ltb_lt in E. cbn [streamAt _position] in E. lia.
  - destruct (_ <? 0) eqn:E0; [apply Z.ltb_lt in E0; lia|].
    rewrite skipn_streamAt, Nat2Z.id.
    rewrite firstn_app, Nat.sub_diag, firstn_O, app_nil_r, firstn_all.
    reflexivity.
Qed.

Lemma decodes_readVaruint (n : Z) :
  0 <= n < 2 ^ 32 -> decodes readVaruint (writeVaruint_loop 5 n) (Js.ToInt32 n).
Proof.
  intros H pre post. unfold readVaruint.
  rewrite skipn_streamAt.
  rewrite (readVaruint_loop_write 4 n 0 0 _ post); try lia.
  rewrite Z.mul_1_r, Z.add_0_l. reflexivity.
Qed.

Lemma decodes_readTagValues (index : Z) (tagType : TagType) :
  0 <= index < 2 ^ 27 ->
  decodes _readTagValues (tagBytes index tagType)
          (index, tagType).
Proof.
  intros H.
  assert (Hc : 0 <= tagTypeCode tagType < 16) by (destruct tagType; cbn; lia).
  unfold _readTagValues, tagBytes.
  rewrite <- (app_nil_r (writeVaruint_loop 5 _)).
  eapply decodes_bind; [apply decodes_readVaruint; lia|].
  rewrite ToInt32_small by lia.
  destruct (tag_value_sar index tagType H) as [-> ->].
  rewrite tagTypeOfCode_code. apply decodes_ret.
Qed.

Lemma decodes_readTag (index : Z) (tagType : TagType) :
  0 <= index < 2 ^ 27 ->
  decodes (readTag index tagType)
          (tagBytes index tagType) (index, tagType).
Proof.
  intros H pre post. unfold readTag, bind, tell.
  rewrite (decodes_readTagValues index tagType H pre post).
  rewrite Z.eqb_refl. cbn [negb].
  replace (TagType_eqb tagType tagType) with true by now destruct tagType.
  reflexivity.
Qed.

(** ** The reader *)

Lemma readerPast_At (pre b1 b2 post : list Z) cb warned :
  readerPast pre b1 (b2 ++ post) cb warned = readerAt (pre ++ b1) b2 post cb warned.
Proof. unfold readerPast, readerAt. now rewrite streamPast_At. Qed.

Lemma readerAt_app (pre b1 b2 post : list Z) cb warned :
  readerAt pre (b1 ++ b2) post cb warned = readerAt pre b1 (b2 ++ post) cb warned.
Proof. unfold readerAt. now rewrite streamAt_app. Qed.

Lemma readerPast_app (pre b1 b2 post : list Z) cb warned :
  readerPast pre (b1 ++ b2) post cb warned = readerPast (pre ++ b1) b2 post cb warned.
Proof. unfold readerPast. now rewrite streamPast_app. Qed.

Lemma decodesAfter_ret {A : Type} (pre : list Z) (a : A) : decodesAfter pre (ret a) [] a.
Proof.
  intros post cb warned. unfold ret, readerAt, readerPast. now rewrite streamPast_nil.
Qed.

Lemma decodesAfter_bind {A B : Type} (pre : list Z) (c : M TaggedBlockReader A)
      (k : A -> M TaggedBlockReader B) (b1 b2 : list Z) (a : A) (b : B) :
  decodesAfter pre c b1 a -> decodesAfter (pre ++ b1) (k a) b2 b ->
  decodesAfter pre (let* x := c in k x) (b1 ++ b2) b.
Proof.
  intros H1 H2 post cb warned. unfold bind.
  rewrite readerAt_app, H1, readerPast_At, H2, readerPast_app. reflexivity.
Qed.

Lemma decodesAfter_onData {A : Type} (pre : list Z) (c : M DataStream A)
      (bytes : list Z) (a : A) :
  decodes c bytes a -> decodesAfter pre (onData c) bytes a.
Proof.
  intros H post cb warned. unfold onData, readerAt. cbn [data].
  rewrite H. reflexivity.
Qed.

Lemma decodesAfter_eq {A : Type} (pre : list Z) (c : M TaggedBlockReader A)
      (bytes bytes' : list Z) (a a' : A) :
  decodesAfter pre c bytes a -> bytes = bytes' -> a = a' -> decodesAfter pre c bytes' a'.
Proof. now intros H <- <-. Qed.

Lemma decodesAfter_readInt (pre : list Z) (index value : Z) :
  0 <= index < 2 ^ 27 -> 0 <= value < 2 ^ 32 ->
  decodesAfter pre (readInt index) (intBytes index value) value.
Proof.
  intros Hi Hv. unfold readInt, intBytes.
  eapply decodesAfter_bind.
  - apply decodesAfter_onData, decodes_readTag, Hi.
  - apply decodesAfter_onData, decodes_readUint32, Hv.
Qed.

Lemma decodesAfter_readOptional {A : Type} (pre : list Z)
      (func : Z -> M TaggedBlockReader A) (index : Z) (defaultValue : option A)
      (bytes : list Z) (a : A) :
  decodesAfter pre (func index) bytes a ->
  decodesAfter pre (_readOptional func index defaultValue) bytes (Some a).
Proof. intros H post cb warned. unfold _readOptional. now rewrite H. Qed.

(** An optional field that is not there: the next tag is that of another
    field.  The default is returned and nothing is consumed. *)
Lemma readOptional_absent {A : Type} (pre post : list Z) cb warned
      (body : M TaggedBlockReader A) (index next : Z) (tagType nextType : TagType)
      (defaultValue : option A) :
  0 <= next < 2 ^ 27 -> index <> next ->
  _readOptional (fun i => let* _ := onData (readTag i tagType) in body)
                index defaultValue
                (readerAt pre [] (tagBytes next nextType ++ post) cb warned)
  = (Return defaultValue, readerAt pre [] (tagBytes next nextType ++ post) cb warned).
Proof.
  intros Hn Hne. unfold _readOptional, bind, onData, readerAt. cbn [data].
  change (streamAt pre [] (tagBytes next nextType ++ post))
    with (streamAt pre (tagBytes next nextType) post).
  unfold readTag, bind, tell.
  rewrite (decodes_readTagValues next nextType Hn pre post).
  destruct (Z.eqb_spec next index) as [->|_]; [congruence|].
  cbn [negb]. unfold setPosition, throw. cbn [currentBlock _warnedAboutExtraData].
  cbn [isUnexpectedBlockError orb].
  unfold streamPast, streamAt. cbn [buffer _position]. reflexivity.
Qed.

Lemma decodesAfter_readSubblock (pre : list Z) (index size : Z) :
  0 <= index < 2 ^ 27 -> 0 <= size < 2 ^ 32 ->
  decodesAfter pre (readSubblock index)
    (tagBytes index Length4 ++ littleEndianBytes 4 size)
    {| BlockInfo.offset :=
         Z.of_nat (length pre) + Z.of_nat (length (tagBytes index Length4)) + 4;
       BlockInfo.size := size; BlockInfo.extraData := [] |}.
Proof.
  intros Hi Hs post cb warned. unfold readSubblock, bind.
  rewrite readerAt_app.
  rewrite (decodesAfter_onData pre _ _ _ (decodes_readTag index Length4 Hi)).
  rewrite readerPast_At.
  rewrite (decodesAfter_onData _ _ _ _ (decodes_readUint32 size Hs)).
  rewrite readerPast_app.
  unfold onData, tell, ret, readerPast.
  cbn [data streamPast _position currentBlock _warnedAboutExtraData].
  apply pair_equal_spec; split; [|reflexivity].
  do 2 f_equal. rewrite length_app, littleEndianBytes_length. lia.
Qed.

(** At the end of the sub-block, [endSubblock] has nothing to do. *)
Lemma decodesAfter_endSubblock (pre : list Z) (subblock : BlockInfo.t) :
  BlockInfo.offset subblock + BlockInfo.size subblock = Z.of_nat (length pre) ->
  decodesAfter pre (endSubblock subblock) [] subblock.
Proof.
  intros H post cb warned.
  unfold endSubblock, _checkPosition, bind, onData, tell, readerAt, readerPast.
  cbn [data streamAt streamPast _position currentBlock _warnedAboutExtraData length].
  rewrite H, Z.gtb_ltb, Z.ltb_irrefl.
  unfold ret. now rewrite streamPast_nil.
Qed.

Lemma writeVaruint_loop_length (fuel : nat) :
  forall v, (1 <= length (writeVaruint_loop (S fuel) v) <= S fuel)%nat.
Proof.
  induction fuel as [|fuel IH]; intros v.
  - cbn [writeVaruint_loop]. destruct (negb _); cbn [length]; lia.
  - change (writeVaruint_loop (S (S fuel)) v)
      with (if negb (Js.shr v 7 =? 0)
            then Js.or (Js.and v 0x7F) 0x80 :: writeVaruint_loop (S fuel) (Js.shr v 7)
            else [Js.and v 0x7F]).
    destruct (negb _); cbn [length]; [specialize (IH (Js.shr v 7))|]; lia.
Qed.

Lemma stringBody_length (bytes : list Z) :
  Z.of_nat (length bytes) < 2 ^ 31 ->
  Z.of_nat (length bytes) < Z.of_nat (length (stringBody bytes))
                          <= Z.of_nat (length bytes) + 6.
Proof.
  intros H. unfold stringBody. rewrite !length_app. cbn [length].
  pose proof (writeVaruint_loop_length 4 (Z.of_nat (length bytes))). lia.
Qed.

Lemma decodesAfter_readString (utf8_decode : list Z -> js_string)
      (pre : list Z) (index : Z) (bytes : list Z) :
  0 <= index < 2 ^ 27 -> Z.of_nat (length bytes) < 2 ^ 31 ->
  decodesAfter pre (readString utf8_decode index)
               (subblockBytes index (stringBody bytes)) (utf8_decode bytes).
Proof.
  intros Hi Hn. pose proof (stringBody_length bytes Hn) as Hb.
  unfold readString, subblockBytes.
  eapply decodesAfter_eq.
  - eapply decodesAfter_bind.
    { apply (decodesAfter_readSubblock pre index (Z.of_nat (length (stringBody bytes))));
        [exact Hi|lia]. }
    eapply decodesAfter_bind.
    { apply decodesAfter_onData, (decodes_readVaruint (Z.of_nat (length bytes))). lia. }
    rewrite ToInt32_small by lia.
    eapply decodesAfter_bind; [apply decodesAfter_onData, (decodes_readBool true)|].
    cbn [negb].
    eapply decodesAfter_bind; [apply decodesAfter_onData, decodes_readBytes|].
    eapply decodesAfter_bind; [|apply decodesAfter_ret].
    apply decodesAfter_endSubblock. cbn [BlockInfo.offset BlockInfo.size].
    unfold stringBody. rewrite !length_app, littleEndianBytes_length. cbn [length]. lia.
  - unfold stringBody. rewrite !app_nil_r, <- !app_assoc. reflexivity.
  - reflexivity.
Qed.

Lemma decodesAfter_readRectangles (rectangles : list Rectangle.t) :
  Forall isRectangle rectangles ->
  forall (pre : list Z) (acc : list Rectangle.t),
    decodesAfter pre (readRectangles (length rectangles) acc)
                 (rectanglesBytes rectangles) (acc ++ rectangles).
Proof.
  induction 1 as [|rect rectangles (Hx & Hy & Hw & Hh) _ IH]; intros pre acc.
  - cbn [length readRectangles rectanglesBytes flat_map]. rewrite app_nil_r.
    apply decodesAfter_ret.
  - cbn [length readRectangles rectanglesBytes flat_map].
    eapply decodesAfter_eq.
    + eapply decodesAfter_bind;
        [apply decodesAfter_onData, (decodes_readFloat64 _ Hx)|].
      eapply decodesAfter_bind;
        [apply decodesAfter_onData, (decodes_readFloat64 _ Hy)|].
      eapply decodesAfter_bind;
        [apply decodesAfter_onData, (decodes_readFloat64 _ Hw)|].
      eapply decodesAfter_bind;
        [apply decodesAfter_onData, (decodes_readFloat64 _ Hh)|].
      apply IH.
    + unfold rectangleBytes, rectanglesBytes. rewrite <- !app_assoc. reflexivity.
    + rewrite <- app_assoc. destruct rect; reflexivity.
Qed.

Lemma rectanglesBytes_length (rectangles : list Rectangle.t) :
  length (rectanglesBytes rectangles) = (32 * length rectangles)%nat.
Proof.
  induction rectangles as [|rect rectangles IH]; [reflexivity|].
  unfold rectanglesBytes in *. cbn [flat_map]. rewrite length_app, IH.
  unfold rectangleBytes. rewrite !length_app, !littleEndianBytes_length. cbn [length]. lia.
Qed.

Lemma bind_Return {S A B : Type} (c : M S A) (k : A -> M S B) (s s' : S) (a : A) :
  c s = (Return a, s') -> (let* x := c in k x) s = k a s'.
Proof. intros H. unfold bind. now rewrite H. Qed.

Section GlyphRangeRoundTrip.

Variable utf8_encode : js_string -> list Z.
Variable utf8_decode : list Z -> js_string.

(** What [readGlyphRange] does behind the two optional fields. *)
Lemma decodesAfter_glyphTail (pre : list Z) (glyph : GlyphRange.t)
      (start length_opt : option Z) :
  Z.of_nat (length (utf8_encode (GlyphRange.text glyph))) < 2 ^ 31 ->
  0 <= GlyphRange.color glyph < 2 ^ 32 ->
  Forall isRectangle (GlyphRange.rectangles glyph) ->
  Z.of_nat (length (GlyphRange.rectangles glyph)) < 2 ^ 26 ->
  decodesAfter pre
    (let length := match length_opt with Some v => v | None => 0 end in
     let* colorId := readInt 4 in
     let* text := readString utf8_decode 5 in
     let* subblock := readSubblock 6 in
     let* numRects := onData readVaruint in
     let* rectangles := readRectangles (Z.to_nat numRects) [] in
     let* _ := endSubblock subblock in
     ret (createGlyphRange start
            (if length =? 0 then Z.of_nat (List.length text) else length)
            text colorId rectangles))
    (glyphTailBytes utf8_encode glyph)
    (createGlyphRange start
       (if match length_opt with Some v => v | None => 0 end =? 0
        then Z.of_nat (length (utf8_decode (utf8_encode (GlyphRange.text glyph))))
        else match length_opt with Some v => v | None => 0 end)
       (utf8_decode (utf8_encode (GlyphRange.text glyph)))
       (GlyphRange.color glyph) (GlyphRange.rectangles glyph)).
Proof.
  intros Hlen Hcolor Hrects Hn. cbv zeta.
  pose proof (rectanglesBytes_length (GlyphRange.rectangles glyph)) as Hrl.
  pose proof (writeVaruint_loop_length 4
                (Z.of_nat (length (GlyphRange.rectangles glyph)))) as Hvl.
  assert (H26 : 2 ^ 26 = 67108864) by reflexivity.
  assert (H31 : 2 ^ 31 = 2147483648) by reflexivity.
  assert (H32 : 2 ^ 32 = 4294967296) by reflexivity.
  unfold glyphTailBytes.
  eapply decodesAfter_eq.
  - eapply decodesAfter_bind.
    { apply (decodesAfter_readInt pre 4 (GlyphRange.color glyph)); [lia|exact Hcolor]. }
    eapply decodesAfter_bind.
    { apply (decodesAfter_readString utf8_decode _ 5
               (utf8_encode (GlyphRange.text glyph))); [lia|exact Hlen]. }
    eapply decodesAfter_bind.
    { apply (decodesAfter_readSubblock _ 6
               (Z.of_nat (length
                  (writeVaruint_loop 5 (Z.of_nat (length (GlyphRange.rectangles glyph)))
                   ++ rectanglesBytes (GlyphRange.rectangles glyph))))); [lia|].
      rewrite length_app, Hrl. lia. }
    eapply decodesAfter_bind.
    { apply decodesAfter_onData,
        (decodes_readVaruint (Z.of_nat (length (GlyphRange.rectangles glyph)))). lia. }
    rewrite ToInt32_small by lia. rewrite Nat2Z.id.
    eapply decodesAfter_bind.
    { apply (decodesAfter_readRectangles _ Hrects). }
    eapply decodesAfter_bind; [|apply decodesAfter_ret].
    apply decodesAfter_endSubblock. cbn [BlockInfo.offset BlockInfo.size].
    rewrite !length_app, littleEndianBytes_length. lia.
  - unfold subblockBytes. rewrite !app_nil_r, <- !app_assoc. reflexivity.
  - reflexivity.
Qed.

(** The bytes of a glyph range with a start ... *)
Lemma decodesAfter_readGlyphRange_start (pre : list Z) (glyph : GlyphRange.t) (start : Z) :
  GlyphRange.start glyph = Some start ->
  0 <= start < 2 ^ 32 -> 0 <= GlyphRange.length glyph < 2 ^ 32 ->
  Z.of_nat (length (utf8_encode (GlyphRange.text glyph))) < 2 ^ 31 ->
  0 <= GlyphRange.color glyph < 2 ^ 32 ->
  Forall isRectangle (GlyphRange.rectangles glyph) ->
  Z.of_nat (length (GlyphRange.rectangles glyph)) < 2 ^ 26 ->
  decodesAfter pre (readGlyphRange utf8_decode) (glyphBytes utf8_encode glyph)
    (createGlyphRange (Some start)
       (if GlyphRange.length glyph =? 0
        then Z.of_nat (length (utf8_decode (utf8_encode (GlyphRange.text glyph)))) else GlyphRange.length glyph)
       (utf8_decode (utf8_encode (GlyphRange.text glyph)))
       (GlyphRange.color glyph) (GlyphRange.rectangles glyph)).
Proof.
  intros Hs Hstart Hlength Hlen Hcolor Hrects Hn.
  unfold readGlyphRange, glyphBytes. rewrite Hs.
  eapply decodesAfter_eq.
  - eapply decodesAfter_bind.
    { apply decodesAfter_readOptional, (decodesAfter_readInt pre 2 start); [lia|exact Hstart]. }
    eapply decodesAfter_bind.
    { apply decodesAfter_readOptional,
        (decodesAfter_readInt _ 3 (GlyphRange.length glyph)); [lia|exact Hlength]. }
    apply (decodesAfter_glyphTail _ glyph (Some start) (Some (GlyphRange.length glyph)));
      assumption.
  - rewrite <- !app_assoc. reflexivity.
  - reflexivity.
Qed.

(** ... and without: the two optional reads find the tag of field 4. *)
Lemma decodesAfter_readGlyphRange_no_start (pre : list Z) (glyph : GlyphRange.t) :
  GlyphRange.start glyph = None ->
  Z.of_nat (length (utf8_encode (GlyphRange.text glyph))) < 2 ^ 31 ->
  0 <= GlyphRange.color glyph < 2 ^ 32 ->
  Forall isRectangle (GlyphRange.rectangles glyph) ->
  Z.of_nat (length (GlyphRange.rectangles glyph)) < 2 ^ 26 ->
  decodesAfter pre (readGlyphRange utf8_decode) (glyphBytes utf8_encode glyph)
    (createGlyphRange None (Z.of_nat (length (utf8_decode (utf8_encode (GlyphRange.text glyph)))))
       (utf8_decode (utf8_encode (GlyphRange.text glyph)))
       (GlyphRange.color glyph) (GlyphRange.rectangles glyph)).
Proof.
  intros Hs Hlen Hcolor Hrects Hn post cb warned.
  unfold readGlyphRange, glyphBytes. rewrite Hs. cbn [app].
  assert (Habsent : forall index, index <> 4 ->
            readIntOptional index None
              (readerAt pre (glyphTailBytes utf8_encode glyph) post cb warned)
            = (Return None,
               readerAt pre (glyphTailBytes utf8_encode glyph) post cb warned)).
  { intros index Hne. unfold glyphTailBytes, intBytes.
    rewrite <- !app_assoc, readerAt_app.
    apply (readOptional_absent pre _ cb warned (onData readUint32) index 4 Byte4 Byte4 None);
      [lia|exact Hne]. }
  rewrite (bind_Return _ _ _ _ _ (Habsent 2 ltac:(lia))).
  rewrite (bind_Return _ _ _ _ _ (Habsent 3 ltac:(lia))).
  apply (decodesAfter_glyphTail pre glyph None None); assumption.
Qed.

End GlyphRangeRoundTrip.

(** ** The writer *)

Lemma inBounds_forWriting (capacity : Z) :
  inBounds (forWriting capacity) /\ getBytes (forWriting capacity) = [].
Proof.
  unfold inBounds, forWriting, newDataStream, byteLength, getBytes.
  cbn [_position buffer]. split; [lia|reflexivity].
Qed.

Lemma appendsW_ret : appendsW (ret tt) [].
Proof. intros w Hw. exists w. now rewrite app_nil_r. Qed.

Lemma appendsW_bind (c1 c2 : M TaggedBlockWriter.t unit) (b1 b2 : list Z) :
  appendsW c1 b1 -> appendsW c2 b2 -> appendsW (let* _ := c1 in c2) (b1 ++ b2).
Proof.
  intros H1 H2 w Hw.
  destruct (H1 w Hw) as (w1 & E1 & G1 & B1 & I1).
  destruct (H2 w1 B1) as (w2 & E2 & G2 & B2 & I2).
  exists w2. unfold bind. rewrite E1, E2, G2, G1, app_assoc, I2, I1. auto.
Qed.

Lemma appendsW_onWriterData (c : M DataStream unit) (bytes : list Z) :
  appends c bytes -> appendsW (onWriterData c) bytes.
Proof.
  intros H w Hw. destruct (H _ Hw) as (s' & E & G & B).
  exists {| TaggedBlockWriter.data := s';
            TaggedBlockWriter._inBlock := TaggedBlockWriter._inBlock w |}.
  unfold onWriterData. rewrite E. auto.
Qed.

Lemma appendsW_eq (c : M TaggedBlockWriter.t unit) (bytes bytes' : list Z) :
  appendsW c bytes -> bytes = bytes' -> appendsW c bytes'.
Proof. now intros H <-. Qed.

Lemma appendsW_writeInt (index value : Z) :
  0 <= index < 2 ^ 27 -> 0 <= value < 2 ^ 32 ->
  appendsW (writeInt index value) (intBytes index value).
Proof.
  intros Hi Hv. unfold writeInt, intBytes.
  apply appendsW_bind.
  - apply appendsW_onWriterData, appends_writeTag, Hi.
  - rewrite <- (ToUint32_small value Hv) at 2.
    apply appendsW_onWriterData, appends_writeUint32.
Qed.

Lemma appendsW_withSubblock (index : Z) (body : M TaggedBlockWriter.t unit)
      (bytes : list Z) :
  0 <= index < 2 ^ 27 -> Z.of_nat (length bytes) < 2 ^ 32 ->
  appendsW body bytes -> appendsW (withSubblock index body) (subblockBytes index bytes).
Proof.
  intros Hi Hn Hbody w Hw.
  destruct (inBounds_forWriting 1024) as [Hf Hg].
  destruct (Hbody {| TaggedBlockWriter.data := forWriting 1024;
                     TaggedBlockWriter._inBlock := TaggedBlockWriter._inBlock w |} Hf)
    as (w1 & E1 & G1 & _ & I1).
  cbn [TaggedBlockWriter.data TaggedBlockWriter._inBlock] in G1, I1.
  rewrite Hg in G1. cbn [app] in G1.
  assert (Hend : appendsW
            (let* _ := onWriterData (writeTag index Length4) in
             let* _ := onWriterData (writeUint32 (Z.of_nat (length bytes))) in
             let* _ := onWriterData (writeBytes bytes) in
             ret tt)
            (subblockBytes index bytes)).
  { unfold subblockBytes. eapply appendsW_eq.
    - apply appendsW_bind; [apply appendsW_onWriterData, appends_writeTag, Hi|].
      apply appendsW_bind; [apply appendsW_onWriterData, appends_writeUint32|].
      apply appendsW_bind; [apply appendsW_onWriterData, appends_writeBytes|].
      apply appendsW_ret.
    - rewrite ToUint32_small by lia. now rewrite app_nil_r. }
  destruct (Hend {| TaggedBlockWriter.data := TaggedBlockWriter.data w;
                    TaggedBlockWriter._inBlock := TaggedBlockWriter._inBlock w1 |} Hw)
    as (w2 & E2 & G2 & B2 & I2).
  exists w2. unfold withSubblock. rewrite E1, G1, E2.
  cbn [TaggedBlockWriter.data TaggedBlockWriter._inBlock] in *.
  rewrite I2, I1. auto.
Qed.

Lemma appendsW_writeString (utf8_encode : js_string -> list Z) (index : Z)
      (value : js_string) :
  0 <= index < 2 ^ 27 -> Z.of_nat (length (utf8_encode value)) < 2 ^ 31 ->
  appendsW (writeString utf8_encode index value)
           (subblockBytes index (stringBody (utf8_encode value))).
Proof.
  intros Hi Hn. unfold writeString. cbv zeta.
  pose proof (stringBody_length (utf8_encode value) Hn).
  assert (H31 : 2 ^ 31 = 2147483648) by reflexivity.
  assert (H32 : 2 ^ 32 = 4294967296) by reflexivity.
  apply appendsW_withSubblock; [exact Hi|lia|].
  unfold stringBody.
  apply appendsW_bind; [apply appendsW_onWriterData, appends_writeVaruint; lia|].
  apply appendsW_bind; [apply appendsW_onWriterData, (appends_writeBool true)|].
  apply appendsW_onWriterData, appends_writeBytes.
Qed.

Lemma appendsW_writeRectangles (rectangles : list Rectangle.t) :
  appendsW (writeRectangles rectangles) (rectanglesBytes rectangles).
Proof.
  induction rectangles as [|rect rectangles IH].
  - apply appendsW_ret.
  - cbn [writeRectangles]. unfold rectanglesBytes. cbn [flat_map]. unfold rectangleBytes.
    rewrite <- !app_assoc.
    repeat (apply appendsW_bind; [apply appendsW_onWriterData, appends_writeFloat64|]).
    exact IH.
Qed.

Lemma appendsW_writeGlyphRange (utf8_encode : js_string -> list Z) (glyph : GlyphRange.t) :
  match GlyphRange.start glyph with
  | Some start => 0 <= start < 2 ^ 32 /\ 0 <= GlyphRange.length glyph < 2 ^ 32
  | None => True
  end ->
  Z.of_nat (length (utf8_encode (GlyphRange.text glyph))) < 2 ^ 31 ->
  0 <= GlyphRange.color glyph < 2 ^ 32 ->
  Z.of_nat (length (GlyphRange.rectangles glyph)) < 2 ^ 26 ->
  appendsW (writeGlyphRange utf8_encode glyph) (glyphBytes utf8_encode glyph).
Proof.
  intros Hstart Hlen Hcolor Hn. unfold writeGlyphRange, glyphBytes, glyphTailBytes.
  pose proof (rectanglesBytes_length (GlyphRange.rectangles glyph)) as Hrl.
  pose proof (writeVaruint_loop_length 4
                (Z.of_nat (length (GlyphRange.rectangles glyph)))) as Hvl.
  assert (H26 : 2 ^ 26 = 67108864) by reflexivity.
  assert (H32 : 2 ^ 32 = 4294967296) by reflexivity.
  apply appendsW_bind.
  { destruct (GlyphRange.start glyph) as [start|].
    - destruct Hstart as [Hs Hl].
      apply appendsW_bind; apply appendsW_writeInt; lia || assumption.
    - apply appendsW_ret. }
  apply appendsW_bind; [apply appendsW_writeInt; [lia|exact Hcolor]|].
  apply appendsW_bind; [apply appendsW_writeString; [lia|exact Hlen]|].
  apply appendsW_withSubblock; [lia|rewrite length_app, Hrl; lia|].
  apply appendsW_bind; [apply appendsW_onWriterData, appends_writeVaruint; lia|].
  apply appendsW_writeRectangles.
Qed.

Lemma newTaggedBlockReader_readerAt (bytes : list Z) :
  newTaggedBlockReader bytes = readerAt [] bytes [] None false.
Proof.
  unfold newTaggedBlockReader, newDataStream, readerAt, streamAt.
  cbn [app length]. now rewrite app_nil_r.
Qed.

Lemma readerPast_end (bytes : list Z) cb warned :
  _position (data (readerPast [] bytes [] cb warned))
  = byteLength (data (readerPast [] bytes [] cb warned)).
Proof.
  unfold readerPast, streamPast, byteLength. cbn [data _position buffer app length].
  rewrite app_nil_r. lia.
Qed.

(** X18.  What [readGlyphRange] returns for what [writeGlyphRange] wrote: the
    start, the colour and the rectangles as they were, the text as the
    decoder returns the encoder's bytes, and as length the written length
    only if there was a start and the length was not 0, else the length of
    the decoded text.  All the bytes are consumed. *)
Theorem writeGlyphRange_readGlyphRange
        (utf8_encode : js_string -> list Z) (utf8_decode : list Z -> js_string)
        (glyph : GlyphRange.t) :
  Z.of_nat (length (utf8_encode (GlyphRange.text glyph))) < 2 ^ 31 ->
  match GlyphRange.start glyph with
  | Some start => 0 <= start < 2 ^ 32 /\ 0 <= GlyphRange.length glyph < 2 ^ 32
  | None => True
  end ->
  0 <= GlyphRange.color glyph < 2 ^ 32 ->
  Forall isRectangle (GlyphRange.rectangles glyph) ->
  Z.of_nat (length (GlyphRange.rectangles glyph)) < 2 ^ 26 ->
  let text := utf8_decode (utf8_encode (GlyphRange.text glyph)) in
  exists w r,
    writeGlyphRange utf8_encode glyph newTaggedBlockWriter = (Return tt, w)
    /\ readGlyphRange utf8_decode
         (newTaggedBlockReader (getBytes (TaggedBlockWriter.data w)))
       = (Return
            (createGlyphRange
               (GlyphRange.start glyph)
               (match GlyphRange.start glyph with
                | Some _ =>
                    if GlyphRange.length glyph =? 0
                    then Z.of_nat (length text)
                    else GlyphRange.length glyph
                | None => Z.of_nat (length text)
                end)
               text (GlyphRange.color glyph) (GlyphRange.rectangles glyph)),
          r)
    /\ _position (data r) = byteLength (data r).
Proof.
  intros Hlen Hstart Hcolor Hrects Hn text.
  destruct (inBounds_forWriting 1024) as [Hf Hg].
  destruct (appendsW_writeGlyphRange utf8_encode glyph Hstart Hlen Hcolor Hn
              newTaggedBlockWriter Hf) as (w & Ew & Gw & _).
  cbn [newTaggedBlockWriter TaggedBlockWriter.data] in Gw. rewrite Hg in Gw.
  cbn [app] in Gw.
  exists w, (readerPast [] (glyphBytes utf8_encode glyph) [] None false).
  split; [exact Ew|]. rewrite Gw, newTaggedBlockReader_readerAt. split.
  - destruct (GlyphRange.start glyph) as [start|] eqn:Hs.
    + destruct Hstart as [Hs1 Hl].
      now apply (decodesAfter_readGlyphRange_start utf8_encode utf8_decode [] glyph start).
    + now apply (decodesAfter_readGlyphRange_no_start utf8_encode utf8_decode [] glyph).
  - apply readerPast_end.
Qed.

(** The glyph range of C5, with one rectangle: the length 0 comes back as
    the length of the text. *)
Lemma writeGlyphRange_readGlyphRange_witness :
  exists w r,
    writeGlyphRange (fun s => s)
      (createGlyphRange (Some 5) 0 [97; 98] 9 [createRectangle 1 2 3 4])
      newTaggedBlockWriter = (Return tt, w)
    /\ readGlyphRange (fun bytes => bytes)
         (newTaggedBlockReader (getBytes (TaggedBlockWriter.data w)))
       = (Return (createGlyphRange (Some 5) 2 [97; 98] 9 [createRectangle 1 2 3 4]), r)
    /\ _position (data r) = byteLength (data r).
Proof.
  apply (writeGlyphRange_readGlyphRange (fun s => s) (fun bytes => bytes)
           (createGlyphRange (Some 5) 0 [97; 98] 9 [createRectangle 1 2 3 4])).
  - simpl. lia.
  - simpl. lia.
  - simpl. lia.
  - repeat constructor; simpl; lia.
  - simpl. lia.
Defined.

(** X19.  A string written by [writeString] is read by [readString] as the
    decoder returns the encoder's bytes, and all the bytes are consumed. *)
Theorem writeString_readString
        (utf8_encode : js_string -> list Z) (utf8_decode : list Z -> js_string)
        (index : Z) (value : js_string) :
  0 <= index < 2 ^ 27 ->
  Z.of_nat (length (utf8_encode value)) < 2 ^ 31 ->
  exists w r,
    writeString utf8_encode index value newTaggedBlockWriter = (Return tt, w)
    /\ readString utf8_decode index
         (newTaggedBlockReader (getBytes (TaggedBlockWriter.data w)))
       = (Return (utf8_decode (utf8_encode value)), r)
    /\ _position (data r) = byteLength (data r).
Proof.
  intros Hi Hn.
  destruct (inBounds_forWriting 1024) as [Hf Hg].
  destruct (appendsW_writeString utf8_encode index value Hi Hn newTaggedBlockWriter Hf)
    as (w & Ew & Gw & _).
  cbn [newTaggedBlockWriter TaggedBlockWriter.data] in Gw. rewrite Hg in Gw.
  cbn [app] in Gw.
  exists w, (readerPast [] (subblockBytes index (stringBody (utf8_encode value)))
                        [] None false).
  split; [exact Ew|]. rewrite Gw, newTaggedBlockReader_readerAt. split.
  - now apply decodesAfter_readString.
  - apply readerPast_end.
Qed.

(** The string ab in field 5. *)
Lemma writeString_readString_witness :
  exists w r,
    writeString (fun s => s) 5 [97; 98] newTaggedBlockWriter = (Return tt, w)
    /\ readString (fun bytes => bytes) 5
         (newTaggedBlockReader (getBytes (TaggedBlockWriter.data w)))
       = (Return [97; 98], r)
    /\ _position (data r) = byteLength (data r).
Proof.
  apply (writeString_readString (fun s => s) (fun bytes => bytes) 5 [97; 98]);
    simpl; lia.
Defined.

(** X20.  [writeInt] stores a value modulo 2^32, and [readInt] reads that back:
    a value in [0, 2^32) makes the round trip unchanged. *)
Theorem writeInt_readInt (index value : Z) :
  0 <= index < 2 ^ 27 ->
  exists w r,
    writeInt index value newTaggedBlockWriter = (Return tt, w)
    /\ readInt index (newTaggedBlockReader (getBytes (TaggedBlockWriter.data w)))
       = (Return (value mod 2 ^ 32), r)
    /\ _position (data r) = byteLength (data r).
Proof.
  intros Hi.
  assert (Hv : 0 <= Js.ToUint32 value < 2 ^ 32) by (apply Z.mod_pos_bound; lia).
  assert (Hw : appendsW (writeInt index value) (intBytes index (Js.ToUint32 value))).
  { unfold writeInt, intBytes. apply appendsW_bind.
    - apply appendsW_onWriterData, appends_writeTag, Hi.
    - apply appendsW_onWriterData, appends_writeUint32. }
  destruct (inBounds_forWriting 1024) as [Hf Hg].
  destruct (Hw newTaggedBlockWriter Hf) as (w & Ew & Gw & _).
  cbn [newTaggedBlockWriter TaggedBlockWriter.data] in Gw. rewrite Hg in Gw.
  cbn [app] in Gw.
  exists w, (readerPast [] (intBytes index (Js.ToUint32 value)) [] None false).
  split; [exact Ew|]. rewrite Gw, newTaggedBlockReader_readerAt. split.
  - now apply decodesAfter_readInt.
  - apply readerPast_end.
Qed.

(** -1 in field 3 is read back as 2^32 - 1. *)
Lemma writeInt_readInt_witness :
  exists w r,
    writeInt 3 (-1) newTaggedBlockWriter = (Return tt, w)
    /\ readInt 3 (newTaggedBlockReader (getBytes (TaggedBlockWriter.data w)))
       = (Return ((-1) mod 2 ^ 32), r)
    /\ _position (data r) = byteLength (data r).
Proof. apply (writeInt_readInt 3 (-1)). lia. Defined.

(** X21.  A tag written by [writeTag] is accepted by [readTag] and by [checkTag]
    with the same index and type; [readTag] consumes exactly the tag. *)
Theorem writeTag_readTag (index : Z) (tagType : TagType) :
  0 <= index < 2 ^ 27 ->
  exists s s',
    writeTag index tagType (forWriting 1024) = (Return tt, s)
    /\ readTag index tagType (newDataStream (getBytes s)) = (Return (index, tagType), s')
    /\ _position s' = byteLength s'
    /\ checkTag index tagType (newDataStream (getBytes s))
       = (Return true, newDataStream (getBytes s)).
Proof.
  intros Hi.
  destruct (inBounds_forWriting 1024) as [Hf Hg].
  destruct (appends_writeTag index tagType Hi _ Hf) as (s & Es & Gs & _).
  rewrite Hg in Gs. cbn [app] in Gs.
  exists s, (streamPast [] (tagBytes index tagType) []).
  split; [exact Es|]. rewrite Gs.
  assert (Hs : newDataStream (tagBytes index tagType)
               = streamAt [] (tagBytes index tagType) []).
  { unfold newDataStream, streamAt. cbn [app length]. now rewrite app_nil_r. }
  rewrite Hs. split; [apply decodes_readTag, Hi|]. split.
  - unfold streamPast, byteLength. cbn [_position buffer app length].
    rewrite app_nil_r. lia.
  - unfold checkTag. rewrite (decodes_readTagValues index tagType Hi [] []).
    rewrite Z.eqb_refl. replace (TagType_eqb tagType tagType) with true by now destruct tagType.
    reflexivity.
Qed.

(** The tag of field 6 of a glyph range. *)
Lemma writeTag_readTag_witness :
  exists s s',
    writeTag 6 Length4 (forWriting 1024) = (Return tt, s)
    /\ readTag 6 Length4 (newDataStream (getBytes s)) = (Return (6, Length4), s')
    /\ _position s' = byteLength s'
    /\ checkTag 6 Length4 (newDataStream (getBytes s))
       = (Return true, newDataStream (getBytes s)).
Proof. apply (writeTag_readTag 6 Length4). lia. Defined.

(* ===================================================================== *)
(** * The framing of blocks, the header, ids *)
(* ===================================================================== *)

(** ** The block header *)

Lemma lift_Return {S A : Type} (c : M S A) (s s' : S) (a : A) :
  c s = (Return a, s') -> lift c s = (Ok a, s').
Proof. intros H. unfold lift. now rewrite H. Qed.

Lemma lift_Throw {S A : Type} (c : M S A) (s s' : S) (e : exn) :
  c s = (Throw e, s') -> lift c s = (Err (Exn e), s').
Proof. intros H. unfold lift. now rewrite H. Qed.

Lemma bindX_Ok {S A B : Type} (c : MX S A) (k : A -> MX S B) (s s' : S) (a : A) :
  c s = (Ok a, s') -> (let+ x := c in k x) s = k a s'.
Proof. intros H. unfold bindX. now rewrite H. Qed.

Lemma bindX_Err {S A B : Type} (c : MX S A) (k : A -> MX S B) (s s' : S) (e : error) :
  c s = (Err e, s') -> (let+ x := c in k x) s = (Err e, s').
Proof. intros H. unfold bindX. now rewrite H. Qed.

Lemma decodesAfter_header (pre : list Z) (size unknown minVersion currentVersion blockType : Z) :
  0 <= size < 2 ^ 32 ->
  decodesAfter pre
    (let* blockLength := onData readUint32 in
     let* unknown := onData readUint8 in
     let* minVersion := onData readUint8 in
     let* currentVersion := onData readUint8 in
     let* blockType := onData readUint8 in
     ret (blockLength, unknown, minVersion, currentVersion, blockType))
    (littleEndianBytes 4 size ++ [unknown; minVersion; currentVersion; blockType])
    (size, unknown, minVersion, currentVersion, blockType).
Proof.
  intros Hs.
  eapply decodesAfter_eq.
  - eapply decodesAfter_bind; [apply decodesAfter_onData, decodes_readUint32, Hs|].
    eapply decodesAfter_bind; [apply decodesAfter_onData, decodes_readUint8|].
    eapply decodesAfter_bind; [apply decodesAfter_onData, decodes_readUint8|].
    eapply decodesAfter_bind; [apply decodesAfter_onData, decodes_readUint8|].
    eapply decodesAfter_bind; [apply decodesAfter_onData, decodes_readUint8|].
    apply decodesAfter_ret.
  - reflexivity.
  - reflexivity.
Qed.

Lemma TaggedBlockReader_readBlock_header
      (pre post : list Z) (warned : bool) (size minVersion currentVersion blockType : Z) :
  0 <= size < 2 ^ 32 ->
  let info :=
    {| mainInfo := {| BlockInfo.offset := Z.of_nat (length pre) + 8;
                      BlockInfo.size := size; BlockInfo.extraData := [] |};
       blockType := blockType; minVersion := minVersion;
       currentVersion := currentVersion |} in
  TaggedBlockReader_readBlock
    (readerAt pre (headerBytes size minVersion currentVersion blockType) post None warned)
  = (Ok (Some info),
     readerPast pre (headerBytes size minVersion currentVersion blockType) post
                (Some info) warned).
Proof.
  intros Hs info. unfold TaggedBlockReader_readBlock, headerBytes.
  cbn [currentBlock readerAt].
  pose proof (decodesAfter_header pre size 0 minVersion currentVersion blockType Hs
                post None warned) as H.
  rewrite H. cbn [negb Z.eqb].
  unfold readerPast, streamPast.
  cbn [data _position currentBlock _warnedAboutExtraData].
  rewrite length_app, littleEndianBytes_length. cbn [length].
  subst info. repeat f_equal; lia.
Qed.

(** What [TaggedBlockReader.readBlock] does, outside a block: with fewer
    than eight bytes left it returns [null], with eight bytes or more it
    decodes them, and throws if the fifth is not 0. *)
Lemma TaggedBlockReader_readBlock_spec (r : TaggedBlockReader) :
  currentBlock r = None ->
  let pos := _position (data r) in
  let byte (i : Z) := getUint8 (data r) (pos + i) in
  (byteLength (data r) - pos < 8 ->
   exists pos',
     TaggedBlockReader_readBlock r
     = (Ok None, {| data := {| buffer := buffer (data r); _position := pos' |};
                    currentBlock := None;
                    _warnedAboutExtraData := _warnedAboutExtraData r |})
     /\ pos <= pos' <= pos + 7)
  /\ (8 <= byteLength (data r) - pos ->
      let info :=
        {| mainInfo :=
             {| BlockInfo.offset := pos + 8;
                BlockInfo.size := byte 0 + 2 ^ 8 * byte 1 + 2 ^ 16 * byte 2 + 2 ^ 24 * byte 3;
                BlockInfo.extraData := [] |};
           blockType := byte 7; minVersion := byte 5; currentVersion := byte 6 |} in
      TaggedBlockReader_readBlock r
      = if byte 4 =? 0
        then (Ok (Some info),
              {| data := {| buffer := buffer (data r); _position := pos + 8 |};
                 currentBlock := Some info;
                 _warnedAboutExtraData := _warnedAboutExtraData r |})
        else (Err (Error_ExpectedUnknownByte (byte 4)),
              {| data := {| buffer := buffer (data r); _position := pos + 8 |};
                 currentBlock := None;
                 _warnedAboutExtraData := _warnedAboutExtraData r |})).
Proof.
  intros Hcb pos byte. subst pos byte.
  destruct r as [[buf p] cb warned]. cbn [currentBlock data _position buffer
                                           _warnedAboutExtraData] in *. subst cb.
  unfold TaggedBlockReader_readBlock, bind, onData, ret, readUint32, readUint8, byteLength,
    getUint8.
  cbn [currentBlock data _position buffer _warnedAboutExtraData].
  split; intros H.
  - destruct (Z.gtb_spec (p + 4) (Z.of_nat (length buf))); cbn [isEOF].
    { exists p. split; [reflexivity|lia]. }
    cbn [currentBlock data _position buffer _warnedAboutExtraData].
    destruct (Z.gtb_spec (p + 4 + 1) (Z.of_nat (length buf))); cbn [isEOF].
    { exists (p + 4). split; [reflexivity|lia]. }
    cbn [currentBlock data _position buffer _warnedAboutExtraData].
    destruct (Z.gtb_spec (p + 4 + 1 + 1) (Z.of_nat (length buf))); cbn [isEOF].
    { exists (p + 4 + 1). split; [reflexivity|lia]. }
    cbn [currentBlock data _position buffer _warnedAboutExtraData].
    destruct (Z.gtb_spec (p + 4 + 1 + 1 + 1) (Z.of_nat (length buf))); cbn [isEOF].
    { exists (p + 4 + 1 + 1). split; [reflexivity|lia]. }
    cbn [currentBlock data _position buffer _warnedAboutExtraData].
    destruct (Z.gtb_spec (p + 4 + 1 + 1 + 1 + 1) (Z.of_nat (length buf))); cbn [isEOF].
    { exists (p + 4 + 1 + 1 + 1). split; [reflexivity|lia]. }
    lia.
  - destruct (Z.gtb_spec (p + 4) (Z.of_nat (length buf))); [lia|].
    cbn [currentBlock data _position buffer _warnedAboutExtraData].
    destruct (Z.gtb_spec (p + 4 + 1) (Z.of_nat (length buf))); [lia|].
    cbn [currentBlock data _position buffer _warnedAboutExtraData].
    destruct (Z.gtb_spec (p + 4 + 1 + 1) (Z.of_nat (length buf))); [lia|].
    cbn [currentBlock data _position buffer _warnedAboutExtraData].
    destruct (Z.gtb_spec (p + 4 + 1 + 1 + 1) (Z.of_nat (length buf))); [lia|].
    cbn [currentBlock data _position buffer _warnedAboutExtraData].
    destruct (Z.gtb_spec (p + 4 + 1 + 1 + 1 + 1) (Z.of_nat (length buf))); [lia|].
    cbn [currentBlock data _position buffer _warnedAboutExtraData].
    replace (p + 4 + 1) with (p + 5) by lia.
    replace (p + 5 + 1) with (p + 6) by lia.
    replace (p + 6 + 1) with (p + 7) by lia.
    replace (p + 7 + 1) with (p + 8) by lia.
    rewrite Z.add_0_r.
    destruct (nth (Z.to_nat (p + 4)) buf 0 =? 0); reflexivity.
Qed.

(** ** Blocks *)

Lemma _checkPosition_inside (blockInfo : BlockInfo.t) (r : TaggedBlockReader) :
  _position (data r) <= BlockInfo.offset blockInfo + BlockInfo.size blockInfo
                     <= byteLength (data r) ->
  exists blockInfo' warned,
    _checkPosition blockInfo r
    = (Return blockInfo',
       {| data := {| buffer := buffer (data r);
                     _position := BlockInfo.offset blockInfo + BlockInfo.size blockInfo |};
          currentBlock := currentBlock r; _warnedAboutExtraData := warned |}).
Proof.
  intros H. destruct r as [[buf p] cb warned].
  cbn [data _position buffer] in H. unfold byteLength in H. cbn [buffer] in H.
  unfold _checkPosition, bind, onData, tell, throw, ret, readBytes, byteLength.
  cbn [data _position buffer currentBlock _warnedAboutExtraData].
  destruct (Z.gtb_spec p (BlockInfo.offset blockInfo + BlockInfo.size blockInfo)); [lia|].
  destruct (Z.ltb_spec p (BlockInfo.offset blockInfo + BlockInfo.size blockInfo)).
  - cbn [data _position buffer currentBlock _warnedAboutExtraData].
    destruct (Z.gtb_spec (p + (BlockInfo.offset blockInfo + BlockInfo.size blockInfo - p))
                         (Z.of_nat (length buf))); [lia|].
    destruct (Z.ltb_spec (BlockInfo.offset blockInfo + BlockInfo.size blockInfo - p) 0);
      [lia|].
    do 2 eexists. cbn [data _position buffer currentBlock _warnedAboutExtraData].
    apply pair_equal_spec. split; [reflexivity|]. do 2 f_equal. lia.
  - do 2 eexists. apply pair_equal_spec. split; [reflexivity|]. do 2 f_equal. lia.
Qed.

Lemma _checkPosition_overflow (blockInfo : BlockInfo.t) (r : TaggedBlockReader) :
  BlockInfo.offset blockInfo + BlockInfo.size blockInfo < _position (data r) ->
  _checkPosition blockInfo r
  = (Throw (BlockOverflowError (BlockInfo.offset blockInfo) (BlockInfo.size blockInfo)
                               (_position (data r))), r).
Proof.
  intros H. destruct r as [[buf p] cb warned]. cbn [data _position] in H.
  unfold _checkPosition, bind, onData, tell, throw.
  cbn [data _position buffer currentBlock _warnedAboutExtraData].
  destruct (Z.gtb_spec p (BlockInfo.offset blockInfo + BlockInfo.size blockInfo)); [|lia].
  reflexivity.
Qed.

Lemma endBlock_inside (info : MainBlockInfo) (r : TaggedBlockReader) :
  currentBlock r = Some info ->
  _position (data r) <= BlockInfo.offset (mainInfo info) + BlockInfo.size (mainInfo info)
                     <= byteLength (data r) ->
  exists warned,
    endBlock r
    = (Ok tt,
       {| data := {| buffer := buffer (data r);
                     _position := BlockInfo.offset (mainInfo info)
                                  + BlockInfo.size (mainInfo info) |};
          currentBlock := None; _warnedAboutExtraData := warned |}).
Proof.
  intros Hcb H. destruct (_checkPosition_inside (mainInfo info) r H) as (i' & warned & E).
  exists warned. unfold endBlock. rewrite Hcb, E. reflexivity.
Qed.

Lemma endBlock_overflow (info : MainBlockInfo) (r : TaggedBlockReader) :
  currentBlock r = Some info ->
  BlockInfo.offset (mainInfo info) + BlockInfo.size (mainInfo info) < _position (data r) ->
  exists e, endBlock r = (Err e, r).
Proof.
  intros Hcb H. unfold endBlock. rewrite Hcb, (_checkPosition_overflow _ _ H). eauto.
Qed.

(** The [catch] of [readBlock]. *)
Lemma readBlock_catch (info : MainBlockInfo) (r : TaggedBlockReader) :
  currentBlock r = Some info ->
  0 <= BlockInfo.offset (mainInfo info) -> 0 <= BlockInfo.size (mainInfo info) ->
  BlockInfo.offset (mainInfo info) + BlockInfo.size (mainInfo info) <= byteLength (data r) ->
  exists warned,
    (let+ _ := onDataX (seek (BlockInfo.offset (mainInfo info))) in
     let+ data := lift (onData (readBytes (BlockInfo.size (mainInfo info)))) in
     let+ _ := endBlock in
     retX (Some (createUnreadableBlock data info))) r
    = (Ok (Some (createUnreadableBlock (blockBytes info (buffer (data r))) info)),
       {| data := {| buffer := buffer (data r);
                     _position := BlockInfo.offset (mainInfo info)
                                  + BlockInfo.size (mainInfo info) |};
          currentBlock := None; _warnedAboutExtraData := warned |}).
Proof.
  intros Hcb Ho Hs Hin.
  set (o := BlockInfo.offset (mainInfo info)) in *.
  set (n := BlockInfo.size (mainInfo info)) in *.
  set (r1 := {| data := {| buffer := buffer (data r); _position := o |};
                currentBlock := currentBlock r;
                _warnedAboutExtraData := _warnedAboutExtraData r |}).
  set (r2 := {| data := {| buffer := buffer (data r); _position := o + n |};
                currentBlock := currentBlock r;
                _warnedAboutExtraData := _warnedAboutExtraData r |}).
  assert (E1 : onDataX (seek o) r = (Ok tt, r1)).
  { unfold onDataX, seek.
    destruct (Z.ltb_spec o 0); [lia|].
    destruct (Z.gtb_spec o (byteLength (data r))); [lia|]. reflexivity. }
  assert (E2 : lift (onData (readBytes n)) r1
               = (Ok (blockBytes info (buffer (data r))), r2)).
  { apply lift_Return. unfold onData, readBytes, r1, byteLength in *.
    cbn [data _position buffer currentBlock _warnedAboutExtraData].
    destruct (Z.gtb_spec (o + n) (Z.of_nat (length (buffer (data r))))); [lia|].
    destruct (Z.ltb_spec n 0); [lia|]. reflexivity. }
  destruct (endBlock_inside info r2) as (warned & E3).
  { exact Hcb. }
  { unfold r2, byteLength in *. cbn [data _position buffer]. fold o n. lia. }
  exists warned.
  rewrite (bindX_Ok _ _ _ _ _ E1), (bindX_Ok _ _ _ _ _ E2), (bindX_Ok _ _ _ _ _ E3).
  reflexivity.
Qed.

(** From a header that was read. *)
Lemma TaggedBlockReader_readBlock_Some (r r1 : TaggedBlockReader) (info : MainBlockInfo) :
  0 <= _position (data r) ->
  TaggedBlockReader_readBlock r = (Ok (Some info), r1) ->
  currentBlock r = None
  /\ r1 = {| data := {| buffer := buffer (data r); _position := _position (data r) + 8 |};
             currentBlock := Some info;
             _warnedAboutExtraData := _warnedAboutExtraData r |}
  /\ BlockInfo.offset (mainInfo info) = _position (data r) + 8
  /\ _position (data r) + 8 <= byteLength (data r).
Proof.
  intros Hpos H.
  destruct (currentBlock r) as [cb|] eqn:Hcb.
  { unfold TaggedBlockReader_readBlock in H. rewrite Hcb in H. discriminate H. }
  destruct (TaggedBlockReader_readBlock_spec r Hcb) as [Hshort Hlong].
  destruct (Z.lt_ge_cases (byteLength (data r) - _position (data r)) 8) as [Hlt|Hge].
  - destruct (Hshort Hlt) as (pos' & E & _). rewrite E in H. discriminate H.
  - specialize (Hlong Hge). cbv zeta in Hlong. rewrite Hlong in H.
    destruct (getUint8 (data r) (_position (data r) + 4) =? 0); [|discriminate H].
    injection H as <- <-. cbn [mainInfo BlockInfo.offset]. repeat split; lia.
Qed.

Section ReadBlockProps.

Variable readContent : MainBlockInfo -> option (M TaggedBlockReader Block).

(** X23.  [readBlock] resynchronises.  Once the header of a block is read and the
    block lies inside the buffer, [readBlock] returns a block and leaves the
    cursor on the first byte behind the block, outside any block, whatever
    the reader of the content did: returned early, ran past the end of the
    block, or threw.  The block is the one the content reader returned if
    it stayed inside the block, and else an unreadable block with the bytes
    of the block as they are.  The content reader is only supposed to leave
    the buffer and [currentBlock] alone. *)
Theorem readBlock_resynchronises (r r1 : TaggedBlockReader) (info : MainBlockInfo) :
  0 <= _position (data r) ->
  TaggedBlockReader_readBlock r = (Ok (Some info), r1) ->
  0 <= BlockInfo.size (mainInfo info) ->
  BlockInfo.offset (mainInfo info) + BlockInfo.size (mainInfo info) <= byteLength (data r) ->
  (forall readTyped, readContent info = Some readTyped ->
     currentBlock (snd (readTyped r1)) = currentBlock r1
     /\ buffer (data (snd (readTyped r1))) = buffer (data r1)) ->
  let blockEnd := BlockInfo.offset (mainInfo info) + BlockInfo.size (mainInfo info) in
  let unreadable := createUnreadableBlock (blockBytes info (buffer (data r))) info in
  exists block warned,
    readBlock readContent r
    = (Ok (Some block),
       {| data := {| buffer := buffer (data r); _position := blockEnd |};
          currentBlock := None; _warnedAboutExtraData := warned |})
    /\ block = match readContent info with
               | None => unreadable
               | Some readTyped =>
                   match readTyped r1 with
                   | (Return typed, r2) =>
                       if _position (data r2) <=? blockEnd then typed else unreadable
                   | (Throw _, _) => unreadable
                   end
               end.
Proof.
  intros Hpos Hhdr Hsize Hin Hcontent blockEnd unreadable.
  destruct (TaggedBlockReader_readBlock_Some r r1 info Hpos Hhdr) as (Hcb & Hr1 & Hoff & Hlen).
  assert (Hcb1 : currentBlock r1 = Some info) by now rewrite Hr1.
  assert (Hbuf1 : buffer (data r1) = buffer (data r)) by now rewrite Hr1.
  assert (Hpos1 : _position (data r1) = BlockInfo.offset (mainInfo info))
    by (rewrite Hr1; cbn [data _position]; lia).
  assert (Hcatch : forall rx,
             currentBlock rx = Some info -> buffer (data rx) = buffer (data r) ->
             exists warned,
               (let+ _ := onDataX (seek (BlockInfo.offset (mainInfo info))) in
                let+ data := lift (onData (readBytes (BlockInfo.size (mainInfo info)))) in
                let+ _ := endBlock in
                retX (Some (createUnreadableBlock data info))) rx
               = (Ok (Some unreadable),
                  {| data := {| buffer := buffer (data r); _position := blockEnd |};
                     currentBlock := None; _warnedAboutExtraData := warned |})).
  { intros rx Hcbx Hbufx.
    destruct (readBlock_catch info rx Hcbx) as (warned & E); try lia.
    - unfold byteLength in *. rewrite Hbufx. exact Hin.
    - exists warned. rewrite E, Hbufx. reflexivity. }
  unfold readBlock. rewrite (bindX_Ok _ _ _ _ _ Hhdr). unfold readBlock_try.
  destruct (readContent info) as [readTyped|] eqn:Hrc.
  - destruct (Hcontent readTyped eq_refl) as [Hcb2 Hbuf2].
    destruct (readTyped r1) as [[typed|e] r2] eqn:Hrun; cbn [snd] in Hcb2, Hbuf2.
    + rewrite (bindX_Ok _ _ _ _ _ (lift_Return _ _ _ _ Hrun)).
      destruct (Z.leb_spec (_position (data r2)) blockEnd) as [Hle|Hgt].
      * destruct (endBlock_inside info r2) as (warned & E).
        { now rewrite Hcb2. }
        { unfold byteLength in *. rewrite Hbuf2, Hbuf1. fold blockEnd. lia. }
        rewrite (bindX_Ok _ _ _ _ _ E). unfold retX.
        exists typed, warned. rewrite Hbuf2, Hbuf1. split; reflexivity.
      * destruct (endBlock_overflow info r2) as (e & E).
        { now rewrite Hcb2. }
        { exact Hgt. }
        rewrite (bindX_Err _ _ _ _ _ E).
        destruct (Hcatch r2) as (warned & Ec).
        { now rewrite Hcb2. }
        { now rewrite Hbuf2. }
        exists unreadable, warned. split; [exact Ec|reflexivity].
    + rewrite (bindX_Err _ _ _ _ _ (lift_Throw _ _ _ _ Hrun)).
      destruct (Hcatch r2) as (warned & Ec).
      { now rewrite Hcb2. }
      { now rewrite Hbuf2. }
      exists unreadable, warned. split; [exact Ec|reflexivity].
  - assert (E1 : bytesRemainingInBlock r1 = (Ok (BlockInfo.size (mainInfo info)), r1)).
    { unfold bytesRemainingInBlock. rewrite Hcb1. do 2 f_equal. lia. }
    rewrite (bindX_Ok _ _ _ _ _ E1).
    set (r2 := {| data := {| buffer := buffer (data r); _position := blockEnd |};
                  currentBlock := Some info;
                  _warnedAboutExtraData := _warnedAboutExtraData r |}).
    assert (E2 : lift (onData (readBytes (BlockInfo.size (mainInfo info)))) r1
                 = (Ok (blockBytes info (buffer (data r))), r2)).
    { apply lift_Return. rewrite Hr1. unfold onData, readBytes, byteLength in *.
      cbn [data _position buffer currentBlock _warnedAboutExtraData].
      destruct (Z.gtb_spec (_position (data r) + 8 + BlockInfo.size (mainInfo info))
                           (Z.of_nat (length (buffer (data r))))); [lia|].
      destruct (Z.ltb_spec (BlockInfo.size (mainInfo info)) 0); [lia|].
      unfold blockBytes, r2, blockEnd. rewrite Hoff. reflexivity. }
    rewrite (bindX_Ok _ _ _ _ _ E2).
    destruct (endBlock_inside info r2 eq_refl) as (warned & E3).
    { unfold r2, byteLength in *. cbn [data _position buffer]. fold blockEnd. lia. }
    rewrite (bindX_Ok _ _ _ _ _ E3). unfold retX.
    exists unreadable, warned. split; reflexivity.
Qed.

End ReadBlockProps.

Lemma _checkPosition_Return (blockInfo blockInfo' : BlockInfo.t) (r r' : TaggedBlockReader) :
  _checkPosition blockInfo r = (Return blockInfo', r') ->
  currentBlock r' = currentBlock r
  /\ buffer (data r') = buffer (data r)
  /\ _position (data r') = BlockInfo.offset blockInfo + BlockInfo.size blockInfo.
Proof.
  destruct r as [[buf p] cb warned].
  unfold _checkPosition, bind, onData, tell, throw, ret, readBytes.
  cbn [data _position buffer currentBlock _warnedAboutExtraData].
  destruct (Z.gtb_spec p (BlockInfo.offset blockInfo + BlockInfo.size blockInfo));
    [discriminate|].
  destruct (Z.ltb_spec p (BlockInfo.offset blockInfo + BlockInfo.size blockInfo)).
  - cbn [data _position buffer currentBlock _warnedAboutExtraData].
    destruct (_ >? _); [discriminate|]. destruct (_ <? 0); [discriminate|].
    intros E. injection E as _ <-.
    cbn [data _position buffer currentBlock]. repeat split; lia.
  - intros E. injection E as _ <-.
    cbn [data _position buffer currentBlock]. repeat split; lia.
Qed.

Lemma endBlock_Ok (r r' : TaggedBlockReader) (u : unit) :
  endBlock r = (Ok u, r') ->
  exists info,
    currentBlock r = Some info
    /\ currentBlock r' = None
    /\ buffer (data r') = buffer (data r)
    /\ _position (data r')
       = BlockInfo.offset (mainInfo info) + BlockInfo.size (mainInfo info).
Proof.
  unfold endBlock. destruct (currentBlock r) as [info|] eqn:Hcb; [|discriminate].
  destruct (_checkPosition (mainInfo info) r) as [[i'|e] r1] eqn:E; [|discriminate].
  intros H. injection H as _ <-. exists info.
  destruct (_checkPosition_Return _ _ _ _ E) as (_ & Hb & Hp).
  cbn [data currentBlock]. repeat split; assumption.
Qed.

Lemma onData_readBytes_state (n : Z) (r r' : TaggedBlockReader) (o : outcome (list Z)) :
  onData (readBytes n) r = (o, r') ->
  currentBlock r' = currentBlock r /\ buffer (data r') = buffer (data r).
Proof.
  unfold onData, readBytes.
  destruct (_ >? _); [|destruct (_ <? 0)]; intros H; injection H as _ <-; auto.
Qed.

Lemma getUint8_nonneg (s : DataStream) (i : Z) :
  Forall (fun b => 0 <= b < 256) (buffer s) -> 0 <= getUint8 s i.
Proof.
  intros H. unfold getUint8.
  destruct (nth_in_or_default (Z.to_nat i) (buffer s) 0) as [Hin| ->]; [|lia].
  rewrite List.Forall_forall in H. apply H in Hin. lia.
Qed.

Lemma _checkPosition_state (blockInfo : BlockInfo.t) (r r' : TaggedBlockReader)
      (o : outcome BlockInfo.t) :
  _checkPosition blockInfo r = (o, r') ->
  currentBlock r' = currentBlock r /\ buffer (data r') = buffer (data r).
Proof.
  destruct r as [[buf p] cb warned].
  unfold _checkPosition, bind, onData, tell, throw, ret, readBytes.
  cbn [data _position buffer currentBlock _warnedAboutExtraData].
  destruct (_ >? _); [intros H; injection H as _ <-; auto|].
  destruct (_ <? _).
  - cbn [data _position buffer currentBlock _warnedAboutExtraData].
    destruct (_ >? _); [|destruct (_ <? 0)]; intros H; injection H as _ <-; auto.
  - intros H; injection H as _ <-; auto.
Qed.

Lemma endBlock_Err (r r' : TaggedBlockReader) (e : error) :
  endBlock r = (Err e, r') ->
  currentBlock r' = currentBlock r /\ buffer (data r') = buffer (data r).
Proof.
  unfold endBlock. destruct (currentBlock r) as [info|] eqn:Hcb.
  - destruct (_checkPosition (mainInfo info) r) as [[i'|e'] r1] eqn:E; [discriminate|].
    intros H. injection H as _ <-. rewrite <- Hcb. exact (_checkPosition_state _ _ _ _ E).
  - intros H. injection H as _ <-. auto.
Qed.

Section ReadBlocksTermination.

Variable readContent : MainBlockInfo -> option (M TaggedBlockReader Block).

(** The readers of the contents use the reader's methods: they change
    neither the buffer nor [currentBlock]. *)
Hypothesis readContent_state :
  forall info readTyped r,
    readContent info = Some readTyped ->
    currentBlock (snd (readTyped r)) = currentBlock r
    /\ buffer (data (snd (readTyped r))) = buffer (data r).

(** A block that is read ends behind its header. *)
Lemma readBlock_advances (r r' : TaggedBlockReader) (block : Block) :
  Forall (fun b => 0 <= b < 256) (buffer (data r)) ->
  0 <= _position (data r) ->
  readBlock readContent r = (Ok (Some block), r') ->
  currentBlock r' = None
  /\ buffer (data r') = buffer (data r)
  /\ _position (data r) + 8 <= _position (data r')
  /\ _position (data r) + 8 <= byteLength (data r).
Proof.
  intros Hbytes Hpos H.
  cut (currentBlock r' = None /\ buffer (data r') = buffer (data r)
       /\ _position (data r) + 8 <= _position (data r')).
  { intros (H1 & H2 & H3). repeat split; try assumption.
    unfold readBlock in H. unfold bindX at 1 in H.
    destruct (TaggedBlockReader_readBlock r) as [[[info|]|e] r1] eqn:Hhdr;
      [|discriminate H|discriminate H].
    now destruct (TaggedBlockReader_readBlock_Some r r1 info Hpos Hhdr) as (_ & _ & _ & ?). }
  unfold readBlock in H. unfold bindX at 1 in H.
  destruct (TaggedBlockReader_readBlock r) as [[[info|]|e] r1] eqn:Hhdr;
    [|discriminate H|discriminate H].
  destruct (TaggedBlockReader_readBlock_Some r r1 info Hpos Hhdr) as (Hcb & Hr1 & Hoff & Hlen).
  assert (Hsize : 0 <= BlockInfo.size (mainInfo info)).
  { destruct (TaggedBlockReader_readBlock_spec r Hcb) as [_ Hlong].
    cbv zeta in Hlong.
    assert (H8 : 8 <= byteLength (data r) - _position (data r)) by lia.
    specialize (Hlong H8). rewrite Hlong in Hhdr.
    destruct (_ =? 0); [|discriminate Hhdr]. injection Hhdr as <- _.
    cbn [mainInfo BlockInfo.size].
    repeat apply Z.add_nonneg_nonneg; try apply Z.mul_nonneg_nonneg; try lia;
      apply getUint8_nonneg, Hbytes. }
  assert (Hcb1 : currentBlock r1 = Some info) by now rewrite Hr1.
  assert (Hbuf1 : buffer (data r1) = buffer (data r)) by now rewrite Hr1.
  assert (Hend : forall rx rx' u,
             currentBlock rx = Some info -> buffer (data rx) = buffer (data r) ->
             endBlock rx = (Ok u, rx') ->
             currentBlock rx' = None /\ buffer (data rx') = buffer (data r)
             /\ _position (data r) + 8 <= _position (data rx')).
  { intros rx rx' u Hcbx Hbufx E. destruct (endBlock_Ok _ _ _ E) as (i & Hi & Hn & Hb & Hp).
    rewrite Hcbx in Hi. injection Hi as <-. rewrite Hb, Hbufx, Hp.
    split; [exact Hn|]. split; [reflexivity|]. lia. }
  assert (Hcatch : forall rx o' rx',
             currentBlock rx = Some info -> buffer (data rx) = buffer (data r) ->
             (let+ _ := onDataX (seek (BlockInfo.offset (mainInfo info))) in
              let+ data := lift (onData (readBytes (BlockInfo.size (mainInfo info)))) in
              let+ _ := endBlock in
              retX (Some (createUnreadableBlock data info))) rx = (Ok o', rx') ->
             currentBlock rx' = None /\ buffer (data rx') = buffer (data r)
             /\ _position (data r) + 8 <= _position (data rx')).
  { intros rx o' rx' Hcbx Hbufx E. unfold bindX, retX in E.
    destruct (onDataX _ rx) as [[[]|e] ra] eqn:Ea; [|discriminate E].
    assert (Ha : currentBlock ra = Some info /\ buffer (data ra) = buffer (data r)).
    { unfold onDataX, seek in Ea. destruct (_ || _); [discriminate Ea|].
      injection Ea as <-. cbn [currentBlock data buffer]. auto. }
    destruct (lift _ ra) as [[bytes|e] rb] eqn:Eb; [|discriminate E].
    assert (Hb : currentBlock rb = Some info /\ buffer (data rb) = buffer (data r)).
    { unfold lift in Eb.
      destruct (onData (readBytes _) ra) as [[x|x] ry] eqn:Ey;
        [injection Eb as _ <-|discriminate Eb].
      destruct (onData_readBytes_state _ _ _ _ Ey) as [-> ->]. exact Ha. }
    destruct (endBlock rb) as [[u|e] rc] eqn:Ec; [|discriminate E].
    injection E as _ <-. destruct Hb. eapply Hend; eauto. }
  assert (Hfinish : forall (typed : Block) rx rx',
             currentBlock rx = Some info -> buffer (data rx) = buffer (data r) ->
             match (let+ _ := endBlock in retX typed) rx with
             | (Ok block, r') => (Ok (Some block), r')
             | (Err _, r') =>
                 (let+ _ := onDataX (seek (BlockInfo.offset (mainInfo info))) in
                  let+ data := lift (onData (readBytes (BlockInfo.size (mainInfo info)))) in
                  let+ _ := endBlock in
                  retX (Some (createUnreadableBlock data info))) r'
             end = (Ok (Some block), rx') ->
             currentBlock rx' = None /\ buffer (data rx') = buffer (data r)
             /\ _position (data r) + 8 <= _position (data rx')).
  { intros typed rx rx' Hcbx Hbufx E. unfold bindX at 1, retX at 1 in E.
    destruct (endBlock rx) as [[u|e] ry] eqn:Ee.
    - injection E as _ <-. eapply Hend; eauto.
    - destruct (endBlock_Err _ _ _ Ee) as [Hc Hb].
      eapply Hcatch; [| |exact E]; congruence. }
  unfold readBlock_try in H.
  destruct (readContent info) as [readTyped|] eqn:Hrc.
  - destruct (readContent_state info readTyped r1 Hrc) as [Hcb2 Hbuf2].
    unfold bindX at 1, lift at 1 in H.
    destruct (readTyped r1) as [[typed|e] r2] eqn:Hrun; cbn [snd] in Hcb2, Hbuf2.
    + eapply (Hfinish typed r2); [| |exact H]; congruence.
    + eapply Hcatch; [| |exact H]; congruence.
  - unfold bindX at 1, bytesRemainingInBlock in H. rewrite Hcb1 in H.
    unfold bindX at 1, lift at 1 in H.
    destruct (onData (readBytes _) r1) as [[bytes|e] r2] eqn:Hrun;
      destruct (onData_readBytes_state _ _ _ _ Hrun) as [Hcb2 Hbuf2].
    + eapply (Hfinish _ r2); [| |exact H]; congruence.
    + eapply Hcatch; [| |exact H]; congruence.
Qed.

Lemma readBlocks_loop_terminates (fuel : nat) :
  forall r,
    Forall (fun b => 0 <= b < 256) (buffer (data r)) ->
    0 <= _position (data r) ->
    (Z.to_nat (byteLength (data r) - _position (data r)) < fuel)%nat ->
    exists result, readBlocks_loop readContent fuel r = Some result.
Proof.
  induction fuel as [|fuel IH]; intros r Hbytes Hpos Hfuel; [lia|].
  cbn [readBlocks_loop].
  destruct (readBlock readContent r) as [[[block|]|e] r'] eqn:E; [|eauto|eauto].
  destruct (readBlock_advances r r' block Hbytes Hpos E) as (_ & Hbuf & Hadv & Hlen).
  destruct (IH r') as ([blocks e] & ->); [| | |eauto].
  - now rewrite Hbuf.
  - lia.
  - unfold byteLength in *. rewrite Hbuf. lia.
Qed.

(** X24.  [readBlocks] ends on every input: the generator has yielded its last
    block, or thrown, after at most as many rounds as the input has bytes. *)
Theorem readBlocks_terminates (bytes : list Z) :
  Forall (fun b => 0 <= b < 256) bytes ->
  exists blocks e, readBlocks readContent bytes = Some (blocks, e).
Proof.
  intros Hbytes. unfold readBlocks.
  destruct (onDataX readHeader (newTaggedBlockReader bytes)) as [[[]|e] r] eqn:E; [|eauto].
  assert (Hr : buffer (data r) = bytes /\ 0 <= _position (data r)).
  { revert E. unfold onDataX, readHeader, bindX, lift, readBytes, newTaggedBlockReader,
      newDataStream, throwX, retX.
    cbn [data buffer _position currentBlock _warnedAboutExtraData].
    destruct (_ >? _); [discriminate|]. destruct (_ <? 0); [discriminate|].
    destruct (wrongHeaderByte _ _ _); [discriminate|].
    intros E. injection E as <-. cbn [data buffer _position]. split; [reflexivity|lia]. }
  destruct Hr as [Hbuf Hpos].
  destruct (readBlocks_loop_terminates (S (length bytes)) r) as ([blocks e] & ->); eauto.
  - now rewrite Hbuf.
  - unfold byteLength. rewrite Hbuf. lia.
Qed.

End ReadBlocksTermination.

(** ** The file header *)

Lemma HEADER_V6_length : length HEADER_V6 = 43%nat.
Proof. reflexivity. Qed.

Lemma wrongHeaderByte_spec (expected : list Z) :
  forall (header : list Z) (i : Z),
    length header = length expected ->
    match wrongHeaderByte i header expected with
    | None => header = expected
    | Some j =>
        exists k : nat,
          j = i + Z.of_nat k /\ (k < length expected)%nat
          /\ firstn k header = firstn k expected
          /\ nth k header 0 <> nth k expected 0
    end.
Proof.
  induction expected as [|e expected IH]; intros header i Hlen.
  - destruct header; [reflexivity|discriminate Hlen].
  - destruct header as [|h header]; [discriminate Hlen|].
    cbn [wrongHeaderByte]. destruct (Z.eqb_spec h e) as [->|Hne]; cbn [negb].
    + injection Hlen as Hlen. specialize (IH header (i + 1) Hlen).
      destruct (wrongHeaderByte (i + 1) header expected) as [j|].
      * destruct IH as (k & -> & Hk & Hpre & Hnth). exists (S k).
        cbn [length firstn nth]. repeat split; [lia|lia|now f_equal|exact Hnth].
      * now f_equal.
    + exists 0%nat. cbn [length firstn nth]. repeat split; [lia|lia|exact Hne].
Qed.

(** ** Ids *)

Lemma lift_bind {S A B : Type} (c : M S A) (k : A -> M S B) (s : S) :
  (let+ x := lift c in lift (k x)) s = lift (let* x := c in k x) s.
Proof.
  unfold bindX, lift, bind. destruct (c s) as [[a|e] s']; [|reflexivity].
  reflexivity.
Qed.

Lemma writeVaruint_loop_ToUint32 (fuel : nat) (v : Z) :
  writeVaruint_loop fuel (Js.ToUint32 v) = writeVaruint_loop fuel v.
Proof.
  destruct fuel as [|fuel]; [reflexivity|]. cbn [writeVaruint_loop].
  rewrite !Js_and_0x7F.
  assert (E1 : Js.ToUint32 v mod 128 = v mod 128).
  { unfold Js.ToUint32. change (2 ^ 32) with (128 * 2 ^ 25).
    rewrite Z.rem_mul_r by lia.
    rewrite (Z.mul_comm 128), Z.mod_add by lia. apply Z.mod_mod. lia. }
  assert (E2 : Js.shr (Js.ToUint32 v) 7 = Js.shr v 7).
  { unfold Js.shr. f_equal. unfold Js.ToUint32. apply Z.mod_mod. lia. }
  rewrite E1, E2. reflexivity.
Qed.

Lemma decodes_readCrdtId (p1 p2 : Z) :
  0 <= p2 < 2 ^ 32 ->
  decodes readCrdtId ([p1] ++ writeVaruint_loop 5 p2) (createCrdtId p1 (Js.ToInt32 p2)).
Proof.
  intros H. unfold readCrdtId.
  eapply decodes_bind; [apply decodes_readUint8|].
  rewrite <- (app_nil_r (writeVaruint_loop 5 p2)).
  eapply decodes_bind; [apply decodes_readVaruint, H|]. apply decodes_ret.
Qed.

Lemma ToInt32_ToUint32 (v : Z) : Js.ToInt32 (Js.ToUint32 v) = Js.ToInt32 v.
Proof.
  unfold Js.ToInt32, Js.ToUint32. f_equal.
  rewrite Z.add_mod_idemp_l by lia. reflexivity.
Qed.

(** X22.  Outside a block, [TaggedBlockReader.readBlock] returns [null] exactly
    when fewer than eight bytes are left: a header that is cut short is
    taken as the end of the data, not reported. *)
Theorem TaggedBlockReader_readBlock_null (r : TaggedBlockReader) :
  currentBlock r = None ->
  (exists r', TaggedBlockReader_readBlock r = (Ok None, r') /\ currentBlock r' = None)
  <-> remaining (data r) < 8.
Proof.
  intros Hcb. destruct (TaggedBlockReader_readBlock_spec r Hcb) as [Hshort Hlong].
  unfold remaining. split.
  - intros (r' & E & _).
    destruct (Z.lt_ge_cases (byteLength (data r) - _position (data r)) 8) as [Hlt|Hge];
      [exact Hlt|exfalso].
    specialize (Hlong Hge). cbv zeta in Hlong. rewrite Hlong in E.
    destruct (_ =? 0); discriminate E.
  - intros Hlt. destruct (Hshort Hlt) as (pos' & E & _). eexists. split; [exact E|reflexivity].
Qed.

(** Five bytes are no header. *)
Lemma TaggedBlockReader_readBlock_null_witness :
  (exists r', TaggedBlockReader_readBlock (newTaggedBlockReader [5; 0; 0; 0; 0])
              = (Ok None, r') /\ currentBlock r' = None)
  <-> remaining (data (newTaggedBlockReader [5; 0; 0; 0; 0])) < 8.
Proof. apply (TaggedBlockReader_readBlock_null (newTaggedBlockReader [5; 0; 0; 0; 0])). reflexivity. Defined.

(** A block of type 1 whose five bytes hold an id and two bytes more,
    read with a reader of the content that takes the id. *)
Lemma readBlock_resynchronises_witness :
  let readContent := fun info : MainBlockInfo =>
    if blockType info =? 1
    then Some (let* id := readId 1 in ret (SceneTreeBlock id id false id))
    else None in
  let bytes := [5; 0; 0; 0; 0; 1; 1; 1; 0x1F; 0; 5; 7; 7; 9] in
  exists block warned,
    readBlock readContent (newTaggedBlockReader bytes)
    = (Ok (Some block),
       {| data := {| buffer := bytes; _position := 13 |};
          currentBlock := None; _warnedAboutExtraData := warned |})
    /\ block = SceneTreeBlock (createCrdtId 0 5) (createCrdtId 0 5) false (createCrdtId 0 5).
Proof.
  intros readContent bytes.
  apply (readBlock_resynchronises readContent (newTaggedBlockReader bytes)
           {| data := {| buffer := bytes; _position := 8 |};
              currentBlock :=
                Some {| mainInfo := {| BlockInfo.offset := 8; BlockInfo.size := 5;
                                       BlockInfo.extraData := [] |};
                        blockType := 1; minVersion := 1; currentVersion := 1 |};
              _warnedAboutExtraData := false |}
           {| mainInfo := {| BlockInfo.offset := 8; BlockInfo.size := 5;
                             BlockInfo.extraData := [] |};
              blockType := 1; minVersion := 1; currentVersion := 1 |}).
  - simpl. lia.
  - reflexivity.
  - simpl. lia.
  - vm_compute. discriminate.
  - intros readTyped H. injection H as <-. vm_compute. split; reflexivity.
Defined.

(** The file header and the block above, with a reader of the content that
    takes one byte. *)
Lemma readBlocks_terminates_witness :
  exists blocks e,
    readBlocks (fun _ => Some (let* _ := onData readUint8 in ret (OtherBlock PageInfo)))
               (HEADER_V6 ++ [5; 0; 0; 0; 0; 1; 1; 1; 0x1F; 0; 5; 7; 7; 9])
    = Some (blocks, e).
Proof.
  apply (readBlocks_terminates
           (fun _ => Some (let* _ := onData readUint8 in ret (OtherBlock PageInfo)))).
  - intros info readTyped r H. injection H as <-.
    unfold bind, onData, readUint8, ret. destruct (_ >? _); split; reflexivity.
  - apply List.Forall_forall. intros b Hb.
    assert (H : forallb (fun b => (0 <=? b) && (b <? 256))
                  (HEADER_V6 ++ [5; 0; 0; 0; 0; 1; 1; 1; 0x1F; 0; 5; 7; 7; 9]) = true)
      by (vm_compute; reflexivity).
    apply (proj1 (List.forallb_forall _ _) H) in Hb. lia.
Defined.

(** X25.  [readHeader] accepts exactly the 43 bytes of the version 6 header.
    With fewer than 43 bytes left it throws EOF and consumes nothing; with
    43 bytes that differ from the header it throws for the first index at
    which they do, after it has consumed them. *)
Theorem readHeader_spec (s : DataStream) :
  0 <= _position s ->
  let next := firstn 43 (skipn (Z.to_nat (_position s)) (buffer s)) in
  let moved := {| buffer := buffer s; _position := _position s + 43 |} in
  (remaining s < 43 -> readHeader s = (Err (Exn Error_EOF), s))
  /\ (43 <= remaining s -> next = HEADER_V6 -> readHeader s = (Ok tt, moved))
  /\ (43 <= remaining s -> next <> HEADER_V6 ->
      exists k : nat,
        readHeader s = (Err (Error_WrongHeader (Z.of_nat k)), moved)
        /\ (k < 43)%nat
        /\ firstn k next = firstn k HEADER_V6
        /\ nth k next 0 <> nth k HEADER_V6 0).
Proof.
  intros Hpos next moved. unfold remaining.
  unfold readHeader, bindX, lift, readBytes, throwX, retX.
  rewrite HEADER_V6_length. change (Z.of_nat 43) with 43. change (Z.to_nat 43) with 43%nat.
  fold next. fold moved.
  split; [|split].
  - intros H. destruct (Z.gtb_spec (_position s + 43) (byteLength s)); [reflexivity|lia].
  - intros H Hnext. destruct (Z.gtb_spec (_position s + 43) (byteLength s)); [lia|].
    cbn [Z.ltb Z.compare]. rewrite Hnext.
    pose proof (wrongHeaderByte_spec HEADER_V6 HEADER_V6 0 eq_refl) as Hw.
    destruct (wrongHeaderByte 0 HEADER_V6 HEADER_V6) as [j|]; [|reflexivity].
    destruct Hw as (k & _ & _ & _ & Hne). congruence.
  - intros H Hnext. destruct (Z.gtb_spec (_position s + 43) (byteLength s)); [lia|].
    cbn [Z.ltb Z.compare].
    assert (Hlen : length next = length HEADER_V6).
    { rewrite HEADER_V6_length. unfold next, byteLength in *.
      rewrite length_firstn, length_skipn. lia. }
    pose proof (wrongHeaderByte_spec HEADER_V6 next 0 Hlen) as Hw.
    destruct (wrongHeaderByte 0 next HEADER_V6) as [j|]; [|contradiction].
    destruct Hw as (k & -> & Hk & Hpre & Hne). rewrite HEADER_V6_length in Hk.
    exists k. rewrite Z.add_0_l. auto.
Qed.

(** What [writeHeader] wrote is accepted. *)
Lemma readHeader_spec_witness :
  readHeader (newDataStream (getBytes (snd (writeHeader (forWriting 1024)))))
  = (Ok tt, {| buffer := HEADER_V6; _position := 43 |}).
Proof.
  apply (readHeader_spec (newDataStream (getBytes (snd (writeHeader (forWriting 1024)))))).
  - simpl. lia.
  - vm_compute. discriminate.
  - reflexivity.
Defined.

(** X26.  An id written by [writeId] and read by [readId]: the first part comes
    back modulo 2^8 and the second as the signed 32-bit value of its low 32
    bits, so that the round trip is exact for 0 <= part1 < 2^8 and
    0 <= part2 < 2^31; the writer's own check admits every part2 below
    2^64. *)
Theorem writeId_readId (index : Z) (value : CrdtId) :
  0 <= index < 2 ^ 27 ->
  part1 value < 2 ^ 8 -> 0 <= part2 value < 2 ^ 64 ->
  exists w r,
    writeId index value newTaggedBlockWriter = (Ok tt, w)
    /\ readId index (newTaggedBlockReader (getBytes (TaggedBlockWriter.data w)))
       = (Return (createCrdtId (part1 value mod 2 ^ 8) (Js.ToInt32 (part2 value))), r)
    /\ _position (data r) = byteLength (data r).
Proof.
  intros Hi H1 H2.
  set (bytes := tagBytes index ID
                ++ [part1 value mod 256]
                ++ writeVaruint_loop 5 (Js.ToUint32 (part2 value))).
  assert (Hw : appendsW
                 (let* _ := onWriterData (writeTag index ID) in
                  onWriterData (let* _ := writeUint8 (part1 value) in
                                writeVaruint (part2 value)))
                 bytes).
  { apply appendsW_bind; [apply appendsW_onWriterData, appends_writeTag, Hi|].
    apply appendsW_onWriterData, appends_bind; [apply appends_writeUint8|].
    rewrite writeVaruint_loop_ToUint32. apply appends_writeVaruint. lia. }
  destruct (inBounds_forWriting 1024) as [Hf Hg].
  destruct (Hw newTaggedBlockWriter Hf) as (w & Ew & Gw & _).
  cbn [newTaggedBlockWriter TaggedBlockWriter.data] in Gw. rewrite Hg in Gw.
  cbn [app] in Gw.
  exists w, (readerPast [] bytes [] None false).
  split; [|rewrite Gw, newTaggedBlockReader_readerAt; split].
  - unfold writeId, writeCrdtId.
    destruct (Z.geb_spec (part1 value) (2 ^ 8)); [lia|].
    destruct (Z.geb_spec (part2 value) (2 ^ 64)); [lia|]. cbn [orb].
    revert Ew. unfold bindX, bind, lift, onWriterData, onWriterDataX.
    destruct (writeTag index ID (TaggedBlockWriter.data newTaggedBlockWriter))
      as [[[]|e] s1]; [|discriminate].
    cbn [TaggedBlockWriter.data TaggedBlockWriter._inBlock].
    destruct (writeUint8 (part1 value) s1) as [[[]|e] s2]; [|discriminate].
    destruct (writeVaruint (part2 value) s2) as [[[]|e] s3]; [|discriminate].
    intros Ew. injection Ew as <-. reflexivity.
  - unfold readId, bytes.
    assert (Hu : 0 <= Js.ToUint32 (part2 value) < 2 ^ 32) by (apply Z.mod_pos_bound; lia).
    rewrite <- ToInt32_ToUint32.
    eapply decodesAfter_bind; [apply decodesAfter_onData, decodes_readTag, Hi|].
    apply decodesAfter_onData, (decodes_readCrdtId _ _ Hu).
  - apply readerPast_end.
Qed.

(** The id (1, 2^32 + 7) passes the check of the writer and comes back as
    (1, 7). *)
Lemma writeId_readId_witness :
  exists w r,
    writeId 3 (createCrdtId 1 (2 ^ 32 + 7)) newTaggedBlockWriter = (Ok tt, w)
    /\ readId 3 (newTaggedBlockReader (getBytes (TaggedBlockWriter.data w)))
       = (Return (createCrdtId 1 7), r)
    /\ _position (data r) = byteLength (data r).
Proof.
  apply (writeId_readId 3 (createCrdtId 1 (2 ^ 32 + 7))); simpl; lia.
Defined.

(** X27.  The envelope that the writer puts around a block is the one that the
    reader expects: behind [startBlock ... end()] the written bytes are the
    eight header bytes and the content, [TaggedBlockReader.readBlock] reads
    the header back (the type and the versions modulo 2^8) and the bytes it
    delimits are the content. *)
Theorem withBlock_readBlock {A : Type} (blockType minVersion currentVersion : Z)
        (body : MX TaggedBlockWriter.t A) (a : A) (w1 : TaggedBlockWriter.t) :
  body {| TaggedBlockWriter.data := forWriting 1024; TaggedBlockWriter._inBlock := true |}
  = (Ok a, w1) ->
  Z.of_nat (length (getBytes (TaggedBlockWriter.data w1))) < 2 ^ 32 ->
  let content := getBytes (TaggedBlockWriter.data w1) in
  let info :=
    {| mainInfo := {| BlockInfo.offset := 8;
                      BlockInfo.size := Z.of_nat (length content);
                      BlockInfo.extraData := [] |};
       blockType := blockType mod 256;
       minVersion := minVersion mod 256;
       currentVersion := currentVersion mod 256 |} in
  exists w r,
    withBlock blockType minVersion currentVersion body newTaggedBlockWriter = (Ok a, w)
    /\ TaggedBlockWriter._inBlock w = false
    /\ getBytes (TaggedBlockWriter.data w)
       = headerBytes (Z.of_nat (length content)) (minVersion mod 256)
                     (currentVersion mod 256) (blockType mod 256) ++ content
    /\ TaggedBlockReader_readBlock
         (newTaggedBlockReader (getBytes (TaggedBlockWriter.data w)))
       = (Ok (Some info), r)
    /\ blockBytes info (getBytes (TaggedBlockWriter.data w)) = content.
Proof.
  intros Hbody Hlen content info.
  assert (Hlen' : 0 <= Z.of_nat (length content) < 2 ^ 32) by (unfold content; lia).
  set (hdr := headerBytes (Z.of_nat (length content)) (minVersion mod 256)
                          (currentVersion mod 256) (blockType mod 256)).
  assert (Hend : appendsW
            (let* _ := onWriterData (writeUint32 (Z.of_nat (length content))) in
             let* _ := onWriterData (writeUint8 0) in
             let* _ := onWriterData (writeUint8 minVersion) in
             let* _ := onWriterData (writeUint8 currentVersion) in
             let* _ := onWriterData (writeUint8 blockType) in
             let* _ := onWriterData (writeBytes content) in
             ret tt)
            (hdr ++ content)).
  { eapply appendsW_eq.
    - apply appendsW_bind; [apply appendsW_onWriterData, appends_writeUint32|].
      apply appendsW_bind; [apply appendsW_onWriterData, appends_writeUint8|].
      apply appendsW_bind; [apply appendsW_onWriterData, appends_writeUint8|].
      apply appendsW_bind; [apply appendsW_onWriterData, appends_writeUint8|].
      apply appendsW_bind; [apply appendsW_onWriterData, appends_writeUint8|].
      apply appendsW_bind; [apply appendsW_onWriterData, appends_writeBytes|].
      apply appendsW_ret.
    - unfold hdr, headerBytes. rewrite ToUint32_small by lia.
      rewrite app_nil_r, <- !app_assoc. reflexivity. }
  destruct (inBounds_forWriting 1024) as [Hf Hg].
  destruct (Hend {| TaggedBlockWriter.data := forWriting 1024;
                    TaggedBlockWriter._inBlock := false |} Hf)
    as (w & Ew & Gw & _ & Iw).
  cbn [TaggedBlockWriter.data TaggedBlockWriter._inBlock] in Gw, Iw.
  rewrite Hg in Gw. cbn [app] in Gw.
  exists w, (readerPast [] hdr content (Some info) false).
  split; [|split; [exact Iw|split; [exact Gw|rewrite Gw; split]]].
  - unfold withBlock. cbn [newTaggedBlockWriter TaggedBlockWriter._inBlock
                           TaggedBlockWriter.data].
    rewrite Hbody. fold content.
    revert Ew. unfold lift, bind, ret.
    destruct (onWriterData (writeUint32 (Z.of_nat (length content))) _)
      as [[[]|e] s1]; [|discriminate].
    destruct (onWriterData (writeUint8 0) s1) as [[[]|e] s2]; [|discriminate].
    destruct (onWriterData (writeUint8 minVersion) s2) as [[[]|e] s3]; [|discriminate].
    destruct (onWriterData (writeUint8 currentVersion) s3) as [[[]|e] s4]; [|discriminate].
    destruct (onWriterData (writeUint8 blockType) s4) as [[[]|e] s5]; [|discriminate].
    destruct (onWriterData (writeBytes content) s5) as [[[]|e] s6]; [|discriminate].
    intros Ew. injection Ew as <-. reflexivity.
  - assert (Hr : newTaggedBlockReader (hdr ++ content) = readerAt [] hdr content None false).
    { reflexivity. }
    rewrite Hr.
    apply (TaggedBlockReader_readBlock_header [] content false (Z.of_nat (length content))).
    lia.
  - unfold blockBytes, info. cbn [mainInfo BlockInfo.offset BlockInfo.size].
    rewrite Nat2Z.id. change (Z.to_nat 8) with (length hdr).
    rewrite skipn_app, skipn_all, Nat.sub_diag. cbn [skipn app]. apply firstn_all.
Qed.

(** A block of type 1 that holds the id (0, 5) in field 1. *)
Lemma withBlock_readBlock_witness :
  let content := [0x1F; 0; 5] in
  let info :=
    {| mainInfo := {| BlockInfo.offset := 8; BlockInfo.size := 3;
                      BlockInfo.extraData := [] |};
       blockType := 1; minVersion := 1; currentVersion := 1 |} in
  exists w r,
    withBlock 1 1 1 (writeId 1 (createCrdtId 0 5)) newTaggedBlockWriter = (Ok tt, w)
    /\ TaggedBlockWriter._inBlock w = false
    /\ getBytes (TaggedBlockWriter.data w) = headerBytes 3 1 1 1 ++ content
    /\ TaggedBlockReader_readBlock
         (newTaggedBlockReader (getBytes (TaggedBlockWriter.data w)))
       = (Ok (Some info), r)
    /\ blockBytes info (getBytes (TaggedBlockWriter.data w)) = content.
Proof.
  apply (withBlock_readBlock 1 1 1 (writeId 1 (createCrdtId 0 5)) tt
           (snd (writeId 1 (createCrdtId 0 5)
                   {| TaggedBlockWriter.data := forWriting 1024;
                      TaggedBlockWriter._inBlock := true |}))).
  - vm_compute. reflexivity.
  - vm_compute. reflexivity.
Defined.

(* ===================================================================== *)
(** * Keys of ids and text items *)
(* ===================================================================== *)

(** ** The string keys of ids *)






(** ** Text items *)





